(** * go-synapse: the transaction reliability layer

    A shallow embedding of [pkg/txutil] (nonce manager, submission retrier,
    backoff policy, receipt and confirmation waiters, gas estimation), of
    [pdp.Manager] (construction, the nonce-consuming operations, the
    proof-set reads), of the generic retry helpers of [internal/retry] and
    of the network and epoch tables, with the properties the design
    document states about them and further properties read off the code.

    Conventions.
    - A Go [uint64] is a [Z] in [0, 2^64); [++] on it wraps around.
    - A Go [int], [int64] and [time.Duration] (nanoseconds) is a [Z].
    - A Go [error] is a value of [error]; a nullable one is [option error].
    - A method that talks to the network takes the network's answer as an
      argument: the embedding is a function of the state and of what the
      RPC collaborator replied.
    - The mutex of [NonceManager] makes every method atomic; a method is
      one function from state to state. *)

From Stdlib Require Import ZArith String Ascii List Lia Bool Floats.
From stdpp Require Import base decidable numbers option list gmap sorting pretty strings.

Local Open Scope Z_scope.

(** ** Machine integers *)

Definition uint64_modulus : Z := 2 ^ 64.

Definition is_uint64 (z : Z) : Prop := 0 <= z < uint64_modulus.

(** [x++] on a [uint64]. *)
Definition uint64_incr (z : Z) : Z := (z + 1) mod uint64_modulus.

(** ** Errors

    [Sentinel] values are the package-level [errors.New] variables that the
    code compares by identity ([errors.Is]); [errors_New] is any other
    error value with its message; [fmt_Errorf before e after] is
    [fmt.Errorf] with one [%w] verb: the formatted text before the verb,
    the wrapped error, and the formatted text after it. *)

Inductive sentinel : Set :=
| ethereum_NotFound
| context_Canceled
| context_DeadlineExceeded
| ErrReceiptTimeout
| ErrReceiptRPCFailure
| ErrTxFailed
| ErrTxTimeout.

Global Instance sentinel_eq_dec : EqDecision sentinel.
Proof. solve_decision. Defined.

Inductive error : Type :=
| Sentinel (s : sentinel)
| errors_New (msg : string)
| fmt_Errorf (before : string) (wrapped : error) (after : string).

Definition sentinel_text (s : sentinel) : string :=
  match s with
  | ethereum_NotFound => "not found"
  | context_Canceled => "context canceled"
  | context_DeadlineExceeded => "context deadline exceeded"
  | ErrReceiptTimeout => "timeout waiting for transaction receipt"
  | ErrReceiptRPCFailure => "receipt fetch failed due to repeated RPC errors"
  | ErrTxFailed => "transaction failed"
  | ErrTxTimeout => "transaction timeout"
  end.

(** [err.Error()]. *)
Fixpoint Error (e : error) : string :=
  match e with
  | Sentinel s => sentinel_text s
  | errors_New msg => msg
  | fmt_Errorf before wrapped after => before +:+ Error wrapped +:+ after
  end.

(** [errors.Is(e, target)] for a sentinel target: walk the [Unwrap] chain. *)
Fixpoint errors_Is (e : error) (target : sentinel) : bool :=
  match e with
  | Sentinel s => bool_decide (s = target)
  | errors_New _ => false
  | fmt_Errorf _ wrapped _ => errors_Is wrapped target
  end.

(** [errors.Unwrap]. *)
Definition errors_Unwrap (e : error) : option error :=
  match e with
  | fmt_Errorf _ wrapped _ => Some wrapped
  | _ => None
  end.

(** The result of a call that returns [(value, error)]. *)
Inductive Result (A : Type) : Type :=
| Ok (a : A)
| Err (e : error).
Arguments Ok {A} a.
Arguments Err {A} e.

(** ** pkg/txutil/nonce.go *)

Module Nonce.

(** [NonceManager]: the cached counter ([nil] until fetched), the in-flight
    map and the pool of failed nonces. The client, the address and the
    mutex are not data of the model. *)
Record NonceManager : Type := mkNonceManager {
  nonce : option Z;
  pendingTxs : gmap Z bool;
  reclaimable : list Z
}.

Definition NewNonceManager : NonceManager :=
  {| nonce := None; pendingTxs := ∅; reclaimable := [] |}.

(** [sort.Slice(nm.reclaimable, func(i, j) { return r[i] < r[j] })]. *)
Definition sort_Slice (l : list Z) : list Z := merge_sort Z.le l.

(** The tail of [GetNonce]: hand out the counter and advance it. *)
Definition mint (nm : NonceManager) (currentNonce : Z) : NonceManager * Result Z :=
  ({| nonce := Some (uint64_incr currentNonce);
      pendingTxs := <[currentNonce := true]> (pendingTxs nm);
      reclaimable := reclaimable nm |},
   Ok currentNonce).

(** [GetNonce]; [net] is the answer of [client.PendingNonceAt], consulted
    only when the pool is empty and the counter is not cached. In the
    first branch the pool is sorted in place, its element [0] is handed
    out and the pool becomes its slice [[1:]]. *)
Definition GetNonce (nm : NonceManager) (net : Result Z) : NonceManager * Result Z :=
  if (0 <? length (reclaimable nm))%nat then
    let sorted := sort_Slice (reclaimable nm) in
    let n := hd 0 sorted in
    ({| nonce := nonce nm;
        pendingTxs := <[n := true]> (pendingTxs nm);
        reclaimable := tl sorted |},
     Ok n)
  else
    match nonce nm with
    | Some currentNonce => mint nm currentNonce
    | None =>
        match net with
        | Err e => (nm, Err (fmt_Errorf "failed to get pending nonce: " e ""))
        | Ok fetched => mint nm fetched
        end
    end.

Definition MarkConfirmed (nm : NonceManager) (n : Z) : NonceManager :=
  {| nonce := nonce nm;
     pendingTxs := delete n (pendingTxs nm);
     reclaimable := reclaimable nm |}.

Definition MarkFailed (nm : NonceManager) (n : Z) : NonceManager :=
  {| nonce := nonce nm;
     pendingTxs := delete n (pendingTxs nm);
     reclaimable := reclaimable nm ++ [n] |}.

(** [Reset]; [net] is the answer of [client.PendingNonceAt]. *)
Definition Reset (nm : NonceManager) (net : Result Z) : NonceManager * option error :=
  match net with
  | Err e => (nm, Some (fmt_Errorf "failed to reset nonce: " e ""))
  | Ok fetched =>
      ({| nonce := Some fetched; pendingTxs := ∅; reclaimable := [] |}, None)
  end.

Definition GetPendingCount (nm : NonceManager) : nat := size (pendingTxs nm).

(** *** Sequences of calls

    A client of the manager issues calls; the allocations it holds at a
    point are the values [GetNonce] returned that it has not yet passed to
    [MarkFailed] or [MarkConfirmed]. *)

Inductive Call : Type :=
| CallGetNonce (net : Result Z)
| CallMarkFailed (n : Z)
| CallMarkConfirmed (n : Z).

(** The manager together with the client's live allocations, newest
    first. *)
Record Session : Type := mkSession {
  manager : NonceManager;
  live : list Z
}.

Definition new_session : Session :=
  {| manager := NewNonceManager; live := [] |}.

(** Passing [n] to [MarkFailed] or [MarkConfirmed] ends every allocation
    of the value [n]. *)
Definition release (n : Z) (allocations : list Z) : list Z :=
  filter (fun v => v <> n) allocations.

Definition call (s : Session) (c : Call) : Session :=
  match c with
  | CallGetNonce net =>
      match GetNonce (manager s) net with
      | (nm, Ok v) => {| manager := nm; live := v :: live s |}
      | (nm, Err _) => {| manager := nm; live := live s |}
      end
  | CallMarkFailed n =>
      {| manager := MarkFailed (manager s) n; live := release n (live s) |}
  | CallMarkConfirmed n =>
      {| manager := MarkConfirmed (manager s) n; live := release n (live s) |}
  end.

Definition calls (s : Session) (cs : list Call) : Session :=
  fold_left call cs s.

(** A call the documentation of the manager allows at this point:
    [MarkFailed] is for a nonce the caller holds ("only call this for local
    failures before the transaction is sent"), and the network answers
    with a [uint64]. *)
Definition allowed (s : Session) (c : Call) : bool :=
  match c with
  | CallGetNonce (Ok fetched) => bool_decide (is_uint64 fetched)
  | CallGetNonce (Err _) => true
  | CallMarkFailed n => bool_decide (n ∈ live s)
  | CallMarkConfirmed _ => true
  end.

Fixpoint disciplined (s : Session) (cs : list Call) : bool :=
  match cs with
  | [] => true
  | c :: cs' => allowed s c && disciplined (call s c) cs'
  end.

(** The number of [GetNonce] calls in a sequence. *)
Fixpoint allocations (cs : list Call) : nat :=
  match cs with
  | [] => O
  | CallGetNonce _ :: cs' => S (allocations cs')
  | _ :: cs' => allocations cs'
  end.

(** What the [GetNonce] calls of a sequence return, in order. *)
Fixpoint outputs (nm : NonceManager) (cs : list Call) : list (Result Z) :=
  match cs with
  | [] => []
  | CallGetNonce net :: cs' =>
      let '(nm', r) := GetNonce nm net in r :: outputs nm' cs'
  | CallMarkFailed n :: cs' => outputs (MarkFailed nm n) cs'
  | CallMarkConfirmed n :: cs' => outputs (MarkConfirmed nm n) cs'
  end.

(** *** The invariant of a disciplined session

    [minted] values have left the counter since it was fetched as [start]:
    they are [start], [start + 1], ... modulo [2^64], the counter stands
    right after them, every live or reclaimable value is one of them, no
    value is held twice, and the in-flight map holds exactly the live
    values. *)

Definition minted_value (start minted v : Z) : Prop :=
  exists i, 0 <= i < minted /\ v = (start + i) mod uint64_modulus.

Record coherent (start minted : Z) (s : Session) : Prop := mkCoherent {
  coh_minted : 0 <= minted;
  coh_start : is_uint64 start;
  coh_counter :
    match nonce (manager s) with
    | None => minted = 0
    | Some c => 0 < minted /\ c = (start + minted) mod uint64_modulus
    end;
  coh_window :
    forall v, v ∈ live s ++ reclaimable (manager s) -> minted_value start minted v;
  coh_nodup : NoDup (live s ++ reclaimable (manager s));
  coh_pending :
    forall v, v ∈ live s <-> is_Some (pendingTxs (manager s) !! v)
}.

(** A confirmed nonce: minted, and neither held nor reclaimable. *)
Definition retired (start minted : Z) (s : Session) (n : Z) : Prop :=
  minted_value start minted n /\ (n ∉ live s) /\ (n ∉ reclaimable (manager s)).

End Nonce.

(** ** float64

    Go's [float64] is Rocq's primitive binary64 [float]; multiplication,
    division and addition are the kernel's IEEE-754 operations. *)

Module Float64.

(** [float64(z)] for an integer [z] ([int], [int64] or [uint64]): the
    nearest binary64, ties to even. *)
Definition of_Z (z : Z) : float :=
  SF2Prim (binary_normalize prec emax z 0 false).

(** The integer part of a finite float, rounded toward zero; [None] for a
    NaN or an infinity. *)
Definition truncate (f : float) : option Z :=
  match Prim2SF f with
  | S754_zero _ => Some 0
  | S754_finite s m e =>
      let mag := if 0 <=? e then Z.pos m * 2 ^ e else Z.pos m / 2 ^ (- e) in
      Some (if s then - mag else mag)
  | S754_infinity _ | S754_nan => None
  end.

Definition is_int64 (z : Z) : Prop := - 2 ^ 63 <= z < 2 ^ 63.

Section Conversion.

(** Go leaves the conversion of a float that does not fit the integer type
    to the implementation (for [int64], amd64 yields [-2^63] and arm64
    saturates); [indefinite] is that result. *)
Variable indefinite : float -> Z.

(** [int64(f)], also [time.Duration(f)]. *)
Definition to_int64 (f : float) : Z :=
  match truncate f with
  | Some z => if bool_decide (is_int64 z) then z else indefinite f
  | None => indefinite f
  end.

(** [uint64(f)]. *)
Definition to_uint64 (f : float) : Z :=
  match truncate f with
  | Some z => if bool_decide (is_uint64 z) then z else indefinite f
  | None => indefinite f
  end.

End Conversion.

End Float64.

(** ** pkg/txutil/retry.go *)

Module Retry.

Record RetryConfig : Type := mkRetryConfig {
  MaxRetries : Z;
  InitialBackoff : Z;
  MaxBackoff : Z;
  BackoffMultiple : float
}.

Definition second : Z := 1000000000.

Definition DefaultRetryConfig : RetryConfig :=
  {| MaxRetries := 3;
     InitialBackoff := second;
     MaxBackoff := 30 * second;
     BackoffMultiple := 2%float |}.

(** [strings.ToLower] on the ASCII letters; other bytes are kept. (Go also
    lowers the upper-case letters outside ASCII; the model is exact on
    messages made of ASCII bytes.) *)
Definition lower_ascii (c : ascii) : ascii :=
  let n := N_of_ascii c in
  if ((65 <=? n) && (n <=? 90))%N then ascii_of_N (n + 32) else c.

Fixpoint ToLower (s : string) : string :=
  match s with
  | EmptyString => EmptyString
  | String c rest => String (lower_ascii c) (ToLower rest)
  end.

(** The string holds ASCII bytes only; on such a string [strings.ToLower]
    is [ToLower]. *)
Fixpoint ascii_only (s : string) : bool :=
  match s with
  | EmptyString => true
  | String c rest => (N_of_ascii c <? 128)%N && ascii_only rest
  end.

(** [strings.Contains(s, substr)]. *)
Fixpoint Contains (s substr : string) : bool :=
  String.prefix substr s ||
  match s with
  | EmptyString => false
  | String _ rest => Contains rest substr
  end.

Definition retryableErrors : list string :=
  [ "nonce too low";
    "replacement transaction underpriced";
    "already known";
    "timeout";
    "connection refused";
    "connection reset";
    "broken pipe";
    "i/o timeout" ]%string.

Definition IsRetryableError (err : option error) : bool :=
  match err with
  | None => false
  | Some e =>
      let errStr := ToLower (Error e) in
      existsb (fun retryable => Contains errStr retryable) retryableErrors
  end.

Definition IsNonceError (err : option error) : bool :=
  match err with
  | None => false
  | Some e =>
      let errStr := ToLower (Error e) in
      Contains errStr "nonce too low" || Contains errStr "nonce too high"
      || Contains errStr "invalid nonce"
  end.

Definition IsGasError (err : option error) : bool :=
  match err with
  | None => false
  | Some e =>
      let errStr := ToLower (Error e) in
      Contains errStr "gas" || Contains errStr "fee"
  end.

Definition WrapError (operation : string) (err : option error) : option error :=
  match err with
  | None => None
  | Some e => Some (fmt_Errorf (operation +:+ ": ") e "")
  end.

(** A signed transaction, as far as the retrier looks at it. *)
Record Transaction : Type := mkTransaction { Hash : Z }.

(** What the retrier meets while it runs: [sendReply k] is what the call of
    [client.SendTransaction] in iteration [k] returns ([None] is [nil]);
    [ctxDone k] is [Some err] when [ctx.Done()] wins the [select] of the
    wait that precedes iteration [k], with [err = ctx.Err()]. *)
Record SendEnv : Type := mkSendEnv {
  sendReply : nat -> option error;
  ctxDone : nat -> option error
}.

(** What a run did: the returned pair, the number of calls of
    [client.SendTransaction], and the durations it slept, in order. *)
Record SendRun : Type := mkSendRun {
  returned : Result Z;
  sendCalls : nat;
  slept : list Z
}.

Section Retrier.

Variable indefinite : float -> Z.
Variable env : SendEnv.
Variable tx : Transaction.
Variable config : RetryConfig.

(** [fmt.Errorf("max retries exceeded: %w", lastErr)]; with a [nil]
    operand [%w] prints [%!w(<nil>)] and nothing is wrapped. *)
Definition max_retries_exceeded (lastErr : option error) : error :=
  match lastErr with
  | Some e => fmt_Errorf "max retries exceeded: " e ""
  | None => errors_New "max retries exceeded: %!w(<nil>)"
  end.

(** The growth of [backoff] after a wait. *)
Definition next_backoff (backoff : Z) : Z :=
  let grown :=
    Float64.to_int64 indefinite
      (PrimFloat.mul (Float64.of_Z backoff) (BackoffMultiple config)) in
  if grown >? MaxBackoff config then MaxBackoff config else grown.

(** The [for] loop, with [remaining] iterations to go; [attempt] is the
    loop variable, [calls] and [naps] what was done so far. *)
Fixpoint retry_loop (remaining : nat) (attempt : nat) (backoff : Z)
    (lastErr : option error) (calls : nat) (naps : list Z) : SendRun :=
  match remaining with
  | O => {| returned := Err (max_retries_exceeded lastErr);
            sendCalls := calls; slept := naps |}
  | S remaining' =>
      let waited :=
        if (0 <? attempt)%nat then
          match ctxDone env attempt with
          | Some ctxErr => inl ctxErr
          | None => inr (next_backoff backoff, naps ++ [backoff])
          end
        else inr (backoff, naps) in
      match waited with
      | inl ctxErr =>
          {| returned := Err ctxErr; sendCalls := calls; slept := naps |}
      | inr (backoff', naps') =>
          match sendReply env attempt with
          | None =>
              {| returned := Ok (Hash tx); sendCalls := S calls; slept := naps' |}
          | Some err =>
              if negb (IsRetryableError (Some err)) then
                {| returned := Err (fmt_Errorf "non-retryable error: " err "");
                   sendCalls := S calls; slept := naps' |}
              else
                retry_loop remaining' (S attempt) backoff' (Some err) (S calls) naps'
          end
      end
  end.

(** [SendTransactionWithRetry]. The loop runs for [attempt = 0 ..
    MaxRetries], that is [MaxRetries + 1] times, and not at all when
    [MaxRetries] is negative. ([attempt] is an [int] that stays below
    [2^63]: the model is that of the code for [MaxRetries < 2^63 - 1].) *)
Definition SendTransactionWithRetry : SendRun :=
  retry_loop (Z.to_nat (MaxRetries config + 1)) 0 (InitialBackoff config) None 0 [].

End Retrier.

(** *** Backoff policy *)

(** [binary.BigEndian.Uint64(buf[:])]. *)
Definition BigEndian_Uint64 (buf : list Z) : Z :=
  fold_left (fun acc b => acc * 256 + b) buf 0.

(** [secureRandomInt64n(n)]; [entropy] is what [cryptorand.Read] put into
    the 8-byte buffer, or [None] when it returned an error. *)
Definition secureRandomInt64n (n : Z) (entropy : option (list Z)) : Z :=
  if n <=? 0 then 0
  else
    match entropy with
    | None => 0
    | Some buf => BigEndian_Uint64 buf mod n
    end.

Section Backoff.

Variable indefinite : float -> Z.
(** [math.Pow], of Go's library. *)
Variable math_Pow : float -> float -> float.

(** [time.Duration(float64(initialBackoff) * math.Pow(multiplier,
    float64(attempt)))]. *)
Definition scaled_backoff (attempt : Z) (initialBackoff : Z) (multiplier : float) : Z :=
  Float64.to_int64 indefinite
    (PrimFloat.mul (Float64.of_Z initialBackoff)
       (math_Pow multiplier (Float64.of_Z attempt))).

(** The capped value, [backoff] after the [if]. *)
Definition capped_backoff (attempt : Z) (initialBackoff maxBackoff : Z)
    (multiplier : float) : Z :=
  let backoff := scaled_backoff attempt initialBackoff multiplier in
  if backoff >? maxBackoff then maxBackoff else backoff.

Definition CalculateBackoff (attempt : Z) (initialBackoff maxBackoff : Z)
    (multiplier : float) (entropy : option (list Z)) : Z :=
  let backoff := capped_backoff attempt initialBackoff maxBackoff multiplier in
  let halfBackoff := Z.quot backoff 2 in
  let jitter := secureRandomInt64n (halfBackoff + 1) entropy in
  halfBackoff + jitter.

End Backoff.

(** *** Vocabulary for the properties of the retrier *)

(** The send of iteration [j] fails with an error classified retryable. *)
Definition retryable_failure (env : SendEnv) (j : nat) : Prop :=
  exists e, sendReply env j = Some e /\ IsRetryableError (Some e) = true.

(** Every iteration before [k] fails with a retryable error. *)
Definition retried_until (env : SendEnv) (k : nat) : Prop :=
  forall j, (j < k)%nat -> retryable_failure env j.

(** No wait up to the one that precedes iteration [k] is cancelled. *)
Definition uninterrupted (env : SendEnv) (k : nat) : Prop :=
  forall j, (0 < j <= k)%nat -> ctxDone env j = None.

(** The error the loop holds after [k] failed iterations from [attempt]. *)
Definition held_error (env : SendEnv) (lastErr : option error) (attempt k : nat)
    : option error :=
  match k with
  | O => lastErr
  | S k' => sendReply env (attempt + k')
  end.

(** A power function for whole exponents, by repeated multiplication: one
    function that [math.Pow] agrees with on [(2, 0)] and [(2, 10)]. *)
Fixpoint pow_iter (x : float) (n : nat) : float :=
  match n with
  | O => 1%float
  | S n' => PrimFloat.mul x (pow_iter x n')
  end.

Definition Pow_whole (x y : float) : float :=
  match Float64.truncate y with
  | Some n => pow_iter x (Z.to_nat n)
  | None => PrimFloat.nan
  end.

End Retry.

(** ** The receipt waiter of pkg/txutil *)

Module Receipt.

(** [n++] on an [int]. *)
Definition int_incr (z : Z) : Z := (z + 1 + 2 ^ 63) mod 2 ^ 64 - 2 ^ 63.

(** [types.Receipt], the fields the waiter reads. *)
Record Receipt : Type := mkReceipt {
  Status : Z;
  BlockNumber : Z
}.

Definition ReceiptStatusSuccessful : Z := 1.

Record ReceiptWaitConfig : Type := mkReceiptWaitConfig {
  Timeout : Z;
  PollInterval : Z;
  MaxConsecutiveErrors : Z
}.

Definition DefaultReceiptWaitConfig : ReceiptWaitConfig :=
  {| Timeout := 5 * (60 * Retry.second);
     PollInterval := Retry.second;
     MaxConsecutiveErrors := 5 |}.

(** One turn of the [select]: either [ctx.Done()] fires, [ctxErr] being
    [ctx.Err()], or the ticker fires and [client.TransactionReceipt]
    answers [reply]. The timeout and the poll interval decide when these
    happen, not what the loop does with them. *)
Inductive PollEvent : Type :=
| Done (ctxErr : error)
| Tick (reply : Result Receipt).

(** The loop's variables. *)
Record Polling : Type := mkPolling {
  consecutiveErrors : Z;
  pollCount : Z;
  lastErr : option error
}.

(** After some turns the loop is still running, or it has returned
    [(receipt, err)]. *)
Inductive Progress : Type :=
| Continue (st : Polling)
| Return (receipt : option Receipt) (err : option error).

(** [fmt.Errorf("%w after %d polls: %v", ErrReceiptTimeout, pollCount, ctx.Err())] *)
Definition timeout_error (polls : Z) (ctxErr : error) : error :=
  fmt_Errorf "" (Sentinel ErrReceiptTimeout)
    (" after " +:+ pretty polls +:+ " polls: " +:+ Error ctxErr).

(** [fmt.Errorf("%w: %d consecutive errors after %d polls, last error: %v",
    ErrReceiptRPCFailure, consecutiveErrors, pollCount, lastErr)] *)
Definition rpc_failure_error (consecutive polls : Z) (last : error) : error :=
  fmt_Errorf "" (Sentinel ErrReceiptRPCFailure)
    (": " +:+ pretty consecutive +:+ " consecutive errors after " +:+
     pretty polls +:+ " polls, last error: " +:+ Error last).

(** [fmt.Errorf("transaction failed with status %d", receipt.Status)] *)
Definition status_error (status : Z) : error :=
  errors_New ("transaction failed with status " +:+ pretty status).

(** The body of the [for] loop of [WaitForReceiptWithConfig]. *)
Definition poll (maxErrors : Z) (st : Polling) (ev : PollEvent) : Progress :=
  match ev with
  | Done ctxErr => Return None (Some (timeout_error (pollCount st) ctxErr))
  | Tick reply =>
      let polls := int_incr (pollCount st) in
      match reply with
      | Err err =>
          if errors_Is err ethereum_NotFound then
            Continue {| consecutiveErrors := 0; pollCount := polls; lastErr := lastErr st |}
          else
            let consecutive := int_incr (consecutiveErrors st) in
            if consecutive >=? maxErrors then
              Return None (Some (rpc_failure_error consecutive polls err))
            else
              Continue {| consecutiveErrors := consecutive; pollCount := polls;
                          lastErr := Some err |}
      | Ok receipt =>
          if negb (Status receipt =? ReceiptStatusSuccessful) then
            Return (Some receipt) (Some (status_error (Status receipt)))
          else Return (Some receipt) None
      end
  end.

(** The loop over the turns that happened; [Continue] when it is still
    waiting after them. *)
Fixpoint poll_loop (maxErrors : Z) (st : Polling) (evs : list PollEvent) : Progress :=
  match evs with
  | [] => Continue st
  | ev :: evs' =>
      match poll maxErrors st ev with
      | Continue st' => poll_loop maxErrors st' evs'
      | Return receipt err => Return receipt err
      end
  end.

Definition effective_pollInterval (config : ReceiptWaitConfig) : Z :=
  if PollInterval config =? 0 then Retry.second else PollInterval config.

Definition effective_maxErrors (config : ReceiptWaitConfig) : Z :=
  if MaxConsecutiveErrors config =? 0 then 5 else MaxConsecutiveErrors config.

(** [WaitForReceiptWithConfig], from its loop on. The ticker is made by
    [time.NewTicker(pollInterval)], which panics for a non-positive
    interval: the loop is reached when [0 < effective_pollInterval
    config]. *)
Definition WaitForReceiptWithConfig (config : ReceiptWaitConfig)
    (evs : list PollEvent) : Progress :=
  poll_loop (effective_maxErrors config)
    {| consecutiveErrors := 0; pollCount := 0; lastErr := None |} evs.

Definition WaitForReceipt (timeout : Z) (evs : list PollEvent) : Progress :=
  let config :=
    if timeout >? 0 then
      {| Timeout := timeout;
         PollInterval := PollInterval DefaultReceiptWaitConfig;
         MaxConsecutiveErrors := MaxConsecutiveErrors DefaultReceiptWaitConfig |}
    else DefaultReceiptWaitConfig in
  WaitForReceiptWithConfig config evs.

(** *** Vocabulary for the properties of the waiter *)

(** A reply that is an RPC error other than "not found". *)
Definition rpc_error (ev : PollEvent) : bool :=
  match ev with
  | Tick (Err err) => negb (errors_Is err ethereum_NotFound)
  | _ => false
  end.

(** A reply that is the "not found" error. *)
Definition not_found (ev : PollEvent) : bool :=
  match ev with
  | Tick (Err err) => errors_Is err ethereum_NotFound
  | _ => false
  end.

(** The length of the run of RPC errors a list of turns starts with. *)
Fixpoint leading_errors (evs : list PollEvent) : nat :=
  match evs with
  | ev :: evs' => if rpc_error ev then S (leading_errors evs') else O
  | [] => O
  end.

(** The length of the run of RPC errors a list of turns ends with. *)
Definition trailing_errors (evs : list PollEvent) : nat :=
  leading_errors (rev evs).

(** [evs] has [n] RPC errors in a row somewhere. *)
Definition has_streak (n : nat) (evs : list PollEvent) : Prop :=
  exists before streak after,
    evs = before ++ streak ++ after /\ length streak = n /\
    forallb rpc_error streak = true.

(** The wait ended with the RPC-failure error. *)
Definition rpc_unavailable (p : Progress) : bool :=
  match p with
  | Return _ (Some err) => errors_Is err ErrReceiptRPCFailure
  | _ => false
  end.

End Receipt.

(** ** pkg/txutil/gas.go *)

Module Gas.

(** A call that went out to the RPC node. *)
Inductive RPC : Type :=
| RPC_EstimateGas
| RPC_ChainID.

(** [int64(x)] of a [uint64]. *)
Definition int64_of_uint64 (z : Z) : Z :=
  if z <? 2 ^ 63 then z else z - 2 ^ 64.

(** [x.Uint64()] of a [big.Int]: the low 64 bits of its magnitude. *)
Definition big_Uint64 (z : Z) : Z := Z.abs z mod 2 ^ 64.

(** [EstimateGasWithBuffer]; [estimate] is the answer of
    [client.EstimateGas]. Returns the pair and the RPC calls made. *)
Definition EstimateGasWithBuffer (bufferPercent : Z) (estimate : Result Z)
    : Result Z * list RPC :=
  if (bufferPercent <? 0) || (bufferPercent >? 100) then
    (Err (errors_New "buffer percent must be between 0 and 100"), [])
  else
    match estimate with
    | Err err => (Err (fmt_Errorf "failed to estimate gas: " err ""), [RPC_EstimateGas])
    | Ok gasLimit =>
        if bufferPercent >? 0 then
          let buffer := int64_of_uint64 gasLimit * bufferPercent in
          let buffer := buffer / 100 in
          (Ok ((gasLimit + big_Uint64 buffer) mod 2 ^ 64), [RPC_EstimateGas])
        else (Ok gasLimit, [RPC_EstimateGas])
    end.

End Gas.

(** ** pdp/manager.go *)

Module Manager.

Import Nonce.

(** [constants.Network] and the tables of [constants]. *)
Definition NetworkMainnet : string := "mainnet".
Definition NetworkCalibration : string := "calibration".
Definition ChainIDMainnet : Z := 314.
Definition ChainIDCalibration : Z := 314159.

Definition NetworkChainIDs : gmap string Z :=
  {[ NetworkMainnet := ChainIDMainnet; NetworkCalibration := ChainIDCalibration ]}.

(** [ExpectedChainID]: the [(chainID, ok)] of the map lookup. *)
Definition ExpectedChainID (network : string) : option Z :=
  NetworkChainIDs !! network.

(** A [common.Address] is its 160-bit number; the zero address is [0]. *)
Definition PDPVerifierMainnet : Z := 0xBADd0B92C1c71d02E7d520f64c0876538fa2557F.
Definition PDPVerifierCalibration : Z := 0x85e366Cf9DD2c0aE37E963d9556F5f4718d6417C.

Definition PDPVerifierAddresses : gmap string Z :=
  {[ NetworkMainnet := PDPVerifierMainnet; NetworkCalibration := PDPVerifierCalibration ]}.

Definition GetPDPVerifierAddress (network : string) : Z :=
  match PDPVerifierAddresses !! network with
  | Some addr => addr
  | None => 0
  end.

(** Modelled from the spec: the declaration of [ManagerConfig] is not
    among the sources. These are the two fields [manager.go] reads: the
    gas buffer percentage, "validated to lie in [0, 100]", and the
    contract address override. *)
Record ManagerConfig : Type := mkManagerConfig {
  GasBufferPercent : Z;
  ContractAddress : Z
}.

(** [x.Int64()] of a [big.Int]. *)
Definition big_Int64 (z : Z) : Z :=
  let low := Gas.int64_of_uint64 (Z.abs z mod 2 ^ 64) in
  if z <? 0 then Gas.int64_of_uint64 ((- low) mod 2 ^ 64) else low.

Record Manager : Type := mkManager {
  address : Z;
  contractAddr : Z;
  chainID : Z;
  nonceManager : NonceManager;
  config : ManagerConfig
}.

(** What the constructor is given besides the configuration: the signer
    ([None] is [nil], otherwise its address), what [client.ChainID]
    answers, and whether binding the contract fails. *)
Record NewManagerEnv : Type := mkNewManagerEnv {
  signer : option Z;
  chainIDReply : Result Z;
  bindReply : option error
}.

(** [fmt.Errorf("gas buffer percent must be between 0 and 100, got %d", p)] *)
Definition gas_buffer_error (p : Z) : error :=
  errors_New ("gas buffer percent must be between 0 and 100, got " +:+ pretty p).

Section Constructor.

(** [DefaultManagerConfig()], declared outside the sources at hand. *)
Variable DefaultManagerConfig : ManagerConfig.

(** [NewManagerWithConfig]: the returned pair and the RPC calls made, in
    order. *)
Definition NewManagerWithConfig (env : NewManagerEnv) (network : string)
    (config : option ManagerConfig) : Result Manager * list Gas.RPC :=
  match signer env with
  | None => (Err (errors_New "signer is required"), [])
  | Some signerAddress =>
      match ExpectedChainID network with
      | None => (Err (errors_New ("unknown network: " +:+ network)), [])
      | Some expectedChainID =>
          match chainIDReply env with
          | Err err =>
              (Err (fmt_Errorf "failed to get chain ID: " err ""), [Gas.RPC_ChainID])
          | Ok chainID =>
              if negb (big_Int64 chainID =? expectedChainID) then
                (Err (errors_New
                        ("chain ID mismatch: RPC returned " +:+ pretty (big_Int64 chainID)
                         +:+ " but network " +:+ network +:+ " expects "
                         +:+ pretty expectedChainID)),
                 [Gas.RPC_ChainID])
              else
                let config :=
                  match config with
                  | None => DefaultManagerConfig
                  | Some cfg => cfg
                  end in
                if (GasBufferPercent config <? 0) || (GasBufferPercent config >? 100) then
                  (Err (gas_buffer_error (GasBufferPercent config)), [Gas.RPC_ChainID])
                else
                  let contractAddr :=
                    if ContractAddress config =? 0 then GetPDPVerifierAddress network
                    else ContractAddress config in
                  if contractAddr =? 0 then
                    (Err (errors_New ("no PDPVerifier address for network " +:+ network)),
                     [Gas.RPC_ChainID])
                  else
                    match bindReply env with
                    | Some err =>
                        (Err (fmt_Errorf "failed to create contract instance: " err ""),
                         [Gas.RPC_ChainID])
                    | None =>
                        (Ok {| address := signerAddress;
                               contractAddr := contractAddr;
                               chainID := chainID;
                               nonceManager := NewNonceManager;
                               config := config |},
                         [Gas.RPC_ChainID])
                    end
          end
      end
  end.

End Constructor.

(** *** The nonce-consuming operations *)

(** What an operation did, in order: its calls on the nonce manager and on
    its collaborators, each with what came back. *)
Inductive Event : Type :=
| EGetProofSet (r : Result Z)
| EGetNonce (r : Result Z)
| ESignerFunc (r : option error)
| EEstimate (r : Result Z)
| ESend (gasLimit : option Z) (r : Result Z)
| EWaitForReceipt (r : Receipt.Progress)
| EMarkConfirmed (n : Z)
| EExtract
| EMarkFailed (n : Z).

(** What the collaborators answer during one operation: the pending-nonce
    query (if [GetNonce] asks), [signer.SignerFunc], the contract call with
    [NoSend] (the gas of the unsent transaction), the real contract call
    given the gas limit (the hash of the sent transaction), and the turns
    of the receipt wait. *)
Record OpEnv : Type := mkOpEnv {
  pendingNonceAt : Result Z;
  signerFunc : option error;
  estimate : Result Z;
  send : option Z -> Result Z;
  polls : list Receipt.PollEvent
}.

(** An operation that returned: the nonce manager it leaves, what it did,
    and what it returned. *)
Record Exit (A : Type) : Type := mkExit {
  after : NonceManager;
  trace : list Event;
  result : A
}.
Arguments mkExit {A} _ _ _.
Arguments after {A} _.
Arguments trace {A} _.
Arguments result {A} _.

(** The return of an operation past its [defer]: the deferred function
    runs with the value [txSent] has at that point. *)
Definition deferred_return {A : Type} (nm : NonceManager) (events : list Event)
    (n : Z) (txSent : bool) (ret : A) : option (Exit A) :=
  if negb txSent then
    Some (mkExit (MarkFailed nm n) (events ++ [EMarkFailed n]) ret)
  else Some (mkExit nm events ret).

(** [m.newTransactor]: fails when the signer gives no signing function. *)
Definition newTransactor (env : OpEnv) : option error :=
  match signerFunc env with
  | Some err => Some (fmt_Errorf "failed to create signer: " err "")
  | None => None
  end.

Record ProofSetResult : Type := mkProofSetResult {
  ProofSetID : Z;
  TransactionHash : Z;
  ProofSetReceipt : Receipt.Receipt
}.

Record AddRootsResult : Type := mkAddRootsResult {
  AddRootsTransactionHash : Z;
  AddRootsReceipt : Receipt.Receipt;
  RootsAdded : nat;
  PieceIDs : list Z
}.

Section Operations.

Variable indefinite : float -> Z.

(** [uint64(float64(gas) * (1.0 + float64(percent) / 100.0))] *)
Definition buffered_gas (percent gas : Z) : Z :=
  let bufferMultiplier := PrimFloat.add 1 (PrimFloat.div (Float64.of_Z percent) 100) in
  Float64.to_uint64 indefinite (PrimFloat.mul (Float64.of_Z gas) bufferMultiplier).

(** [txutil.DefaultRetryConfig().MaxBackoff*3] *)
Definition receipt_timeout : Z := Retry.MaxBackoff Retry.DefaultRetryConfig * 3.

(** The part the three operations share after the transaction was sent:
    wait for the receipt, confirm the nonce, build the result. [None] when
    the wait has not returned within the turns given. *)
Definition await_receipt {A : Type} (env : OpEnv) (nm : NonceManager)
    (events : list Event) (n : Z) (fail : error -> A)
    (finish : Receipt.Receipt -> A) : option (Exit A) :=
  let waited := Receipt.WaitForReceipt receipt_timeout (polls env) in
  let events := events ++ [EWaitForReceipt waited] in
  match waited with
  | Receipt.Continue _ => None
  | Receipt.Return _ (Some err) =>
      deferred_return nm events n true
        (fail (fmt_Errorf "failed to wait for receipt: " err ""))
  | Receipt.Return None None =>
      (* not a return of the waiter: it never returns [(nil, nil)] *)
      None
  | Receipt.Return (Some receipt) None =>
      let nm := MarkConfirmed nm n in
      let events := events ++ [EMarkConfirmed n; EExtract] in
      deferred_return nm events n true (finish receipt)
  end.

(** [CreateProofSet]; [extract] is [extractProofSetIDFromReceipt]. *)
Definition CreateProofSet (m : Manager) (env : OpEnv)
    (extract : Receipt.Receipt -> option Z) : option (Exit (Result ProofSetResult)) :=
  match GetNonce (nonceManager m) (pendingNonceAt env) with
  | (nm, Err err) =>
      Some (mkExit nm [EGetNonce (Err err)]
              (Err (fmt_Errorf "failed to get nonce: " err "")))
  | (nm, Ok n) =>
      let events := [EGetNonce (Ok n)] in
      let events := events ++ [ESignerFunc (signerFunc env)] in
      match newTransactor env with
      | Some err => deferred_return nm events n false (Err err)
      | None =>
          let events := events ++ [EEstimate (estimate env)] in
          match estimate env with
          | Err err =>
              deferred_return nm events n false
                (Err (fmt_Errorf "failed to estimate gas for createDataSet: " err ""))
          | Ok gas =>
              let gasLimit := Some (buffered_gas (GasBufferPercent (config m)) gas) in
              let events := events ++ [ESend gasLimit (send env gasLimit)] in
              match send env gasLimit with
              | Err err =>
                  deferred_return nm events n false
                    (Err (fmt_Errorf "failed to create data set: " err ""))
              | Ok txHash =>
                  await_receipt env nm events n Err
                    (fun receipt =>
                       match extract receipt with
                       | None =>
                           Err (fmt_Errorf "failed to extract proof set ID: "
                                  (errors_New "DataSetCreated event not found in receipt") "")
                       | Some proofSetID =>
                           Ok {| ProofSetID := proofSetID;
                                 TransactionHash := txHash;
                                 ProofSetReceipt := receipt |}
                       end)
              end
          end
      end
  end.

(** [AddRoots]; [roots] is the number of roots given, [getProofSet] what
    [m.GetProofSet] returns (the listener), [extract] is
    [extractPieceIDsFromReceipt]. *)
Definition AddRoots (m : Manager) (env : OpEnv) (roots : nat)
    (getProofSet : Result Z) (extract : Receipt.Receipt -> option (list Z))
    : option (Exit (Result AddRootsResult)) :=
  if (roots =? 0)%nat then
    Some (mkExit (nonceManager m) [] (Err (errors_New "no roots provided")))
  else
    match getProofSet with
    | Err err =>
        Some (mkExit (nonceManager m) [EGetProofSet (Err err)]
                (Err (fmt_Errorf "failed to get proof set: " err "")))
    | Ok listenerAddr =>
        match GetNonce (nonceManager m) (pendingNonceAt env) with
        | (nm, Err err) =>
            Some (mkExit nm [EGetProofSet (Ok listenerAddr); EGetNonce (Err err)]
                    (Err (fmt_Errorf "failed to get nonce: " err "")))
        | (nm, Ok n) =>
            let events := [EGetProofSet (Ok listenerAddr); EGetNonce (Ok n)] in
            let events := events ++ [ESignerFunc (signerFunc env)] in
            match newTransactor env with
            | Some err => deferred_return nm events n false (Err err)
            | None =>
                let events := events ++ [EEstimate (estimate env)] in
                match estimate env with
                | Err err =>
                    deferred_return nm events n false
                      (Err (fmt_Errorf "failed to estimate gas for addPieces: " err ""))
                | Ok gas =>
                    let gasLimit := Some (buffered_gas (GasBufferPercent (config m)) gas) in
                    let events := events ++ [ESend gasLimit (send env gasLimit)] in
                    match send env gasLimit with
                    | Err err =>
                        deferred_return nm events n false
                          (Err (fmt_Errorf "failed to add pieces: " err ""))
                    | Ok txHash =>
                        await_receipt env nm events n Err
                          (fun receipt =>
                             match extract receipt with
                             | None =>
                                 Err (fmt_Errorf "failed to extract piece IDs: "
                                        (errors_New "PiecesAdded event not found in receipt") "")
                             | Some pieceIDs =>
                                 Ok {| AddRootsTransactionHash := txHash;
                                       AddRootsReceipt := receipt;
                                       RootsAdded := roots;
                                       PieceIDs := pieceIDs |}
                             end)
                    end
                end
            end
        end
    end.

(** [DeleteProofSet]: no estimate, the transaction is sent with the gas
    limit unset. It returns an [error]. *)
Definition DeleteProofSet (m : Manager) (env : OpEnv) : option (Exit (option error)) :=
  match GetNonce (nonceManager m) (pendingNonceAt env) with
  | (nm, Err err) =>
      Some (mkExit nm [EGetNonce (Err err)]
              (Some (fmt_Errorf "failed to get nonce: " err "")))
  | (nm, Ok n) =>
      let events := [EGetNonce (Ok n)] in
      let events := events ++ [ESignerFunc (signerFunc env)] in
      match newTransactor env with
      | Some err => deferred_return nm events n false (Some err)
      | None =>
          let events := events ++ [ESend None (send env None)] in
          match send env None with
          | Err err =>
              deferred_return nm events n false
                (Some (fmt_Errorf "failed to delete data set: " err ""))
          | Ok txHash =>
              await_receipt env nm events n Some (fun _ => None)
          end
      end
  end.

End Operations.

(** *** Vocabulary for the properties of the operations *)

(** The transmission returned without error. *)
Definition is_sent (e : Event) : bool :=
  match e with ESend _ (Ok _) => true | _ => false end.

(** The receipt wait returned an error. *)
Definition is_wait_failure (e : Event) : bool :=
  match e with EWaitForReceipt (Receipt.Return _ (Some _)) => true | _ => false end.

(** The call [MarkFailed(n)]. *)
Definition is_MarkFailed (n : Z) (e : Event) : bool :=
  match e with EMarkFailed k => bool_decide (k = n) | _ => false end.

Definition is_any_MarkFailed (e : Event) : bool :=
  match e with EMarkFailed _ => true | _ => false end.

(** The operation got a nonce. *)
Definition is_allocation (e : Event) : bool :=
  match e with EGetNonce (Ok _) => true | _ => false end.

(** How often [MarkFailed(n)] was called. *)
Definition count_MarkFailed (n : Z) (events : list Event) : nat :=
  length (List.filter (is_MarkFailed n) events).

(** The fate of the nonce in an operation that returned as [x], started
    with the nonce manager [nm0] while the network would answer [net] to
    the pending-nonce query. If the operation got the nonce [n], leaving
    the manager as [nm1]:
    - on a return before the transmission returned successfully,
      [MarkFailed(n)] was called exactly once, and the manager is left as
      that call leaves [nm1];
    - on a return after the transmission returned successfully and the
      receipt wait failed, [MarkFailed] was not called, the manager is
      still [nm1], [n] is in the in-flight map, and it is not in the pool
      (the pool having held no value twice). *)
Definition nonce_lifecycle {A : Type} (nm0 : NonceManager) (net : Result Z)
    (x : Exit A) : Prop :=
  forall nm1 n,
    GetNonce nm0 net = (nm1, Ok n) ->
    existsb is_allocation (trace x) = true ->
    (existsb is_sent (trace x) = false ->
     count_MarkFailed n (trace x) = 1%nat /\ after x = MarkFailed nm1 n) /\
    (existsb is_sent (trace x) = true ->
     existsb is_wait_failure (trace x) = true ->
     existsb is_any_MarkFailed (trace x) = false /\
     after x = nm1 /\
     pendingTxs (after x) !! n = Some true /\
     (NoDup (reclaimable nm0) -> n ∉ reclaimable (after x))).

(** The receipt wait returned a receipt and no error. *)
Definition is_wait_success (e : Event) : bool :=
  match e with EWaitForReceipt (Receipt.Return (Some _) None) => true | _ => false end.

(** The call [MarkConfirmed(n)]. *)
Definition is_MarkConfirmed (n : Z) (e : Event) : bool :=
  match e with EMarkConfirmed k => bool_decide (k = n) | _ => false end.

Definition is_any_MarkConfirmed (e : Event) : bool :=
  match e with EMarkConfirmed _ => true | _ => false end.

(** How often [MarkConfirmed(n)] was called. *)
Definition count_MarkConfirmed (n : Z) (events : list Event) : nat :=
  length (List.filter (is_MarkConfirmed n) events).

(** The confirmation of the nonce in an operation that returned as [x],
    started with the nonce manager [nm0] while the network would answer
    [net] to the pending-nonce query:
    - when the receipt wait returned a receipt and no error, the operation
      having got the nonce [n] and left the manager as [nm1],
      [MarkConfirmed(n)] was called exactly once and [MarkFailed] not at
      all, the manager is left as that call leaves [nm1], and [n] is no
      longer in the in-flight map;
    - otherwise [MarkConfirmed] was not called. *)
Definition nonce_confirmation {A : Type} (nm0 : NonceManager) (net : Result Z)
    (x : Exit A) : Prop :=
  (existsb is_wait_success (trace x) = true ->
   exists nm1 n,
     GetNonce nm0 net = (nm1, Ok n) /\
     count_MarkConfirmed n (trace x) = 1%nat /\
     existsb is_any_MarkFailed (trace x) = false /\
     after x = MarkConfirmed nm1 n /\
     pendingTxs (after x) !! n = None) /\
  (existsb is_wait_success (trace x) = false ->
   existsb is_any_MarkConfirmed (trace x) = false).

(** A percentage outside [[0, 100]]. *)
Definition out_of_range (percent : Z) : Prop := percent < 0 \/ 100 < percent.

End Manager.

(** ** The confirmation waiter of pkg/txutil *)

Module Confirm.

Import Receipt.

(** One turn of the [select] of [WaitForConfirmation]: [ctx.Done()] fires,
    or the ticker fires, [client.TransactionReceipt] answers [reply] and
    [client.BlockNumber], if the turn gets to ask, answers [head]. *)
Inductive Turn : Type :=
| Cancelled (ctxErr : error)
| Ticked (reply : Result Receipt) (head : Result Z).

(** [fmt.Errorf("%w: %d consecutive errors, last error: %v",
    ErrReceiptRPCFailure, consecutiveErrors, lastErr)] *)
Definition rpc_failure_error (consecutive : Z) (last : error) : error :=
  fmt_Errorf "" (Sentinel ErrReceiptRPCFailure)
    (": " +:+ pretty consecutive +:+ " consecutive errors, last error: " +:+ Error last).

(** The two places that count an RPC error against the fixed threshold
    of 5. *)
Definition count_error (st : Polling) (polls : Z) (err : error) : Progress :=
  let consecutive := int_incr (consecutiveErrors st) in
  if consecutive >=? 5 then
    Return None (Some (rpc_failure_error consecutive err))
  else
    Continue {| consecutiveErrors := consecutive; pollCount := polls;
                lastErr := Some err |}.

(** The body of the [for] loop of [WaitForConfirmation]. *)
Definition confirm_turn (confirmations : Z) (st : Polling) (t : Turn) : Progress :=
  match t with
  | Cancelled ctxErr => Return None (Some ctxErr)
  | Ticked reply head =>
      let polls := int_incr (pollCount st) in
      match reply with
      | Err err =>
          if errors_Is err ethereum_NotFound then
            Continue {| consecutiveErrors := 0; pollCount := polls; lastErr := lastErr st |}
          else count_error st polls err
      | Ok receipt =>
          let st := {| consecutiveErrors := 0; pollCount := polls; lastErr := lastErr st |} in
          if negb (Status receipt =? ReceiptStatusSuccessful) then
            Return (Some receipt) (Some (status_error (Status receipt)))
          else if confirmations =? 0 then Return (Some receipt) None
          else
            match head with
            | Err err => count_error st polls err
            | Ok currentBlock =>
                let st := {| consecutiveErrors := 0; pollCount := polls;
                             lastErr := lastErr st |} in
                if (Gas.big_Uint64 (BlockNumber receipt) + confirmations) mod 2 ^ 64
                   <=? currentBlock
                then Return (Some receipt) None
                else Continue st
            end
      end
  end.

Fixpoint confirm_loop (confirmations : Z) (st : Polling) (turns : list Turn) : Progress :=
  match turns with
  | [] => Continue st
  | t :: turns' =>
      match confirm_turn confirmations st t with
      | Continue st' => confirm_loop confirmations st' turns'
      | Return receipt err => Return receipt err
      end
  end.

(** [WaitForConfirmation]; [Continue] when it is still waiting after the
    turns given. *)
Definition WaitForConfirmation (confirmations : Z) (turns : list Turn) : Progress :=
  confirm_loop confirmations
    {| consecutiveErrors := 0; pollCount := 0; lastErr := None |} turns.

(** [WaitForTransactionWithRetry]: send with retries, then wait for the
    confirmations. [None] when the wait has not returned within the turns
    given. *)
Definition WaitForTransactionWithRetry (indefinite : float -> Z) (env : Retry.SendEnv)
    (tx : Retry.Transaction) (confirmations : Z) (config : Retry.RetryConfig)
    (turns : list Turn) : option (Result Receipt) :=
  match Retry.returned (Retry.SendTransactionWithRetry indefinite env tx config) with
  | Err err => Some (Err (fmt_Errorf "failed to send transaction: " err ""))
  | Ok txHash =>
      match WaitForConfirmation confirmations turns with
      | Continue _ => None
      | Return _ (Some err) =>
          Some (Err (fmt_Errorf "failed to wait for confirmation: " err ""))
      | Return (Some receipt) None => Some (Ok receipt)
      | Return None None =>
          (* not a return of the waiter: it never returns [(nil, nil)] *)
          None
      end
  end.

(** *** Vocabulary for the properties of the confirmation waiter *)

(** A turn in which the receipt query answered a receipt. *)
Definition receipt_seen (t : Turn) : bool :=
  match t with Ticked (Ok _) _ => true | _ => false end.

(** The turn is [receipt]'s, successful, and deep enough for
    [confirmations]. *)
Definition confirms (confirmations : Z) (receipt : Receipt) (t : Turn) : Prop :=
  exists head,
    t = Ticked (Ok receipt) head /\
    Status receipt = ReceiptStatusSuccessful /\
    (confirmations = 0 \/
     exists currentBlock,
       head = Ok currentBlock /\
       (Gas.big_Uint64 (BlockNumber receipt) + confirmations) mod 2 ^ 64 <= currentBlock).

(** A turn whose receipt query answered a successful receipt and whose
    block-number query failed. *)
Definition head_failure (t : Turn) : bool :=
  match t with
  | Ticked (Ok receipt) (Err _) => Status receipt =? ReceiptStatusSuccessful
  | _ => false
  end.

End Confirm.

(** ** internal/retry/backoff.go *)

Module GenericRetry.

Record Config : Type := mkConfig {
  MaxRetries : Z;
  InitialInterval : Z;
  MaxInterval : Z;
  Multiplier : float
}.

Definition DefaultConfig : Config :=
  {| MaxRetries := 10;
     InitialInterval := 1 * Retry.second;
     MaxInterval := 30 * Retry.second;
     Multiplier := 1.5%float |}.

(** What [Do] meets while it runs: [ctxErr k] is what [ctx.Err()] returns
    at the top of iteration [k], [fnReply k] what the call of [fn] in
    iteration [k] returns, and [ctxDone k] is [Some err] when [ctx.Done()]
    wins the [select] after iteration [k], with [err = ctx.Err()]. *)
Record DoEnv : Type := mkDoEnv {
  ctxErr : nat -> option error;
  fnReply : nat -> option error;
  ctxDone : nat -> option error
}.

(** What a run of [Do] did: the error returned, the number of calls of
    [fn], and the durations it slept. *)
Record DoRun : Type := mkDoRun {
  returned : option error;
  fnCalls : nat;
  slept : list Z
}.

Section Do.

Variable indefinite : float -> Z.
Variable env : DoEnv.
Variable cfg : Config.

Definition next_interval (interval : Z) : Z :=
  let grown :=
    Float64.to_int64 indefinite
      (PrimFloat.mul (Float64.of_Z interval) (Multiplier cfg)) in
  if grown >? MaxInterval cfg then MaxInterval cfg else grown.

(** The [for] loop of [Do], with [remaining] iterations to go. The last
    iteration is the one with [remaining = 1]: there [attempt ==
    cfg.MaxRetries] and the loop breaks before the wait. *)
Fixpoint do_loop (remaining : nat) (attempt : nat) (interval : Z)
    (lastErr : option error) (calls : nat) (naps : list Z) : DoRun :=
  match remaining with
  | O => {| returned := lastErr; fnCalls := calls; slept := naps |}
  | S remaining' =>
      match ctxErr env attempt with
      | Some err => {| returned := Some err; fnCalls := calls; slept := naps |}
      | None =>
          match fnReply env attempt with
          | None => {| returned := None; fnCalls := S calls; slept := naps |}
          | Some err =>
              match remaining' with
              | O => {| returned := Some err; fnCalls := S calls; slept := naps |}
              | S _ =>
                  match ctxDone env attempt with
                  | Some cerr =>
                      {| returned := Some cerr; fnCalls := S calls; slept := naps |}
                  | None =>
                      do_loop remaining' (S attempt) (next_interval interval)
                        (Some err) (S calls) (naps ++ [interval])
                  end
              end
          end
      end
  end.

(** [Do]. The loop runs for [attempt = 0 .. MaxRetries]. *)
Definition Do : DoRun :=
  do_loop (Z.to_nat (MaxRetries cfg + 1)) 0 (InitialInterval cfg) None 0 [].

End Do.

(** One turn of the [select] of [Poll]. *)
Inductive PollTurn : Type :=
| PollCancelled (ctxErr : error)
| PollTick.

(** [Poll] after some turns: still polling, or returned. Either way with
    the number of calls of [fn] made. *)
Inductive PollProgress : Type :=
| Polling (calls : nat)
| Returned (err : option error) (calls : nat).

(** A call of [Poll] panics before anything else, or runs. *)
Inductive PollRun : Type :=
| PollPanics
| PollRuns (p : PollProgress).

Section Poll.

(** [fn k] is what the [k]-th call of [fn] returns: [(done, err)]. *)
Variable fn : nat -> bool * option error.

(** One call of [fn] and what [Poll] makes of it. *)
Definition ask (calls : nat) : PollProgress :=
  match fn calls with
  | (_, Some err) => Returned (Some err) (S calls)
  | (true, None) => Returned None (S calls)
  | (false, None) => Polling (S calls)
  end.

Fixpoint poll_turns (calls : nat) (turns : list PollTurn) : PollProgress :=
  match turns with
  | [] => Polling calls
  | PollCancelled ctxErr :: _ => Returned (Some ctxErr) calls
  | PollTick :: turns' =>
      match ask calls with
      | Polling calls' => poll_turns calls' turns'
      | Returned err calls' => Returned err calls'
      end
  end.

(** [Poll]: the ticker is made first, and [time.NewTicker(interval)]
    panics for a non-positive interval; then [fn] is called once before
    the loop. ([timeout] decides when [ctx.Done()] fires, that is where
    the turn [PollCancelled] stands.) *)
Definition Poll (interval : Z) (turns : list PollTurn) : PollRun :=
  if interval <=? 0 then PollPanics
  else
    PollRuns
      match ask 0 with
      | Polling calls => poll_turns calls turns
      | Returned err calls => Returned err calls
      end.

End Poll.

End GenericRetry.

(** ** The read operations of pdp/manager.go *)

Module Reads.

Section GetRoots.

(** [cid.Cid] and [cid.Cast], of the go-cid library. *)
Variable Cid : Type.
Variable cid_Cast : list Z -> Result Cid.

(** What [contract.GetActivePieces] returns: the piece data, the piece
    ids (big integers) and the [HasMore] flag. *)
Record ActivePieces : Type := mkActivePieces {
  Pieces : list (list Z);
  PieceIds : list Z;
  HasMore : bool
}.

Record Root : Type := mkRoot {
  PieceCID : Cid;
  PieceID : Z
}.

(** [fmt.Errorf("failed to parse piece CID at index %d: %w", i, err)] *)
Definition parse_error (i : nat) (err : error) : error :=
  fmt_Errorf ("failed to parse piece CID at index " +:+ pretty i +:+ ": ") err "".

(** The [for i, piece := range result.Pieces] loop, from index [i] on. *)
Fixpoint convert_pieces (ids : list Z) (i : nat) (pieces : list (list Z))
    : Result (list Root) :=
  match pieces with
  | [] => Ok []
  | piece :: rest =>
      match cid_Cast piece with
      | Err err => Err (parse_error i err)
      | Ok c =>
          let pieceID :=
            match ids !! i with
            | Some id => Gas.big_Uint64 id
            | None => 0
            end in
          match convert_pieces ids (S i) rest with
          | Err err => Err err
          | Ok roots => Ok ({| PieceCID := c; PieceID := pieceID |} :: roots)
          end
      end
  end.

(** [GetRoots]; [getActivePieces] is the contract call, given the offset
    and the limit as it receives them ([big.NewInt(int64(offset))]). *)
Definition GetRoots (getActivePieces : Z -> Z -> Result ActivePieces)
    (offset limit : Z) : Result (list Root * bool) :=
  match getActivePieces (Gas.int64_of_uint64 offset) (Gas.int64_of_uint64 limit) with
  | Err err => Err (fmt_Errorf "failed to get active pieces: " err "")
  | Ok result =>
      match convert_pieces (PieceIds result) 0 (Pieces result) with
      | Err err => Err err
      | Ok roots => Ok (roots, HasMore result)
      end
  end.

End GetRoots.

End Reads.

(** ** network.go and the epoch functions of constants *)

Module Network.

Import Manager.

(** [fmt.Errorf("unsupported chain ID: %d (expected %d for mainnet or %d
    for calibration)", id, ChainIDMainnet, ChainIDCalibration)] *)
Definition unsupported_chain (id : Z) : error :=
  errors_New ("unsupported chain ID: " +:+ pretty id +:+ " (expected "
              +:+ pretty ChainIDMainnet +:+ " for mainnet or "
              +:+ pretty ChainIDCalibration +:+ " for calibration)").

(** [NetworkFromChainID]: the network and the chain id, or the error. *)
Definition NetworkFromChainID (chainID : Z) : Result (string * Z) :=
  let id := big_Int64 chainID in
  if id =? ChainIDMainnet then Ok (NetworkMainnet, id)
  else if id =? ChainIDCalibration then Ok (NetworkCalibration, id)
  else Err (unsupported_chain id).

(** [DetectNetwork]; [reply] is the answer of [client.ChainID]. *)
Definition DetectNetwork (reply : Result Z) : Result (string * Z) :=
  match reply with
  | Err err => Err (fmt_Errorf "failed to get chain ID: " err "")
  | Ok chainID => NetworkFromChainID chainID
  end.

(** [x] as an [int64] after an arithmetic operation: wrap-around. *)
Definition int64_wrap (z : Z) : Z := (z + 2 ^ 63) mod 2 ^ 64 - 2 ^ 63.

Definition GenesisTimestampsByChainID : gmap Z Z :=
  {[ ChainIDMainnet := 1598306400; ChainIDCalibration := 1667326380 ]}.

Definition EpochDurationSeconds : Z := 30.

(** A [time.Time] is its Unix time in seconds ([t.Unix()]); [time.Unix(s,
    0)] is [s]. The zero [time.Time{}] is January 1 of year 1. *)
Definition zero_Time : Z := -62135596800.

(** [CurrentEpoch]; [now] is [time.Now().Unix()]. *)
Definition CurrentEpoch (now : Z) (chainID : Z) : Z :=
  match GenesisTimestampsByChainID !! chainID with
  | None => 0
  | Some genesis => Z.quot (int64_wrap (now - genesis)) EpochDurationSeconds
  end.

Definition EpochToTime (chainID : Z) (epoch : Z) : Z :=
  match GenesisTimestampsByChainID !! chainID with
  | None => zero_Time
  | Some genesis =>
      let epochSeconds := int64_wrap (big_Int64 epoch * EpochDurationSeconds) in
      int64_wrap (genesis + epochSeconds)
  end.

Definition TimeToEpoch (chainID : Z) (t : Z) : Z :=
  match GenesisTimestampsByChainID !! chainID with
  | None => 0
  | Some genesis => Z.quot (int64_wrap (t - genesis)) EpochDurationSeconds
  end.

End Network.

(** ** The proof-set queries and the receipt logs of pdp/manager.go *)

Module ProofSets.

Record ProofSet : Type := mkProofSet {
  ID : Z;
  Listener : Z;
  StorageProvider : Z;
  LeafCount : Z;
  ActivePieces : Z;
  NextPieceID : Z;
  Live : bool
}.

(** The queries [GetProofSet] makes on the contract. *)
Inductive Query : Type :=
| QDataSetLive
| QGetDataSetListener
| QGetDataSetStorageProvider
| QGetDataSetLeafCount
| QGetActivePieceCount
| QGetNextPieceId.

(** What the contract answers to each of them. *)
Record ContractEnv : Type := mkContractEnv {
  dataSetLive : Result bool;
  getDataSetListener : Result Z;
  getDataSetStorageProvider : Result (Z * Z);
  getDataSetLeafCount : Result Z;
  getActivePieceCount : Result Z;
  getNextPieceId : Result Z
}.

(** [GetProofSet]: the returned pair and the queries made, in order. *)
Definition GetProofSet (env : ContractEnv) (proofSetID : Z)
    : Result ProofSet * list Query :=
  match dataSetLive env with
  | Err err =>
      (Err (fmt_Errorf "failed to check if data set is live: " err ""), [QDataSetLive])
  | Ok live =>
      match getDataSetListener env with
      | Err err =>
          (Err (fmt_Errorf "failed to get listener: " err ""),
           [QDataSetLive; QGetDataSetListener])
      | Ok listener =>
          match getDataSetStorageProvider env with
          | Err err =>
              (Err (fmt_Errorf "failed to get storage provider: " err ""),
               [QDataSetLive; QGetDataSetListener; QGetDataSetStorageProvider])
          | Ok (sp, _) =>
              match getDataSetLeafCount env with
              | Err err =>
                  (Err (fmt_Errorf "failed to get leaf count: " err ""),
                   [QDataSetLive; QGetDataSetListener; QGetDataSetStorageProvider;
                    QGetDataSetLeafCount])
              | Ok leafCount =>
                  match getActivePieceCount env with
                  | Err err =>
                      (Err (fmt_Errorf "failed to get active piece count: " err ""),
                       [QDataSetLive; QGetDataSetListener; QGetDataSetStorageProvider;
                        QGetDataSetLeafCount; QGetActivePieceCount])
                  | Ok activePieces =>
                      match getNextPieceId env with
                      | Err err =>
                          (Err (fmt_Errorf "failed to get next piece ID: " err ""),
                           [QDataSetLive; QGetDataSetListener;
                            QGetDataSetStorageProvider; QGetDataSetLeafCount;
                            QGetActivePieceCount; QGetNextPieceId])
                      | Ok nextPieceID =>
                          (Ok {| ID := proofSetID;
                                 Listener := listener;
                                 StorageProvider := sp;
                                 LeafCount := Gas.big_Uint64 leafCount;
                                 ActivePieces := Gas.big_Uint64 activePieces;
                                 NextPieceID := Gas.big_Uint64 nextPieceID;
                                 Live := live |},
                           [QDataSetLive; QGetDataSetListener;
                            QGetDataSetStorageProvider; QGetDataSetLeafCount;
                            QGetActivePieceCount; QGetNextPieceId])
                      end
                  end
              end
          end
      end
  end.

(** What [AddRoots] keeps of [m.GetProofSet]: the listener, or the error. *)
Definition listener_of (r : Result ProofSet) : Result Z :=
  match r with
  | Ok proofSet => Ok (Listener proofSet)
  | Err err => Err err
  end.

Section Logs.

(** [types.Log], and the two parsers of the contract binding: the event's
    [SetId] or [PieceIds], a [nil] event, or an error. *)
Variable Log : Type.
Variable ParseDataSetCreated : Log -> Result (option Z).
Variable ParsePiecesAdded : Log -> Result (option (list Z)).

(** [extractProofSetIDFromReceipt], on [receipt.Logs]. *)
Fixpoint extractProofSetIDFromReceipt (logs : list Log) : Result Z :=
  match logs with
  | [] => Err (errors_New "DataSetCreated event not found in receipt")
  | log :: rest =>
      match ParseDataSetCreated log with
      | Ok (Some setId) => Ok setId
      | _ => extractProofSetIDFromReceipt rest
      end
  end.

(** [extractPieceIDsFromReceipt], on [receipt.Logs]. *)
Fixpoint extractPieceIDsFromReceipt (logs : list Log) : Result (list Z) :=
  match logs with
  | [] => Err (errors_New "PiecesAdded event not found in receipt")
  | log :: rest =>
      match ParsePiecesAdded log with
      | Ok (Some pieceIds) => Ok (map Gas.big_Uint64 pieceIds)
      | _ => extractPieceIDsFromReceipt rest
      end
  end.

(** The extraction as the operations of [Manager] take it: [Logs] gives
    the logs of a receipt. *)
Variable Logs : Receipt.Receipt -> list Log.

Definition found {A : Type} (r : Result A) : option A :=
  match r with
  | Ok a => Some a
  | Err _ => None
  end.

Definition extract_proof_set_id (receipt : Receipt.Receipt) : option Z :=
  found (extractProofSetIDFromReceipt (Logs receipt)).

Definition extract_piece_ids (receipt : Receipt.Receipt) : option (list Z) :=
  found (extractPieceIDsFromReceipt (Logs receipt)).

End Logs.

End ProofSets.

(** * Properties *)

Lemma append_empty_r (s : string) : (s +:+ "")%string = s.
Proof.
  induction s as [|a s IH]; [reflexivity|].
  change (String a (s +:+ "") = String a s). by rewrite IH.
Qed.

(** ** The nonce manager *)

Module NonceFacts.

Import Nonce.

Lemma sort_Slice_Permutation (l : list Z) : sort_Slice l ≡ₚ l.
Proof. apply merge_sort_Permutation. Qed.

Lemma sort_Slice_Sorted (l : list Z) : StronglySorted Z.le (sort_Slice l).
Proof. apply StronglySorted_merge_sort; apply _. Qed.

Lemma sort_Slice_nil (l : list Z) : sort_Slice l = [] <-> l = [].
Proof.
  split; intros H.
  - apply Permutation_nil_r. rewrite <- H. symmetry. apply sort_Slice_Permutation.
  - subst. reflexivity.
Qed.

(** The head of the sorted pool is a least element of the pool, and the
    rest is the pool without it. *)
Lemma sort_Slice_cons (l : list Z) (n : Z) (rest : list Z) :
  sort_Slice l = n :: rest ->
  n ∈ l /\ (forall v, v ∈ l -> n <= v) /\ n :: rest ≡ₚ l.
Proof.
  intros H.
  pose proof (sort_Slice_Permutation l) as HP. rewrite H in HP.
  pose proof (sort_Slice_Sorted l) as HS. rewrite H in HS.
  split; [|split]; [| |exact HP].
  - rewrite <- HP. left.
  - intros v Hv. rewrite <- HP in Hv.
    apply StronglySorted_inv in HS as [_ Hall].
    apply elem_of_cons in Hv as [->|Hv]; [lia|].
    rewrite Forall_forall in Hall. by apply Hall.
Qed.

(** With a non-empty pool [GetNonce] takes the branch of the pool. *)
Lemma GetNonce_pool (nm : NonceManager) (net : Result Z) :
  reclaimable nm <> [] ->
  exists n rest,
    sort_Slice (reclaimable nm) = n :: rest /\
    GetNonce nm net =
      ({| nonce := nonce nm; pendingTxs := <[n := true]> (pendingTxs nm);
          reclaimable := rest |}, Ok n).
Proof.
  intros Hne. unfold GetNonce.
  destruct (reclaimable nm) as [|v pool] eqn:Hpool; [done|]. cbn [length Nat.ltb Nat.leb].
  destruct (sort_Slice (v :: pool)) as [|n rest] eqn:E.
  - apply (proj1 (sort_Slice_nil _)) in E. discriminate.
  - eauto.
Qed.

(** With an empty pool [GetNonce] takes the branch of the counter. *)
Lemma GetNonce_counter (nm : NonceManager) (net : Result Z) :
  reclaimable nm = [] ->
  GetNonce nm net =
    match nonce nm with
    | Some currentNonce => mint nm currentNonce
    | None =>
        match net with
        | Err e => (nm, Err (fmt_Errorf "failed to get pending nonce: " e ""))
        | Ok fetched => mint nm fetched
        end
    end.
Proof. intros H. unfold GetNonce. by rewrite H. Qed.

(** The cases of [TestNonceManager_MarkFailed] and
    [TestNonceManager_MarkConfirmed]. *)
Example MarkFailed_adds_to_pool :
  MarkFailed {| nonce := Some 11; pendingTxs := {[ 10 := true ]}; reclaimable := [] |} 10
  = {| nonce := Some 11; pendingTxs := ∅; reclaimable := [10] |}.
Proof. vm_compute. reflexivity. Qed.

Example MarkFailed_out_of_order :
  reclaimable
    (MarkFailed (MarkFailed (MarkFailed
       {| nonce := Some 35;
          pendingTxs := {[ 30 := true; 31 := true; 32 := true; 33 := true; 34 := true ]};
          reclaimable := [] |} 32) 30) 34) = [32; 30; 34] /\
  fst (GetNonce
    (MarkFailed (MarkFailed (MarkFailed
       {| nonce := Some 35;
          pendingTxs := {[ 30 := true; 31 := true; 32 := true; 33 := true; 34 := true ]};
          reclaimable := [] |} 32) 30) 34) (Ok 0))
  = {| nonce := Some 35;
       pendingTxs := {[ 30 := true; 31 := true; 33 := true ]};
       reclaimable := [32; 34] |}.
Proof. split; [reflexivity|]. vm_compute. reflexivity. Qed.

Example MarkConfirmed_removes_one :
  pendingTxs (MarkConfirmed
    {| nonce := None; pendingTxs := {[ 10 := true; 11 := true; 12 := true ]};
       reclaimable := [] |} 11) = {[ 10 := true; 12 := true ]}.
Proof. vm_compute. reflexivity. Qed.

(** C3. Allocate 10, 11, 12 (from a fresh manager when the network reports
    10, or from a manager whose counter is at 10 with an empty pool), fail
    11 and then 10: the next three [GetNonce] calls return 10, 11, 13,
    whatever the network would answer. In general, whenever the pool is
    not empty [GetNonce] returns a least value of the pool, takes exactly
    that value out of the pool and leaves the counter as it is. *)
Theorem reclaim_smallest_before_counter :
  (forall a b c d e,
     outputs NewNonceManager
       [CallGetNonce (Ok 10); CallGetNonce a; CallGetNonce b;
        CallMarkFailed 11; CallMarkFailed 10;
        CallGetNonce c; CallGetNonce d; CallGetNonce e]
     = [Ok 10; Ok 11; Ok 12; Ok 10; Ok 11; Ok 13]) /\
  (forall pending a b c d e f,
     outputs {| nonce := Some 10; pendingTxs := pending; reclaimable := [] |}
       [CallGetNonce a; CallGetNonce b; CallGetNonce c;
        CallMarkFailed 11; CallMarkFailed 10;
        CallGetNonce d; CallGetNonce e; CallGetNonce f]
     = [Ok 10; Ok 11; Ok 12; Ok 10; Ok 11; Ok 13]) /\
  (forall nm net,
     reclaimable nm <> [] ->
     exists n nm',
       GetNonce nm net = (nm', Ok n) /\
       n ∈ reclaimable nm /\
       (forall v, v ∈ reclaimable nm -> n <= v) /\
       n :: reclaimable nm' ≡ₚ reclaimable nm /\
       nonce nm' = nonce nm /\
       pendingTxs nm' = <[n := true]> (pendingTxs nm)).
Proof.
  split; [|split].
  - intros. reflexivity.
  - intros. reflexivity.
  - intros nm net Hne.
    destruct (GetNonce_pool nm net Hne) as (n & rest & Hs & HG).
    destruct (sort_Slice_cons _ _ _ Hs) as (Hin & Hmin & HP).
    eexists n, _. split; [exact HG|]. simpl. auto.
Qed.

Lemma reclaim_smallest_before_counter_witness :
  exists n nm',
    GetNonce {| nonce := Some 13; pendingTxs := ∅; reclaimable := [11; 10] |} (Ok 0)
      = (nm', Ok n) /\
    n ∈ [11; 10] /\ (forall v, v ∈ [11; 10] -> n <= v) /\
    n :: reclaimable nm' ≡ₚ [11; 10] /\
    nonce nm' = Some 13 /\ pendingTxs nm' = <[n := true]> ∅.
Proof.
  apply (proj2 (proj2 reclaim_smallest_before_counter)
           {| nonce := Some 13; pendingTxs := ∅; reclaimable := [11; 10] |} (Ok 0)).
  simpl. discriminate.
Defined.


(** *** Disciplined sessions *)

Lemma uint64_modulus_pos : 0 < uint64_modulus.
Proof. reflexivity. Qed.

Lemma minted_values_differ (start i k : Z) :
  0 <= i < k -> k < uint64_modulus ->
  (start + i) mod uint64_modulus <> (start + k) mod uint64_modulus.
Proof.
  intros Hi Hk Heq.
  assert (H : ((start + k) - (start + i)) mod uint64_modulus = 0).
  { rewrite Zminus_mod, Heq, Z.sub_diag. reflexivity. }
  replace (start + k - (start + i)) with (k - i) in H by lia.
  rewrite Z.mod_small in H by lia. lia.
Qed.

Lemma minted_value_mono (start minted minted' v : Z) :
  minted <= minted' -> minted_value start minted v -> minted_value start minted' v.
Proof. intros Hle (i & Hi & ->). exists i. split; [lia|reflexivity]. Qed.

Lemma new_session_coherent (start : Z) :
  is_uint64 start -> coherent start 0 new_session.
Proof.
  intros Hs. constructor; simpl; try done.
  - intros v Hv. by apply elem_of_nil in Hv.
  - constructor.
  - intros v. rewrite lookup_empty. split.
    + intros Hv. by apply elem_of_nil in Hv.
    + intros [? ?]. discriminate.
Qed.

Lemma release_elem (n v : Z) (l : list Z) : v ∈ release n l <-> v <> n /\ v ∈ l.
Proof. unfold release. by rewrite list_elem_of_filter. Qed.

Lemma release_NoDup (n : Z) (l : list Z) : NoDup l -> NoDup (release n l).
Proof. apply NoDup_filter. Qed.

(** Before anything was minted nothing is held. *)
Lemma coherent_unminted (start : Z) (s : Session) :
  coherent start 0 s -> live s = [] /\ reclaimable (manager s) = [].
Proof.
  intros H.
  assert (Hnil : live s ++ reclaimable (manager s) = []).
  { apply elem_of_nil_inv. intros v Hv.
    destruct (coh_window _ _ _ H v Hv) as (i & Hi & _). lia. }
  by apply app_eq_nil in Hnil.
Qed.

(** The counter is not a value already minted, as long as fewer than
    [2^64] values were. *)
Lemma counter_is_fresh (start minted : Z) (s : Session) (c : Z) :
  coherent start minted s -> nonce (manager s) = Some c ->
  minted < uint64_modulus ->
  c ∉ live s ++ reclaimable (manager s).
Proof.
  intros H Hc Hlt Hin.
  pose proof (coh_counter _ _ _ H) as Hcnt. rewrite Hc in Hcnt.
  destruct Hcnt as [Hpos ->].
  destruct (coh_window _ _ _ H _ Hin) as (i & Hi & Heq).
  symmetry in Heq. revert Heq. by apply minted_values_differ.
Qed.

(** One allowed call keeps the session coherent. *)
Lemma call_coherent (start minted : Z) (s : Session) (c : Call) :
  coherent start minted s ->
  allowed s c = true ->
  minted + Z.of_nat (allocations [c]) <= uint64_modulus ->
  exists start' minted',
    coherent start' minted' (call s c) /\
    minted <= minted' <= minted + Z.of_nat (allocations [c]) /\
    (0 < minted -> start' = start).
Proof.
  intros H Hok Hroom.
  destruct c as [net|n|n]; simpl in *.
  - (* GetNonce *)
    destruct (decide (reclaimable (manager s) = [])) as [Hpool|Hpool].
    + rewrite (GetNonce_counter _ net Hpool).
      pose proof (coh_counter _ _ _ H) as Hcnt.
      destruct (nonce (manager s)) as [c|] eqn:Hc.
      * (* the counter is cached *)
        destruct Hcnt as [Hpos Hceq].
        assert (Hfresh : c ∉ live s ++ reclaimable (manager s)).
        { eapply counter_is_fresh; eauto. lia. }
        exists start, (minted + 1). split; [|split; [lia|done]].
        unfold mint; constructor; simpl.
        -- lia.
        -- apply (coh_start _ _ _ H).
        -- split; [lia|]. unfold uint64_incr. rewrite Hceq.
           rewrite Zplus_mod_idemp_l. f_equal. lia.
        -- intros v Hv. rewrite Hpool, app_nil_r in Hv.
           apply elem_of_cons in Hv as [->|Hv].
           ++ exists minted. split; [lia|done].
           ++ apply (minted_value_mono start minted); [lia|].
              apply (coh_window _ _ _ H). apply elem_of_app. by left.
        -- rewrite Hpool, app_nil_r. apply NoDup_cons. split.
           ++ intros Hin. apply Hfresh. apply elem_of_app. by left.
           ++ pose proof (coh_nodup _ _ _ H) as Hnd.
              rewrite Hpool, app_nil_r in Hnd. exact Hnd.
        -- intros v. rewrite elem_of_cons, (coh_pending _ _ _ H v).
           destruct (decide (v = c)) as [->|Hne].
           ++ rewrite lookup_insert_eq. split; [eauto|by left].
           ++ rewrite lookup_insert_ne by done. split; [intros [?|?]; done|by right].
      * (* the counter is fetched *)
        subst minted.
        destruct (coherent_unminted _ _ H) as [Hlive _].
        destruct net as [fetched|e].
        -- apply bool_decide_eq_true in Hok.
           exists fetched, 1. split; [|split; [lia|lia]].
           unfold mint; constructor; simpl.
           ++ lia.
           ++ exact Hok.
           ++ split; [lia|]. unfold uint64_incr. reflexivity.
           ++ intros v Hv. rewrite Hlive, Hpool in Hv.
              apply list_elem_of_singleton in Hv as ->.
              exists 0. split; [lia|].
              rewrite Z.add_0_r, Z.mod_small; [done|exact Hok].
           ++ rewrite Hlive, Hpool. apply NoDup_singleton.
           ++ intros v. rewrite Hlive, list_elem_of_singleton.
              pose proof (coh_pending _ _ _ H v) as Hp. rewrite Hlive in Hp.
              destruct (decide (v = fetched)) as [->|Hne].
              ** rewrite lookup_insert_eq. split; eauto.
              ** rewrite lookup_insert_ne by done. split; [done|].
                 intros Hs. apply Hp in Hs. by apply elem_of_nil in Hs.
        -- exists start, 0. split; [|split; [lia|lia]]. simpl.
           destruct s; exact H.
    + (* the pool is not empty *)
      destruct (GetNonce_pool _ net Hpool) as (n & rest & Hs & ->).
      destruct (sort_Slice_cons _ _ _ Hs) as (Hin & _ & HP).
      assert (HPerm : (n :: live s) ++ rest ≡ₚ live s ++ reclaimable (manager s)).
      { rewrite <- HP. simpl. by rewrite Permutation_middle. }
      exists start, minted. split; [|split; [lia|done]].
      constructor; simpl.
      * apply (coh_minted _ _ _ H).
      * apply (coh_start _ _ _ H).
      * apply (coh_counter _ _ _ H).
      * intros v Hv. apply (coh_window _ _ _ H).
        rewrite <- HPerm. exact Hv.
      * change (NoDup ((n :: live s) ++ rest)). rewrite HPerm.
        apply (coh_nodup _ _ _ H).
      * intros v. rewrite elem_of_cons, (coh_pending _ _ _ H v).
        destruct (decide (v = n)) as [->|Hne].
        -- rewrite lookup_insert_eq. split; [eauto|by left].
        -- rewrite lookup_insert_ne by done. split; [intros [?|?]; done|by right].
  - (* MarkFailed *)
    apply bool_decide_eq_true in Hok.
    pose proof (coh_nodup _ _ _ H) as Hnd.
    apply NoDup_app in Hnd as (Hl & Hdisj & Hr).
    exists start, minted. split; [|split; [lia|done]].
    constructor; simpl.
    + apply (coh_minted _ _ _ H).
    + apply (coh_start _ _ _ H).
    + apply (coh_counter _ _ _ H).
    + intros v Hv. apply (coh_window _ _ _ H).
      rewrite !elem_of_app in *. rewrite release_elem, list_elem_of_singleton in Hv.
      destruct Hv as [[_ Hv]|[Hv| ->]]; auto.
    + rewrite app_assoc. apply NoDup_app. split; [|split].
      * apply NoDup_app. split; [by apply release_NoDup|]. split; [|done].
        intros v Hv. apply release_elem in Hv as [_ Hv]. by apply Hdisj.
      * intros v Hv. rewrite list_elem_of_singleton. intros ->.
        apply elem_of_app in Hv as [Hv|Hv].
        -- apply release_elem in Hv as [Hv _]. done.
        -- by apply (Hdisj n).
      * apply NoDup_singleton.
    + intros v. rewrite release_elem, (coh_pending _ _ _ H v).
      destruct (decide (v = n)) as [->|Hne].
      * rewrite lookup_delete_eq. split; [intros [? _]; done|intros [? ?]; done].
      * rewrite lookup_delete_ne by done. tauto.
  - (* MarkConfirmed *)
    pose proof (coh_nodup _ _ _ H) as Hnd.
    apply NoDup_app in Hnd as (Hl & Hdisj & Hr).
    exists start, minted. split; [|split; [lia|done]].
    constructor; simpl.
    + apply (coh_minted _ _ _ H).
    + apply (coh_start _ _ _ H).
    + apply (coh_counter _ _ _ H).
    + intros v Hv. apply (coh_window _ _ _ H).
      rewrite !elem_of_app in *. rewrite release_elem in Hv. tauto.
    + apply NoDup_app. split; [by apply release_NoDup|]. split; [|done].
      intros v Hv. apply release_elem in Hv as [_ Hv]. by apply Hdisj.
    + intros v. rewrite release_elem, (coh_pending _ _ _ H v).
      destruct (decide (v = n)) as [->|Hne].
      * rewrite lookup_delete_eq. split; [intros [? _]; done|intros [? ?]; done].
      * rewrite lookup_delete_ne by done. tauto.
Qed.

Lemma calls_app (s : Session) (l1 l2 : list Call) :
  calls s (l1 ++ l2) = calls (calls s l1) l2.
Proof. unfold calls. apply fold_left_app. Qed.

Lemma disciplined_app (s : Session) (l1 l2 : list Call) :
  disciplined s (l1 ++ l2) = disciplined s l1 && disciplined (calls s l1) l2.
Proof.
  revert s. induction l1 as [|c l1 IH]; intros s; simpl; [done|].
  rewrite IH. by rewrite andb_assoc.
Qed.

Lemma allocations_app (l1 l2 : list Call) :
  allocations (l1 ++ l2) = (allocations l1 + allocations l2)%nat.
Proof.
  induction l1 as [|[net|n|n] l1 IH]; simpl; [done|by rewrite IH|done|done].
Qed.

Lemma allocations_cons (c : Call) (cs : list Call) :
  allocations (c :: cs) = (allocations [c] + allocations cs)%nat.
Proof. apply (allocations_app [c] cs). Qed.

(** A disciplined sequence of calls keeps the session coherent. *)
Lemma calls_coherent (cs : list Call) :
  forall (start minted : Z) (s : Session),
    coherent start minted s ->
    disciplined s cs = true ->
    minted + Z.of_nat (allocations cs) <= uint64_modulus ->
    exists start' minted',
      coherent start' minted' (calls s cs) /\
      minted <= minted' <= minted + Z.of_nat (allocations cs) /\
      (0 < minted -> start' = start).
Proof.
  induction cs as [|c cs IH]; intros start minted s H Hd Hroom.
  - exists start, minted. simpl. split; [done|]. split; [lia|done].
  - simpl in Hd. apply andb_true_iff in Hd as [Hc Hd].
    rewrite allocations_cons, Nat2Z.inj_add in Hroom.
    destruct (call_coherent start minted s c H Hc) as (s1 & m1 & H1 & Hm1 & Hs1); [lia|].
    destruct (IH s1 m1 (call s c) H1 Hd) as (s2 & m2 & H2 & Hm2 & Hs2); [lia|].
    exists s2, m2. split; [exact H2|].
    rewrite allocations_cons, Nat2Z.inj_add. split; [lia|].
    intros Hpos. rewrite Hs2 by lia. by apply Hs1.
Qed.

(** Where the value that [GetNonce] returns comes from. *)
Lemma GetNonce_source (nm nm' : NonceManager) (net : Result Z) (v : Z) :
  GetNonce nm net = (nm', Ok v) ->
  (v ∈ reclaimable nm /\ forall w, w ∈ reclaimable nm' -> w ∈ reclaimable nm) \/
  (reclaimable nm = [] /\ reclaimable nm' = [] /\
   (nonce nm = Some v \/ (nonce nm = None /\ net = Ok v))).
Proof.
  intros HG.
  destruct (decide (reclaimable nm = [])) as [Hpool|Hpool].
  - right. rewrite (GetNonce_counter _ _ Hpool) in HG.
    destruct (nonce nm) as [c|] eqn:Hc.
    + unfold mint in HG. injection HG as <- <-. simpl. auto.
    + destruct net as [fetched|e]; [|discriminate].
      unfold mint in HG. injection HG as <- <-. simpl. auto.
  - left. destruct (GetNonce_pool _ net Hpool) as (n & rest & Hs & HG').
    rewrite HG' in HG. injection HG as <- <-. simpl.
    destruct (sort_Slice_cons _ _ _ Hs) as (Hin & _ & HP).
    split; [done|]. intros w Hw. rewrite <- HP. by right.
Qed.

(** In a coherent session [GetNonce] returns a value that is not held. *)
Lemma GetNonce_fresh (start minted : Z) (s : Session) (net : Result Z)
    (nm' : NonceManager) (v : Z) :
  coherent start minted s -> minted < uint64_modulus ->
  GetNonce (manager s) net = (nm', Ok v) ->
  v ∉ live s.
Proof.
  intros H Hlt HG Hin.
  destruct (GetNonce_source _ _ _ _ HG) as [[Hv _]|(Hpool & _ & [Hc|[Hc _]])].
  - pose proof (coh_nodup _ _ _ H) as Hnd.
    apply NoDup_app in Hnd as (_ & Hdisj & _). by apply (Hdisj v).
  - eapply counter_is_fresh; eauto. apply elem_of_app. by left.
  - pose proof (coh_counter _ _ _ H) as Hcnt. rewrite Hc in Hcnt. subst minted.
    destruct (coherent_unminted _ _ H) as [Hlive _].
    rewrite Hlive in Hin. by apply elem_of_nil in Hin.
Qed.

(** One allowed call keeps a retired nonce retired. *)
Lemma call_retired (start minted : Z) (s : Session) (c : Call) (n : Z) :
  coherent start minted s -> retired start minted s n ->
  allowed s c = true ->
  minted + Z.of_nat (allocations [c]) <= uint64_modulus ->
  exists minted',
    coherent start minted' (call s c) /\ retired start minted' (call s c) n /\
    minted <= minted' <= minted + Z.of_nat (allocations [c]).
Proof.
  intros H (Hm & Hl & Hr) Hok Hroom.
  destruct (call_coherent start minted s c H Hok Hroom) as (start' & minted' & H' & Hb & Hs).
  assert (Hpos : 0 < minted) by (destruct Hm as (i & Hi & _); lia).
  rewrite (Hs Hpos) in H'. clear Hs start'.
  exists minted'. split; [exact H'|]. split; [|exact Hb].
  split; [eapply minted_value_mono; [|exact Hm]; lia|].
  destruct c as [net|k|k]; simpl in *.
  - destruct (GetNonce (manager s) net) as [nm' [v|e]] eqn:HG; simpl.
    + destruct (GetNonce_source _ _ _ _ HG) as [[Hv Hsub]|(Hpool & Hpool' & Hsrc)].
      * split.
        -- rewrite elem_of_cons. intros [->|?]; done.
        -- intros Hin. apply Hr. by apply Hsub.
      * split; [|rewrite Hpool'; apply not_elem_of_nil].
        rewrite elem_of_cons. intros [->|?]; [|done].
        pose proof (coh_counter _ _ _ H) as Hcnt.
        destruct Hsrc as [Hc|[Hc _]]; rewrite Hc in Hcnt; [|lia].
        destruct Hcnt as [_ Hceq]. destruct Hm as (i & Hi & Heq).
        rewrite Hceq in Heq. symmetry in Heq. revert Heq.
        apply minted_values_differ; lia.
    + assert (nm' = manager s) as ->.
      { destruct (decide (reclaimable (manager s) = [])) as [Hpool|Hpool].
        - rewrite (GetNonce_counter _ _ Hpool) in HG. unfold mint in HG.
          destruct (nonce _); [discriminate|].
          destruct net; [discriminate|]. by injection HG as <- _.
        - destruct (GetNonce_pool _ net Hpool) as (k & rest & _ & HG').
          rewrite HG' in HG. discriminate. }
      done.
  - apply bool_decide_eq_true in Hok. split.
    + rewrite release_elem. tauto.
    + rewrite elem_of_app, list_elem_of_singleton. intros [?| ->]; done.
  - split; [|done]. rewrite release_elem. tauto.
Qed.

Lemma calls_retired (cs : list Call) (n : Z) :
  forall (start minted : Z) (s : Session),
    coherent start minted s -> retired start minted s n ->
    disciplined s cs = true ->
    minted + Z.of_nat (allocations cs) <= uint64_modulus ->
    exists minted',
      coherent start minted' (calls s cs) /\ retired start minted' (calls s cs) n.
Proof.
  induction cs as [|c cs IH]; intros start minted s H Hret Hd Hroom.
  - exists minted. done.
  - simpl in Hd. apply andb_true_iff in Hd as [Hc Hd].
    rewrite allocations_cons, Nat2Z.inj_add in Hroom.
    destruct (call_retired start minted s c n H Hret Hc) as (m1 & H1 & Hr1 & Hb1); [lia|].
    apply (IH start m1 (call s c) H1 Hr1 Hd). lia.
Qed.

(** C1, as the code has it. Take any sequence of [GetNonce], [MarkFailed]
    and [MarkConfirmed] calls on a fresh manager in which [MarkFailed] is
    only called with a nonce the caller holds at that point, the network
    answers with [uint64] values, and [GetNonce] is called at most [2^64]
    times. Then no two live allocations are equal, and every [GetNonce]
    call of the sequence returns a value that is neither live nor in the
    in-flight map when it is called. *)
Theorem live_allocations_distinct (cs : list Call) :
  disciplined new_session cs = true ->
  Z.of_nat (allocations cs) <= uint64_modulus ->
  NoDup (live (calls new_session cs)) /\
  (forall pre net post nm v,
     cs = pre ++ CallGetNonce net :: post ->
     GetNonce (manager (calls new_session pre)) net = (nm, Ok v) ->
     (v ∉ live (calls new_session pre)) /\
     pendingTxs (manager (calls new_session pre)) !! v = None).
Proof.
  intros Hd Hroom.
  assert (H0 : coherent 0 0 new_session).
  { apply new_session_coherent. split; [done|apply uint64_modulus_pos]. }
  split.
  - destruct (calls_coherent cs 0 0 new_session H0 Hd) as (start & minted & H & _); [lia|].
    pose proof (coh_nodup _ _ _ H) as Hnd.
    by apply NoDup_app in Hnd as (? & _ & _).
  - intros pre net post nm v -> HG.
    rewrite disciplined_app in Hd. apply andb_true_iff in Hd as [Hpre _].
    rewrite allocations_app in Hroom. simpl in Hroom.
    destruct (calls_coherent pre 0 0 new_session H0 Hpre) as (start & minted & H & Hb & _);
      [lia|].
    assert (Hfresh : v ∉ live (calls new_session pre)).
    { eapply GetNonce_fresh; eauto. lia. }
    split; [exact Hfresh|].
    destruct (pendingTxs (manager (calls new_session pre)) !! v) eqn:E; [|done].
    exfalso. apply Hfresh. apply (coh_pending _ _ _ H). by rewrite E.
Qed.

Lemma live_allocations_distinct_witness :
  NoDup (live (calls new_session
    [CallGetNonce (Ok 10); CallGetNonce (Ok 0); CallGetNonce (Ok 0);
     CallMarkFailed 11; CallMarkFailed 10;
     CallGetNonce (Ok 0); CallGetNonce (Ok 0); CallMarkConfirmed 12])).
Proof.
  refine (proj1 (live_allocations_distinct
    [CallGetNonce (Ok 10); CallGetNonce (Ok 0); CallGetNonce (Ok 0);
     CallMarkFailed 11; CallMarkFailed 10;
     CallGetNonce (Ok 0); CallGetNonce (Ok 0); CallMarkConfirmed 12] _ _)).
  - vm_compute. reflexivity.
  - vm_compute. discriminate.
Defined.

(** C1, as it is stated, fails on the code: [MarkFailed] puts its argument
    into the pool whether or not the caller holds it. After a nonce is
    failed twice the pool holds it twice, and the next two [GetNonce]
    calls both return it, the second while it is in the in-flight map. *)
Lemma live_allocations_collide :
  outputs NewNonceManager
    [CallGetNonce (Ok 10); CallMarkFailed 10; CallMarkFailed 10;
     CallGetNonce (Ok 0); CallGetNonce (Ok 0)]
    = [Ok 10; Ok 10; Ok 10] /\
  live (calls new_session
    [CallGetNonce (Ok 10); CallMarkFailed 10; CallMarkFailed 10;
     CallGetNonce (Ok 0); CallGetNonce (Ok 0)]) = [10; 10] /\
  ~ NoDup (live (calls new_session
    [CallGetNonce (Ok 10); CallMarkFailed 10; CallMarkFailed 10;
     CallGetNonce (Ok 0); CallGetNonce (Ok 0)])) /\
  pendingTxs (manager (calls new_session
    [CallGetNonce (Ok 10); CallMarkFailed 10; CallMarkFailed 10;
     CallGetNonce (Ok 0)])) !! 10 = Some true.
Proof.
  split; [reflexivity|]. split; [reflexivity|]. split; [|reflexivity].
  change (~ NoDup [10; 10]). rewrite NoDup_cons. intros [Hin _].
  apply Hin. left.
Qed.

(** C7, as the code has it. In a sequence of [GetNonce], [MarkFailed] and
    [MarkConfirmed] calls on a fresh manager, [Reset] not being called, in
    which [MarkFailed] is only called with a nonce the caller holds (and
    the network answers with [uint64] values, [GetNonce] being called at
    most [2^64] times), once [MarkConfirmed(n)] was called for a nonce [n]
    the caller held, [n] is not in the reclaimable pool after any number
    of further such calls, and it is never handed out again. ([Reset]
    starts the counter anew and so ends the retirement: see
    [Reset_reopens_confirmed_nonce].) *)
Theorem confirmed_nonce_stays_retired (pre post : list Call) (n : Z) :
  disciplined new_session (pre ++ CallMarkConfirmed n :: post) = true ->
  Z.of_nat (allocations (pre ++ CallMarkConfirmed n :: post)) <= uint64_modulus ->
  n ∈ live (calls new_session pre) ->
  (n ∉ reclaimable (manager (calls new_session (pre ++ CallMarkConfirmed n :: post)))) /\
  (n ∉ live (calls new_session (pre ++ CallMarkConfirmed n :: post))).
Proof.
  intros Hd Hroom Hlive.
  assert (H0 : coherent 0 0 new_session).
  { apply new_session_coherent. split; [done|apply uint64_modulus_pos]. }
  rewrite disciplined_app in Hd. apply andb_true_iff in Hd as [Hpre Hd].
  simpl in Hd.
  rewrite allocations_app, Nat2Z.inj_add in Hroom. simpl in Hroom.
  destruct (calls_coherent pre 0 0 new_session H0 Hpre) as (start & minted & H & Hb & _);
    [lia|].
  set (s1 := calls new_session pre) in *.
  assert (Hm : minted_value start minted n).
  { apply (coh_window _ _ _ H). apply elem_of_app. by left. }
  assert (Hpool : n ∉ reclaimable (manager s1)).
  { pose proof (coh_nodup _ _ _ H) as Hnd.
    apply NoDup_app in Hnd as (_ & Hdisj & _). by apply Hdisj. }
  destruct (call_coherent start minted s1 (CallMarkConfirmed n) H eq_refl)
    as (start2 & minted2 & H2 & Hb2 & Hs2); [simpl; lia|].
  assert (Hpos : 0 < minted) by (destruct Hm as (i & Hi & _); lia).
  rewrite (Hs2 Hpos) in H2. simpl in Hb2.
  assert (Hret : retired start minted2 (call s1 (CallMarkConfirmed n)) n).
  { split; [eapply minted_value_mono; [|exact Hm]; lia|]. simpl. split; [|done].
    rewrite release_elem. tauto. }
  destruct (calls_retired post n start minted2 _ H2 Hret Hd) as (m3 & _ & _ & Hl3 & Hr3);
    [lia|].
  rewrite calls_app. simpl. split; [exact Hr3|exact Hl3].
Qed.

Lemma confirmed_nonce_stays_retired_witness :
  (11 ∉ reclaimable (manager (calls new_session
     ([CallGetNonce (Ok 10); CallGetNonce (Ok 0); CallGetNonce (Ok 0)] ++
      CallMarkConfirmed 11 ::
      [CallMarkFailed 10; CallGetNonce (Ok 0); CallGetNonce (Ok 0); CallMarkFailed 13])))) /\
  (11 ∉ live (calls new_session
     ([CallGetNonce (Ok 10); CallGetNonce (Ok 0); CallGetNonce (Ok 0)] ++
      CallMarkConfirmed 11 ::
      [CallMarkFailed 10; CallGetNonce (Ok 0); CallGetNonce (Ok 0); CallMarkFailed 13]))).
Proof.
  apply (confirmed_nonce_stays_retired
    [CallGetNonce (Ok 10); CallGetNonce (Ok 0); CallGetNonce (Ok 0)]
    [CallMarkFailed 10; CallGetNonce (Ok 0); CallGetNonce (Ok 0); CallMarkFailed 13] 11).
  - vm_compute. reflexivity.
  - vm_compute. discriminate.
  - vm_compute. right. left.
Defined.

(** C7, as it is stated, fails on the code: [MarkFailed] does not look at
    what was confirmed. After [GetNonce] returned 10 and [MarkConfirmed(10)]
    was called, [MarkFailed(10)] puts 10 into the pool and the next
    [GetNonce] hands it out again. *)
Lemma confirmed_nonce_reappears :
  reclaimable (manager (calls new_session
    [CallGetNonce (Ok 10); CallMarkConfirmed 10; CallMarkFailed 10])) = [10] /\
  10 ∈ reclaimable (manager (calls new_session
    [CallGetNonce (Ok 10); CallMarkConfirmed 10; CallMarkFailed 10])) /\
  outputs NewNonceManager
    [CallGetNonce (Ok 10); CallMarkConfirmed 10; CallMarkFailed 10; CallGetNonce (Ok 0)]
    = [Ok 10; Ok 10].
Proof.
  split; [reflexivity|]. split; [|reflexivity].
  change (10 ∈ [10]). left.
Qed.

(** C8. [MarkConfirmed(n)] deletes [n] from the in-flight map and touches
    nothing else: the other entries, the pool and the counter are as
    before; it is defined on every state and every [n]; when [n] is not in
    the map the state is unchanged; a second call changes nothing more. *)
Theorem MarkConfirmed_frame (nm : NonceManager) (n : Z) :
  pendingTxs (MarkConfirmed nm n) = delete n (pendingTxs nm) /\
  pendingTxs (MarkConfirmed nm n) !! n = None /\
  (forall k, k <> n -> pendingTxs (MarkConfirmed nm n) !! k = pendingTxs nm !! k) /\
  reclaimable (MarkConfirmed nm n) = reclaimable nm /\
  nonce (MarkConfirmed nm n) = nonce nm /\
  (pendingTxs nm !! n = None -> MarkConfirmed nm n = nm) /\
  MarkConfirmed (MarkConfirmed nm n) n = MarkConfirmed nm n /\
  (forall k, MarkConfirmed (MarkConfirmed nm n) k = MarkConfirmed (MarkConfirmed nm k) n).
Proof.
  unfold MarkConfirmed; simpl. repeat split.
  - apply lookup_delete_eq.
  - intros k Hk. by apply lookup_delete_ne.
  - intros Hnone. destruct nm as [c p r]; simpl in *. f_equal. by apply delete_id.
  - f_equal. apply delete_id. apply lookup_delete_eq.
  - intros k. f_equal. apply delete_delete.
Qed.

Lemma MarkConfirmed_frame_witness :
  MarkConfirmed
    {| nonce := Some 13; pendingTxs := {[ 10 := true; 12 := true ]};
       reclaimable := [11] |} 11
  = {| nonce := Some 13; pendingTxs := {[ 10 := true; 12 := true ]};
       reclaimable := [11] |}.
Proof.
  refine (proj1 (proj2 (proj2 (proj2 (proj2 (proj2 (MarkConfirmed_frame
    {| nonce := Some 13; pendingTxs := {[ 10 := true; 12 := true ]};
       reclaimable := [11] |} 11)))))) _).
  vm_compute. reflexivity.
Defined.

(** C10. When the network query of [Reset] fails, [Reset] returns that
    error wrapped as "failed to reset nonce: ..." and the manager (counter,
    in-flight map and pool) is exactly as before; and [Reset] returns an
    error in no other case. *)
Theorem Reset_failure_leaves_state (nm : NonceManager) (e : error) :
  Reset nm (Err e) = (nm, Some (fmt_Errorf "failed to reset nonce: " e "")) /\
  errors_Unwrap (fmt_Errorf "failed to reset nonce: " e "") = Some e /\
  Error (fmt_Errorf "failed to reset nonce: " e "")
    = ("failed to reset nonce: " +:+ Error e)%string /\
  (forall net nm' err,
     Reset nm net = (nm', Some err) ->
     nm' = nm /\ exists cause, net = Err cause /\ errors_Unwrap err = Some cause).
Proof.
  split; [reflexivity|]. split; [reflexivity|]. split.
  - change (Error (fmt_Errorf "failed to reset nonce: " e ""))
      with ("failed to reset nonce: " +:+ (Error e +:+ ""))%string.
    by rewrite append_empty_r.
  - intros net nm' err HR. destruct net as [fetched|cause]; simpl in HR.
    + discriminate.
    + injection HR as <- <-. split; [done|]. by exists cause.
Qed.

Lemma Reset_failure_leaves_state_witness :
  {| nonce := Some 13; pendingTxs := {[ 10 := true ]}; reclaimable := [11] |}
  = {| nonce := Some 13; pendingTxs := {[ 10 := true ]}; reclaimable := [11] |} /\
  exists cause,
    @Err Z (Sentinel context_DeadlineExceeded) = Err cause /\
    errors_Unwrap
      (fmt_Errorf "failed to reset nonce: " (Sentinel context_DeadlineExceeded) "")
    = Some cause.
Proof.
  refine (proj2 (proj2 (proj2 (Reset_failure_leaves_state
    {| nonce := Some 13; pendingTxs := {[ 10 := true ]}; reclaimable := [11] |}
    (Sentinel context_DeadlineExceeded))))
    (Err (Sentinel context_DeadlineExceeded)) _ _ _).
  vm_compute. reflexivity.
Defined.

End NonceFacts.

(** ** The receipt waiter *)

Module ReceiptFacts.

Import Receipt.

Lemma int_incr_small (z : Z) : - 2 ^ 63 <= z < 2 ^ 63 - 1 -> int_incr z = z + 1.
Proof. intros Hz. unfold int_incr. rewrite Z.mod_small; lia. Qed.

Lemma poll_loop_app (maxErrors : Z) (st : Polling) (l1 l2 : list PollEvent) :
  poll_loop maxErrors st (l1 ++ l2) =
    match poll_loop maxErrors st l1 with
    | Continue st' => poll_loop maxErrors st' l2
    | Return receipt err => Return receipt err
    end.
Proof.
  revert st. induction l1 as [|ev l1 IH]; intros st; simpl; [done|].
  destruct (poll maxErrors st ev); [apply IH|done].
Qed.

Lemma poll_loop_snoc (maxErrors : Z) (st : Polling) (evs : list PollEvent) (ev : PollEvent) :
  poll_loop maxErrors st (evs ++ [ev]) =
    match poll_loop maxErrors st evs with
    | Continue st' => poll maxErrors st' ev
    | Return receipt err => Return receipt err
    end.
Proof.
  rewrite poll_loop_app. destruct (poll_loop maxErrors st evs); [|done].
  simpl. by destruct (poll maxErrors st0 ev).
Qed.

Lemma trailing_errors_snoc (evs : list PollEvent) (ev : PollEvent) :
  trailing_errors (evs ++ [ev]) =
    if rpc_error ev then S (trailing_errors evs) else O.
Proof. unfold trailing_errors. by rewrite rev_unit. Qed.

(** A "not found" reply resets the counter and the loop goes on. *)
Lemma poll_not_found (maxErrors : Z) (st : Polling) (e : error) :
  errors_Is e ethereum_NotFound = true ->
  poll maxErrors st (Tick (Err e)) =
    Continue {| consecutiveErrors := 0; pollCount := int_incr (pollCount st);
                lastErr := lastErr st |}.
Proof. intros H. unfold poll. by rewrite H. Qed.

(** Any other error counts; the loop ends when the count is at the
    threshold. *)
Lemma poll_rpc_error (maxErrors : Z) (st : Polling) (e : error) :
  errors_Is e ethereum_NotFound = false ->
  - 2 ^ 63 <= consecutiveErrors st < 2 ^ 63 - 1 ->
  poll maxErrors st (Tick (Err e)) =
    if consecutiveErrors st + 1 >=? maxErrors then
      Return None (Some (rpc_failure_error (consecutiveErrors st + 1)
                           (int_incr (pollCount st)) e))
    else
      Continue {| consecutiveErrors := consecutiveErrors st + 1;
                  pollCount := int_incr (pollCount st); lastErr := Some e |}.
Proof. intros H Hc. unfold poll. rewrite H. by rewrite int_incr_small. Qed.

Lemma poll_loop_rpc_error (maxErrors : Z) (st : Polling) (e : error)
    (evs : list PollEvent) :
  errors_Is e ethereum_NotFound = false ->
  - 2 ^ 63 <= consecutiveErrors st /\ consecutiveErrors st + 1 < maxErrors < 2 ^ 63 ->
  poll_loop maxErrors st (Tick (Err e) :: evs) =
    poll_loop maxErrors
      {| consecutiveErrors := consecutiveErrors st + 1;
         pollCount := int_incr (pollCount st); lastErr := Some e |} evs.
Proof.
  intros H Hc. cbn [poll_loop]. rewrite (poll_rpc_error _ _ _ H) by lia.
  destruct (_ >=? _) eqn:Hge; [lia|done].
Qed.

(** While the loop runs the counter is the number of RPC errors the turns
    so far end with, below the threshold. *)
Lemma counter_is_trailing_errors (maxErrors : Z) (evs : list PollEvent) :
  0 < maxErrors < 2 ^ 63 ->
  forall st,
    poll_loop maxErrors
      {| consecutiveErrors := 0; pollCount := 0; lastErr := None |} evs = Continue st ->
    consecutiveErrors st = Z.of_nat (trailing_errors evs) /\
    consecutiveErrors st < maxErrors.
Proof.
  intros Hmax. induction evs as [|ev evs IH] using rev_ind; intros st Hrun.
  - simpl in Hrun. injection Hrun as <-. simpl. split; [done|lia].
  - rewrite poll_loop_snoc in Hrun. rewrite trailing_errors_snoc.
    destruct (poll_loop maxErrors _ evs) as [st0|] eqn:Hevs; [|discriminate].
    destruct (IH st0 eq_refl) as [Hc Hlt].
    destruct ev as [ctxErr|[receipt|e]].
    + discriminate.
    + simpl in Hrun. by destruct (negb _).
    + simpl rpc_error. destruct (errors_Is e ethereum_NotFound) eqn:HNF; simpl.
      * rewrite (poll_not_found _ _ _ HNF) in Hrun. injection Hrun as <-. simpl. lia.
      * rewrite (poll_rpc_error _ _ _ HNF) in Hrun by lia.
        destruct (consecutiveErrors st0 + 1 >=? maxErrors) eqn:Hge; [discriminate|].
        injection Hrun as <-. simpl. lia.
Qed.

Lemma rpc_failure_error_Is (consecutive polls : Z) (last : error) :
  errors_Is (rpc_failure_error consecutive polls last) ErrReceiptRPCFailure = true.
Proof. reflexivity. Qed.

(** One turn ends the wait with the RPC-failure error exactly when it is an
    RPC error that brings the counter to the threshold. *)
Lemma poll_rpc_unavailable (maxErrors : Z) (st : Polling) (ev : PollEvent) :
  - 2 ^ 63 <= consecutiveErrors st < 2 ^ 63 - 1 ->
  rpc_unavailable (poll maxErrors st ev) = true <->
  rpc_error ev = true /\ maxErrors <= consecutiveErrors st + 1.
Proof.
  intros Hc. destruct ev as [ctxErr|[receipt|e]]; simpl.
  - split; [discriminate|intros [? _]; discriminate].
  - destruct (negb _); simpl; (split; [discriminate|intros [? _]; discriminate]).
  - destruct (errors_Is e ethereum_NotFound) eqn:HNF; simpl.
    + split; [discriminate|intros [? _]; discriminate].
    + rewrite int_incr_small by lia.
      destruct (consecutiveErrors st + 1 >=? maxErrors) eqn:Hge; simpl.
      * split; [intros _; split; [done|lia]|done].
      * split; [discriminate|intros [_ ?]; lia].
Qed.

(** A wait that returned did so at some turn, running until then. *)
Lemma poll_loop_returned (maxErrors : Z) (evs : list PollEvent) :
  forall st receipt err,
    poll_loop maxErrors st evs = Return receipt err ->
    exists before ev after st',
      evs = before ++ ev :: after /\
      poll_loop maxErrors st before = Continue st' /\
      poll maxErrors st' ev = Return receipt err.
Proof.
  induction evs as [|ev evs IH]; intros st receipt err Hrun; simpl in Hrun; [discriminate|].
  destruct (poll maxErrors st ev) as [st1|r1 e1] eqn:Hp.
  - destruct (IH _ _ _ Hrun) as (before & ev' & after & st' & -> & Hb & Hr).
    exists (ev :: before), ev', after, st'. split; [done|]. split; [|done].
    simpl. by rewrite Hp.
  - injection Hrun as <- <-. exists [], ev, evs, st. done.
Qed.

(** The turns end with as many RPC errors as [trailing_errors] counts. *)
Lemma trailing_errors_suffix (evs : list PollEvent) :
  exists before streak,
    evs = before ++ streak /\ length streak = trailing_errors evs /\
    forallb rpc_error streak = true.
Proof.
  induction evs as [|ev evs IH] using rev_ind.
  - by exists [], [].
  - rewrite trailing_errors_snoc. destruct (rpc_error ev) eqn:Hev.
    + destruct IH as (before & streak & -> & Hlen & Hall).
      exists before, (streak ++ [ev]). split; [by rewrite app_assoc|].
      split; [rewrite length_app; simpl; lia|].
      rewrite forallb_app, Hall. simpl. by rewrite Hev.
    + exists (evs ++ [ev]), []. by rewrite app_nil_r.
Qed.

(** From a running loop, enough RPC errors in a row end the wait with the
    RPC-failure error. *)
Lemma streak_is_fatal (maxErrors : Z) (streak : list PollEvent) :
  forall st,
    0 <= consecutiveErrors st < maxErrors -> maxErrors < 2 ^ 63 ->
    forallb rpc_error streak = true ->
    maxErrors <= consecutiveErrors st + Z.of_nat (length streak) ->
    rpc_unavailable (poll_loop maxErrors st streak) = true.
Proof.
  induction streak as [|ev streak IH]; intros st Hc Hmax Hall Hlen; simpl in *; [lia|].
  apply andb_true_iff in Hall as [Hev Hall].
  destruct (poll maxErrors st ev) as [st1|r1 e1] eqn:Hp.
  - destruct ev as [ctxErr|[receipt|e]]; try discriminate.
    simpl in Hev. apply negb_true_iff in Hev.
    rewrite (poll_rpc_error _ _ _ Hev) in Hp by lia.
    destruct (consecutiveErrors st + 1 >=? maxErrors) eqn:Hge; [discriminate|].
    injection Hp as <-. apply IH; simpl; [lia|lia|done|lia].
  - assert (Hu : rpc_unavailable (poll maxErrors st ev) = true).
    { apply poll_rpc_unavailable; [lia|]. split; [done|].
      destruct ev as [ctxErr|[receipt|e]]; try discriminate.
      simpl in Hev. apply negb_true_iff in Hev.
      rewrite (poll_rpc_error _ _ _ Hev) in Hp by lia.
      destruct (consecutiveErrors st + 1 >=? maxErrors) eqn:Hge; [lia|discriminate]. }
    by rewrite Hp in Hu.
Qed.

(** Error replies alone can end the wait only with the RPC-failure
    error. *)
Lemma errors_only_returns (maxErrors : Z) (evs : list PollEvent) :
  forall st receipt err,
    forallb (fun ev => rpc_error ev || not_found ev) evs = true ->
    poll_loop maxErrors st evs = Return receipt err ->
    rpc_unavailable (Return receipt err) = true.
Proof.
  induction evs as [|ev evs IH]; intros st receipt err Hall Hrun; simpl in *; [discriminate|].
  apply andb_true_iff in Hall as [Hev Hall].
  destruct (poll maxErrors st ev) as [st1|r1 e1] eqn:Hp.
  - by apply (IH st1 receipt err).
  - injection Hrun as <- <-.
    destruct ev as [ctxErr|[receipt0|e]]; try discriminate.
    simpl in Hp, Hev.
    destruct (errors_Is e ethereum_NotFound); [discriminate|].
    destruct (_ >=? _); [|discriminate]. by injection Hp as <- <-.
Qed.

Lemma effective_maxErrors_cases (config : ReceiptWaitConfig) :
  (MaxConsecutiveErrors config = 0 -> effective_maxErrors config = 5) /\
  (MaxConsecutiveErrors config <> 0 ->
   effective_maxErrors config = MaxConsecutiveErrors config).
Proof.
  unfold effective_maxErrors. split; intros H.
  - by rewrite H.
  - destruct (MaxConsecutiveErrors config =? 0) eqn:E; [|done].
    apply Z.eqb_eq in E. contradiction.
Qed.

(** C4. [maxErrors] is the threshold the loop uses: the configured
    [MaxConsecutiveErrors], or 5 when that is 0; it is a positive [int].
    While the wait is running after the turns [evs]:
    - the counter is the number of RPC errors (other than "not found")
      that [evs] ends with, and is below the threshold;
    - a "not found" reply sets the counter to zero and the wait goes on,
      [lastErr] untouched;
    - any other error reply adds one to the counter, and the wait returns
      the RPC-failure error made from that last error exactly when the
      counter thereby reaches the threshold; otherwise it goes on;
    - no other turn ends the wait with the RPC-failure error.
    For a configuration whose ticker can be created (a positive poll
    interval, or 0 for the default): with [MaxConsecutiveErrors = 5], five
    RPC errors in a row from the start end the wait at the fifth; and over
    any turns made of error replies the wait ends with the RPC-failure
    error exactly when the threshold number of RPC errors occur in a row,
    so a "not found" inside a run of fewer errors prevents it.
    The RPC-failure error carries the last error: its message is that of
    [ErrReceiptRPCFailure], the counts, and the message of the last error
    at the end; it matches [ErrReceiptRPCFailure] and nothing else, the
    last error being printed into it, not wrapped. *)
Theorem consecutive_rpc_errors_end_the_wait :
  (forall config evs st,
     0 < effective_maxErrors config < 2 ^ 63 ->
     WaitForReceiptWithConfig config evs = Continue st ->
     consecutiveErrors st = Z.of_nat (trailing_errors evs) /\
     consecutiveErrors st < effective_maxErrors config /\
     (forall e,
        errors_Is e ethereum_NotFound = true ->
        WaitForReceiptWithConfig config (evs ++ [Tick (Err e)]) =
          Continue {| consecutiveErrors := 0;
                      pollCount := int_incr (pollCount st);
                      lastErr := lastErr st |}) /\
     (forall e,
        errors_Is e ethereum_NotFound = false ->
        WaitForReceiptWithConfig config (evs ++ [Tick (Err e)]) =
          if consecutiveErrors st + 1 =? effective_maxErrors config then
            Return None
              (Some (rpc_failure_error (effective_maxErrors config)
                       (int_incr (pollCount st)) e))
          else
            Continue {| consecutiveErrors := consecutiveErrors st + 1;
                        pollCount := int_incr (pollCount st);
                        lastErr := Some e |}) /\
     (forall ev,
        rpc_unavailable (WaitForReceiptWithConfig config (evs ++ [ev])) = true <->
        rpc_error ev = true /\
        consecutiveErrors st + 1 = effective_maxErrors config)) /\
  (forall config e1 e2 e3 e4 e5,
     0 < effective_pollInterval config ->
     MaxConsecutiveErrors config = 5 ->
     forallb rpc_error
       [Tick (Err e1); Tick (Err e2); Tick (Err e3); Tick (Err e4); Tick (Err e5)] = true ->
     WaitForReceiptWithConfig config
       [Tick (Err e1); Tick (Err e2); Tick (Err e3); Tick (Err e4); Tick (Err e5)]
     = Return None (Some (rpc_failure_error 5 5 e5))) /\
  (forall config evs,
     0 < effective_pollInterval config ->
     0 < effective_maxErrors config < 2 ^ 63 ->
     forallb (fun ev => rpc_error ev || not_found ev) evs = true ->
     (rpc_unavailable (WaitForReceiptWithConfig config evs) = true <->
      has_streak (Z.to_nat (effective_maxErrors config)) evs)) /\
  (forall consecutive polls last,
     Error (rpc_failure_error consecutive polls last)
     = ("receipt fetch failed due to repeated RPC errors: " +:+ pretty consecutive
        +:+ " consecutive errors after " +:+ pretty polls
        +:+ " polls, last error: " +:+ Error last)%string /\
     errors_Unwrap (rpc_failure_error consecutive polls last)
     = Some (Sentinel ErrReceiptRPCFailure) /\
     (forall target,
        errors_Is (rpc_failure_error consecutive polls last) target
        = bool_decide (ErrReceiptRPCFailure = target))).
Proof.
  split; [|split; [|split]].
  - intros config evs st Hmax Hrun. unfold WaitForReceiptWithConfig in *.
    destruct (counter_is_trailing_errors _ evs Hmax st Hrun) as [Hc Hlt].
    split; [exact Hc|]. split; [exact Hlt|]. split; [|split].
    + intros e HNF. rewrite poll_loop_snoc, Hrun. by apply poll_not_found.
    + intros e HNF. rewrite poll_loop_snoc, Hrun.
      rewrite (poll_rpc_error _ _ _ HNF) by lia.
      destruct (consecutiveErrors st + 1 =? effective_maxErrors config) eqn:E.
      * apply Z.eqb_eq in E. rewrite E.
        destruct (_ >=? _) eqn:Hge; [done|lia].
      * apply Z.eqb_neq in E. destruct (_ >=? _) eqn:Hge; [lia|done].
    + intros ev. rewrite poll_loop_snoc, Hrun.
      rewrite poll_rpc_unavailable by lia. split; intros [? ?]; (split; [done|lia]).
  - intros config e1 e2 e3 e4 e5 _ Hcfg Hall.
    unfold WaitForReceiptWithConfig, effective_maxErrors. rewrite Hcfg.
    simpl in Hall. rewrite !andb_true_iff, !negb_true_iff in Hall.
    destruct Hall as (H1 & H2 & H3 & H4 & H5 & _).
    change (5 =? 0) with false. cbv iota.
    rewrite (poll_loop_rpc_error _ _ _ _ H1) by (simpl; lia).
    rewrite (poll_loop_rpc_error _ _ _ _ H2) by (simpl; lia).
    rewrite (poll_loop_rpc_error _ _ _ _ H3) by (simpl; lia).
    rewrite (poll_loop_rpc_error _ _ _ _ H4) by (simpl; lia).
    cbn [poll_loop].
    rewrite (poll_rpc_error _ _ _ H5) by (simpl; lia).
    reflexivity.
  - intros config evs _ Hmax Hall. unfold WaitForReceiptWithConfig.
    set (m := effective_maxErrors config) in *.
    set (st0 := {| consecutiveErrors := 0; pollCount := 0; lastErr := None |}).
    split.
    + intros Hu.
      destruct (poll_loop m st0 evs) as [st|receipt err] eqn:Hrun; [discriminate|].
      destruct (poll_loop_returned _ _ _ _ _ Hrun)
        as (before & ev & after & st' & -> & Hb & Hp).
      destruct (counter_is_trailing_errors m before Hmax st' Hb) as [Hc Hlt].
      assert (Hev : rpc_error ev = true /\ m <= consecutiveErrors st' + 1).
      { apply poll_rpc_unavailable; [lia|]. by rewrite Hp. }
      destruct Hev as [Hev Hge].
      destruct (trailing_errors_suffix before) as (b0 & streak & -> & Hlen & Hs).
      exists b0, (streak ++ [ev]), after. split; [|split].
      * by rewrite <- !app_assoc.
      * rewrite length_app. simpl. lia.
      * rewrite forallb_app, Hs. simpl. by rewrite Hev.
    + intros (before & streak & after & -> & Hlen & Hs).
      rewrite !forallb_app, !andb_true_iff in Hall. destruct Hall as (Hb & _ & _).
      rewrite app_assoc, poll_loop_app, poll_loop_app.
      destruct (poll_loop m st0 before) as [st|receipt err] eqn:Hrun.
      * destruct (counter_is_trailing_errors m before Hmax st Hrun) as [Hc Hlt].
        assert (Hf : rpc_unavailable (poll_loop m st streak) = true).
        { apply streak_is_fatal; [lia|lia|done|lia]. }
        destruct (poll_loop m st streak); [discriminate|done].
      * by apply (errors_only_returns m before st0).
  - intros consecutive polls last. split; [reflexivity|]. split; reflexivity.
Qed.

Lemma consecutive_rpc_errors_end_the_wait_witness :
  rpc_unavailable
    (WaitForReceiptWithConfig DefaultReceiptWaitConfig
       ([Tick (Err (errors_New "connection reset"));
         Tick (Err (Sentinel ethereum_NotFound));
         Tick (Err (errors_New "bad gateway"));
         Tick (Err (errors_New "bad gateway"));
         Tick (Err (errors_New "bad gateway"));
         Tick (Err (errors_New "bad gateway"))] ++
        [Tick (Err (errors_New "EOF"))])) = true.
Proof.
  refine (proj2 (proj2 (proj2 (proj2 (proj2 (proj1 consecutive_rpc_errors_end_the_wait
    DefaultReceiptWaitConfig
    [Tick (Err (errors_New "connection reset"));
     Tick (Err (Sentinel ethereum_NotFound));
     Tick (Err (errors_New "bad gateway"));
     Tick (Err (errors_New "bad gateway"));
     Tick (Err (errors_New "bad gateway"));
     Tick (Err (errors_New "bad gateway"))]
    {| consecutiveErrors := 4; pollCount := 6;
       lastErr := Some (errors_New "bad gateway") |} _ _))))
    (Tick (Err (errors_New "EOF")))) _).
  - vm_compute. split; reflexivity.
  - vm_compute. reflexivity.
  - vm_compute. split; reflexivity.
Defined.





End ReceiptFacts.

(** ** The submission retrier and the backoff policy *)

Module RetryFacts.

Import Retry.

Section Retrier.

Variable indefinite : float -> Z.
Variable env : SendEnv.
Variable tx : Transaction.
Variable config : RetryConfig.

Local Arguments IsRetryableError : simpl never.

Local Abbreviation loop := (retry_loop indefinite env tx config).

(** The loop sends at most once per iteration. *)
Lemma retry_loop_calls (remaining : nat) :
  forall attempt backoff lastErr calls naps,
    (sendCalls (loop remaining attempt backoff lastErr calls naps)
     <= calls + remaining)%nat.
Proof.
  induction remaining as [|r IH]; intros attempt backoff lastErr calls naps.
  - simpl. lia.
  - cbn [retry_loop].
    destruct (0 <? attempt)%nat; [destruct (ctxDone env attempt)|]; simpl; try lia;
    (destruct (sendReply env attempt) as [err|]; simpl; [|lia];
     destruct (IsRetryableError (Some err)); simpl; [|lia];
     etrans; [apply IH|lia]).
Qed.

(** An iteration whose wait is not cancelled and whose send fails with a
    retryable error leads to the next iteration. *)
Lemma retry_loop_retry (r attempt : nat) (backoff : Z) (lastErr : option error)
    (calls : nat) (naps : list Z) :
  retryable_failure env attempt ->
  (0 < attempt -> ctxDone env attempt = None)%nat ->
  exists backoff' naps',
    loop (S r) attempt backoff lastErr calls naps =
    loop r (S attempt) backoff' (sendReply env attempt) (S calls) naps'.
Proof.
  intros (e & Hsend & Hretry) Hwait. cbn [retry_loop].
  destruct (0 <? attempt)%nat eqn:Hpos.
  - apply Nat.ltb_lt in Hpos. rewrite (Hwait Hpos), Hsend, Hretry. simpl. eauto.
  - rewrite Hsend, Hretry. simpl. eauto.
Qed.

(** [k] such iterations in a row. *)
Lemma retry_loop_reach (k : nat) :
  forall r attempt backoff lastErr calls naps,
    (forall j, attempt <= j < attempt + k -> retryable_failure env j)%nat ->
    (forall j, attempt <= j < attempt + k -> 0 < j -> ctxDone env j = None)%nat ->
    exists backoff' naps',
      loop (k + r) attempt backoff lastErr calls naps =
      loop r (attempt + k) backoff' (held_error env lastErr attempt k) (calls + k) naps'.
Proof.
  induction k as [|k IH]; intros r attempt backoff lastErr calls naps Hfail Hwait.
  - exists backoff, naps. by rewrite !Nat.add_0_r.
  - destruct (retry_loop_retry (k + r) attempt backoff lastErr calls naps)
      as (b1 & n1 & Hstep).
    { apply Hfail. lia. }
    { intros Hpos. apply Hwait; lia. }
    destruct (IH r (S attempt) b1 (sendReply env attempt) (S calls) n1)
      as (b2 & n2 & Hrun).
    { intros j Hj. apply Hfail. lia. }
    { intros j Hj Hpos. apply Hwait; lia. }
    exists b2, n2.
    change (S k + r)%nat with (S (k + r)). rewrite Hstep, Hrun.
    replace (S attempt + k)%nat with (attempt + S k)%nat by lia.
    replace (S calls + k)%nat with (calls + S k)%nat by lia.
    f_equal. destruct k as [|k']; simpl.
    + by rewrite Nat.add_0_r.
    + f_equal. lia.
Qed.

(** C5. With [MaxRetries >= 0]:
    - [client.SendTransaction] is called at most [MaxRetries + 1] times;
    - when iteration [k] is reached (the sends before it failed with
      retryable errors, no wait was cancelled) and its send fails with an
      error classified non-retryable, the call returns that error wrapped
      as "non-retryable error: ..." right then, after [k + 1] sends;
    - when every send fails with a retryable error and no wait is
      cancelled, it returns the error of the last send wrapped as "max
      retries exceeded: ...", after [MaxRetries + 1] sends;
    - when the cancellation signal fires during the wait that precedes
      iteration [k], it returns [ctx.Err()] itself, with no further send. *)
Theorem SendTransactionWithRetry_outcomes :
  0 <= MaxRetries config ->
  (Z.of_nat (sendCalls (SendTransactionWithRetry indefinite env tx config))
   <= MaxRetries config + 1) /\
  (forall k err,
     Z.of_nat k <= MaxRetries config ->
     retried_until env k -> uninterrupted env k ->
     sendReply env k = Some err -> IsRetryableError (Some err) = false ->
     returned (SendTransactionWithRetry indefinite env tx config)
       = Err (fmt_Errorf "non-retryable error: " err "") /\
     sendCalls (SendTransactionWithRetry indefinite env tx config) = S k) /\
  (retried_until env (S (Z.to_nat (MaxRetries config))) ->
   uninterrupted env (Z.to_nat (MaxRetries config)) ->
   exists last,
     sendReply env (Z.to_nat (MaxRetries config)) = Some last /\
     returned (SendTransactionWithRetry indefinite env tx config)
       = Err (fmt_Errorf "max retries exceeded: " last "") /\
     Z.of_nat (sendCalls (SendTransactionWithRetry indefinite env tx config))
       = MaxRetries config + 1) /\
  (forall k ctxErr,
     (0 < k)%nat -> Z.of_nat k <= MaxRetries config ->
     retried_until env k -> uninterrupted env (k - 1) ->
     ctxDone env k = Some ctxErr ->
     returned (SendTransactionWithRetry indefinite env tx config) = Err ctxErr /\
     sendCalls (SendTransactionWithRetry indefinite env tx config) = k).
Proof.
  intros Hmax. unfold SendTransactionWithRetry.
  set (M := Z.to_nat (MaxRetries config)).
  assert (Htotal : Z.to_nat (MaxRetries config + 1) = S M) by (unfold M; lia).
  rewrite Htotal. split; [|split; [|split]].
  - pose proof (retry_loop_calls (S M) 0%nat (InitialBackoff config) None 0%nat []).
    unfold M in *. lia.
  - intros k err Hk Hfail Hwait Hsend Hclass.
    replace (S M) with (k + S (M - k))%nat by (unfold M; lia).
    destruct (retry_loop_reach k (S (M - k)) 0%nat (InitialBackoff config) None 0%nat [])
      as (b & naps & ->).
    { intros j Hj. apply Hfail. lia. }
    { intros j Hj Hpos. apply Hwait. lia. }
    cbn [retry_loop Nat.add].
    destruct (0 <? k)%nat eqn:Hpos.
    + apply Nat.ltb_lt in Hpos. rewrite (Hwait k) by lia.
      rewrite Hsend, Hclass. simpl. done.
    + rewrite Hsend, Hclass. simpl. done.
  - intros Hfail Hwait.
    destruct (Hfail M) as (last & Hlast & _); [lia|].
    exists last. split; [exact Hlast|].
    replace (S M) with (S M + 0)%nat by lia.
    destruct (retry_loop_reach (S M) 0%nat 0%nat (InitialBackoff config) None 0%nat [])
      as (b & naps & ->).
    { intros j Hj. apply Hfail. lia. }
    { intros j Hj Hpos. apply Hwait. lia. }
    cbn [retry_loop held_error Nat.add]. rewrite Hlast. simpl.
    split; [done|]. unfold M. lia.
  - intros k ctxErr Hpos Hk Hfail Hwait Hdone.
    replace (S M) with (k + S (M - k))%nat by (unfold M; lia).
    destruct (retry_loop_reach k (S (M - k)) 0%nat (InitialBackoff config) None 0%nat [])
      as (b & naps & ->).
    { intros j Hj. apply Hfail. lia. }
    { intros j Hj Hjpos. apply Hwait. lia. }
    cbn [retry_loop Nat.add].
    apply Nat.ltb_lt in Hpos. rewrite Hpos, Hdone. simpl. done.
Qed.

End Retrier.

(** The cases of [TestIsRetryableError]. *)
Example IsRetryableError_cases :
  IsRetryableError None = false /\
  IsRetryableError (Some (errors_New "nonce too low")) = true /\
  IsRetryableError (Some (errors_New "replacement transaction underpriced")) = true /\
  IsRetryableError (Some (errors_New "already known")) = true /\
  IsRetryableError (Some (errors_New "timeout occurred")) = true /\
  IsRetryableError (Some (errors_New "connection refused")) = true /\
  IsRetryableError (Some (errors_New "Connection Reset by peer")) = true /\
  IsRetryableError (Some (errors_New "insufficient funds")) = false.
Proof. vm_compute. repeat split. Qed.

Lemma SendTransactionWithRetry_outcomes_witness :
  returned
    (SendTransactionWithRetry (fun _ => - 2 ^ 63)
       {| sendReply := fun k =>
            if (k <? 2)%nat then Some (errors_New "read tcp: connection reset by peer")
            else Some (errors_New "insufficient funds for gas * price + value");
          ctxDone := fun _ => None |}
       {| Hash := 7 |} DefaultRetryConfig)
    = Err (fmt_Errorf "non-retryable error: "
             (errors_New "insufficient funds for gas * price + value") "") /\
  sendCalls
    (SendTransactionWithRetry (fun _ => - 2 ^ 63)
       {| sendReply := fun k =>
            if (k <? 2)%nat then Some (errors_New "read tcp: connection reset by peer")
            else Some (errors_New "insufficient funds for gas * price + value");
          ctxDone := fun _ => None |}
       {| Hash := 7 |} DefaultRetryConfig) = 3%nat.
Proof.
  refine (proj1 (proj2 (SendTransactionWithRetry_outcomes (fun _ => - 2 ^ 63)
    {| sendReply := fun k =>
         if (k <? 2)%nat then Some (errors_New "read tcp: connection reset by peer")
         else Some (errors_New "insufficient funds for gas * price + value");
       ctxDone := fun _ => None |}
    {| Hash := 7 |} DefaultRetryConfig _)) 2%nat _ _ _ _ _ _).
  - vm_compute. discriminate.
  - vm_compute. discriminate.
  - intros [|[|j]] Hj.
    + eexists. split; [reflexivity|]. vm_compute. reflexivity.
    + eexists. split; [reflexivity|]. vm_compute. reflexivity.
    + lia.
  - intros j Hj. reflexivity.
  - reflexivity.
  - vm_compute. reflexivity.
Defined.


Section Backoff.

Variable indefinite : float -> Z.
Variable math_Pow : float -> float -> float.

Lemma secureRandomInt64n_range (n : Z) (entropy : option (list Z)) :
  0 <= secureRandomInt64n n entropy /\
  (0 < n -> secureRandomInt64n n entropy < n) /\
  (n <= 0 -> secureRandomInt64n n entropy = 0).
Proof.
  unfold secureRandomInt64n. destruct (n <=? 0) eqn:Hn.
  - apply Z.leb_le in Hn. split; [lia|]. split; [lia|done].
  - apply Z.leb_gt in Hn. destruct entropy as [buf|].
    + pose proof (Z.mod_pos_bound (BigEndian_Uint64 buf) n Hn). lia.
    + lia.
Qed.

Lemma capped_backoff_min (attempt initialBackoff maxBackoff : Z) (multiplier : float) :
  capped_backoff indefinite math_Pow attempt initialBackoff maxBackoff multiplier =
  Z.min (scaled_backoff indefinite math_Pow attempt initialBackoff multiplier) maxBackoff.
Proof.
  unfold capped_backoff. rewrite Z.gtb_ltb.
  destruct (_ <? _) eqn:E; [apply Z.ltb_lt in E|apply Z.ltb_ge in E]; lia.
Qed.

(** For a non-negative capped value the result is its half plus a jitter
    between zero and that half. *)
Lemma CalculateBackoff_half_plus_jitter (attempt initialBackoff maxBackoff : Z)
    (multiplier : float) (entropy : option (list Z)) :
  0 <= capped_backoff indefinite math_Pow attempt initialBackoff maxBackoff multiplier ->
  exists jitter,
    CalculateBackoff indefinite math_Pow attempt initialBackoff maxBackoff multiplier entropy
      = capped_backoff indefinite math_Pow attempt initialBackoff maxBackoff multiplier / 2
        + jitter /\
    0 <= jitter
      <= capped_backoff indefinite math_Pow attempt initialBackoff maxBackoff multiplier / 2.
Proof.
  intros Hbase. unfold CalculateBackoff.
  set (base := capped_backoff indefinite math_Pow attempt initialBackoff maxBackoff multiplier)
    in *.
  rewrite Z.quot_div_nonneg by lia.
  assert (Hhalf : 0 <= base / 2) by (apply Z.div_pos; lia).
  exists (secureRandomInt64n (base / 2 + 1) entropy). split; [done|].
  destruct (secureRandomInt64n_range (base / 2 + 1) entropy) as (H0 & Hlt & _).
  specialize (Hlt ltac:(lia)). lia.
Qed.





End Backoff.



End RetryFacts.

(** ** The manager: validation and the nonce lifecycle *)

Module ManagerFacts.

Import Nonce Manager.

Lemma GetNonce_pending (nm nm1 : NonceManager) (net : Result Z) (n : Z) :
  GetNonce nm net = (nm1, Ok n) -> pendingTxs nm1 !! n = Some true.
Proof.
  intros H. destruct (decide (reclaimable nm = [])) as [Hpool|Hpool].
  - rewrite (NonceFacts.GetNonce_counter _ _ Hpool) in H. unfold mint in H.
    destruct (nonce nm) as [c|]; [|destruct net as [fetched|e]; [|discriminate]];
      injection H as <- <-; simpl; apply lookup_insert_eq.
  - destruct (NonceFacts.GetNonce_pool _ net Hpool) as (k & rest & _ & H').
    rewrite H' in H. injection H as <- <-. simpl. apply lookup_insert_eq.
Qed.

Lemma GetNonce_leaves_pool (nm nm1 : NonceManager) (net : Result Z) (n : Z) :
  GetNonce nm net = (nm1, Ok n) -> NoDup (reclaimable nm) -> n ∉ reclaimable nm1.
Proof.
  intros H Hnd. destruct (decide (reclaimable nm = [])) as [Hpool|Hpool].
  - rewrite (NonceFacts.GetNonce_counter _ _ Hpool) in H. unfold mint in H.
    destruct (nonce nm) as [c|]; [|destruct net as [fetched|e]; [|discriminate]];
      injection H as <- <-; simpl; rewrite Hpool; apply not_elem_of_nil.
  - destruct (NonceFacts.GetNonce_pool _ net Hpool) as (k & rest & Hs & H').
    rewrite H' in H. injection H as <- <-. simpl.
    destruct (NonceFacts.sort_Slice_cons _ _ _ Hs) as (_ & _ & HP).
    rewrite <- HP in Hnd. by apply NoDup_cons in Hnd as [? _].
Qed.

(** How the common tail of the operations returns. *)
Lemma await_receipt_returns {A : Type} (env : OpEnv) (nm : NonceManager)
    (events : list Event) (n : Z) (fail : error -> A)
    (finish : Receipt.Receipt -> A) (x : Exit A) :
  await_receipt env nm events n fail finish = Some x ->
  (exists receipt err,
     trace x = events ++ [EWaitForReceipt (Receipt.Return receipt (Some err))] /\
     after x = nm) \/
  (exists receipt,
     trace x = (events ++ [EWaitForReceipt (Receipt.Return (Some receipt) None)])
               ++ [EMarkConfirmed n; EExtract] /\
     after x = MarkConfirmed nm n).
Proof.
  unfold await_receipt, deferred_return.
  destruct (Receipt.WaitForReceipt receipt_timeout (polls env))
    as [st|[receipt|] [err|]]; simpl; intros H; try discriminate;
    injection H as <-; simpl; eauto.
Qed.

Lemma existsb_snoc {A : Type} (f : A -> bool) (l : list A) (a : A) :
  existsb f (l ++ [a]) = existsb f l || f a.
Proof. rewrite existsb_app. simpl. by rewrite orb_false_r. Qed.

Lemma count_MarkFailed_snoc (n : Z) (events : list Event) (e : Event) :
  count_MarkFailed n (events ++ [e]) =
    (count_MarkFailed n events + if is_MarkFailed n e then 1 else 0)%nat.
Proof.
  unfold count_MarkFailed. rewrite List.filter_app, length_app. simpl.
  by destruct (is_MarkFailed n e).
Qed.


(** A return before the transmission succeeded. *)
Lemma lifecycle_unsent {A : Type} (nm0 nm1 : NonceManager) (net : Result Z) (n : Z)
    (events : list Event) (ret : A) (x : Exit A) :
  GetNonce nm0 net = (nm1, Ok n) ->
  deferred_return nm1 events n false ret = Some x ->
  existsb is_sent events = false ->
  count_MarkFailed n events = 0%nat ->
  nonce_lifecycle nm0 net x.
Proof.
  intros HG Hret Hsent Hcount nm1' n' HG' _.
  rewrite HG in HG'. injection HG' as <- <-.
  unfold deferred_return in Hret. simpl in Hret. injection Hret as <-. simpl.
  split.
  - intros _. rewrite count_MarkFailed_snoc, Hcount. simpl.
    by rewrite bool_decide_eq_true_2.
  - rewrite existsb_snoc, Hsent. discriminate.
Qed.

(** A return after the transmission succeeded. *)
Lemma lifecycle_sent {A : Type} (env : OpEnv) (nm0 nm1 : NonceManager) (n : Z)
    (events : list Event) (fail : error -> A) (finish : Receipt.Receipt -> A)
    (x : Exit A) :
  GetNonce nm0 (pendingNonceAt env) = (nm1, Ok n) ->
  await_receipt env nm1 events n fail finish = Some x ->
  existsb is_sent events = true ->
  existsb is_any_MarkFailed events = false ->
  existsb is_wait_failure events = false ->
  nonce_lifecycle nm0 (pendingNonceAt env) x.
Proof.
  intros HG Hret Hsent Hnone Hwait nm1' n' HG' _.
  rewrite HG in HG'. injection HG' as <- <-.
  destruct (await_receipt_returns _ _ _ _ _ _ _ Hret)
    as [(receipt & err & Htr & Hafter)|(receipt & Htr & Hafter)]; rewrite Htr, Hafter.
  - split.
    + rewrite existsb_snoc, Hsent. discriminate.
    + intros _ _. rewrite existsb_snoc, Hnone. simpl. split; [done|]. split; [done|].
      split; [by eapply GetNonce_pending|]. intros Hnd. by eapply GetNonce_leaves_pool.
  - split.
    + rewrite !existsb_app, Hsent. discriminate.
    + intros _. rewrite !existsb_app, Hwait. discriminate.
Qed.

(** A return without a nonce. *)
Lemma lifecycle_unallocated {A : Type} (nm0 : NonceManager) (net : Result Z) (x : Exit A) :
  existsb is_allocation (trace x) = false -> nonce_lifecycle nm0 net x.
Proof. intros H nm1 n _ Halloc. rewrite H in Halloc. discriminate. Qed.

Section Operations.

Variable indefinite : float -> Z.
Variable m : Manager.
Variable env : OpEnv.

Ltac settle_unsent HG :=
  eapply lifecycle_unsent; [exact HG|eassumption|reflexivity|reflexivity].

Lemma CreateProofSet_lifecycle (extract : Receipt.Receipt -> option Z)
    (x : Exit (Result ProofSetResult)) :
  CreateProofSet indefinite m env extract = Some x ->
  nonce_lifecycle (nonceManager m) (pendingNonceAt env) x.
Proof.
  unfold CreateProofSet, newTransactor.
  destruct (GetNonce (nonceManager m) (pendingNonceAt env)) as [nm1 [n|e]] eqn:HG.
  - destruct (signerFunc env) as [serr|] eqn:Hsig.
    { intros H. settle_unsent HG. }
    destruct (estimate env) as [gas|eerr] eqn:Hest.
    2:{ intros H. settle_unsent HG. }
    destruct (send env _) as [txHash|serr] eqn:Hsend.
    2:{ intros H. settle_unsent HG. }
    intros H. eapply lifecycle_sent; [exact HG|exact H|reflexivity..].
  - intros H. injection H as <-. by apply lifecycle_unallocated.
Qed.

Lemma AddRoots_lifecycle (roots : nat) (getProofSet : Result Z)
    (extract : Receipt.Receipt -> option (list Z)) (x : Exit (Result AddRootsResult)) :
  AddRoots indefinite m env roots getProofSet extract = Some x ->
  nonce_lifecycle (nonceManager m) (pendingNonceAt env) x.
Proof.
  unfold AddRoots, newTransactor.
  destruct (roots =? 0)%nat.
  { intros H. injection H as <-. by apply lifecycle_unallocated. }
  destruct getProofSet as [listenerAddr|gerr].
  2:{ intros H. injection H as <-. by apply lifecycle_unallocated. }
  destruct (GetNonce (nonceManager m) (pendingNonceAt env)) as [nm1 [n|e]] eqn:HG.
  - destruct (signerFunc env) as [serr|] eqn:Hsig.
    { intros H. settle_unsent HG. }
    destruct (estimate env) as [gas|eerr] eqn:Hest.
    2:{ intros H. settle_unsent HG. }
    destruct (send env _) as [txHash|serr] eqn:Hsend.
    2:{ intros H. settle_unsent HG. }
    intros H. eapply lifecycle_sent; [exact HG|exact H|reflexivity..].
  - intros H. injection H as <-. by apply lifecycle_unallocated.
Qed.

Lemma DeleteProofSet_lifecycle (x : Exit (option error)) :
  DeleteProofSet m env = Some x ->
  nonce_lifecycle (nonceManager m) (pendingNonceAt env) x.
Proof.
  unfold DeleteProofSet, newTransactor.
  destruct (GetNonce (nonceManager m) (pendingNonceAt env)) as [nm1 [n|e]] eqn:HG.
  - destruct (signerFunc env) as [serr|] eqn:Hsig.
    { intros H. settle_unsent HG. }
    destruct (send env None) as [txHash|serr] eqn:Hsend.
    2:{ intros H. settle_unsent HG. }
    intros H. eapply lifecycle_sent; [exact HG|exact H|reflexivity..].
  - intros H. injection H as <-. by apply lifecycle_unallocated.
Qed.

End Operations.







(** *** Validation of the gas buffer *)

Lemma out_of_range_test (percent : Z) :
  out_of_range percent -> (percent <? 0) || (percent >? 100) = true.
Proof.
  intros [H|H]; apply orb_true_iff; [left; by apply Z.ltb_lt|right].
  rewrite Z.gtb_ltb. by apply Z.ltb_lt.
Qed.

(** C9, as the code has it. [EstimateGasWithBuffer] with a buffer
    percentage outside [[0, 100]] returns the validation error and makes
    no RPC call. [NewManagerWithConfig] with a configured
    [GasBufferPercent] outside [[0, 100]] never returns a manager; it
    first checks the signer and the network and queries the chain ID (its
    only RPC call), and returns the gas-buffer validation error when that
    query answered the chain ID the network expects. (The retry and
    receipt-wait options are not validated anywhere.) *)
Theorem gas_buffer_validation :
  (forall percent estimate,
     out_of_range percent ->
     Gas.EstimateGasWithBuffer percent estimate =
       (Err (errors_New "buffer percent must be between 0 and 100"), [])) /\
  (forall default env network cfg,
     out_of_range (GasBufferPercent cfg) ->
     (forall manager calls,
        NewManagerWithConfig default env network (Some cfg) <> (Ok manager, calls)) /\
     (snd (NewManagerWithConfig default env network (Some cfg)) = [] \/
      snd (NewManagerWithConfig default env network (Some cfg)) = [Gas.RPC_ChainID]) /\
     (forall signerAddress expected chainID,
        signer env = Some signerAddress ->
        ExpectedChainID network = Some expected ->
        chainIDReply env = Ok chainID ->
        big_Int64 chainID = expected ->
        NewManagerWithConfig default env network (Some cfg) =
          (Err (gas_buffer_error (GasBufferPercent cfg)), [Gas.RPC_ChainID]))).
Proof.
  split.
  - intros percent estimate Hout. unfold Gas.EstimateGasWithBuffer.
    by rewrite (out_of_range_test _ Hout).
  - intros default env network cfg Hout.
    pose proof (out_of_range_test _ Hout) as Htest.
    unfold NewManagerWithConfig. split; [|split].
    + intros manager calls.
      destruct (signer env); [|discriminate].
      destruct (ExpectedChainID network); [|discriminate].
      destruct (chainIDReply env); [|discriminate].
      destruct (negb _); [discriminate|].
      rewrite Htest. discriminate.
    + destruct (signer env); [|by left].
      destruct (ExpectedChainID network); [|by left].
      destruct (chainIDReply env); [|by right].
      destruct (negb _); [by right|].
      rewrite Htest. by right.
    + intros signerAddress expected chainID -> -> -> <-.
      rewrite Z.eqb_refl. simpl negb. cbv iota. by rewrite Htest.
Qed.

Lemma gas_buffer_validation_witness :
  NewManagerWithConfig {| GasBufferPercent := 10; ContractAddress := 0 |}
    {| signer := Some 1; chainIDReply := Ok 314; bindReply := None |}
    NetworkMainnet (Some {| GasBufferPercent := 150; ContractAddress := 0 |})
  = (Err (gas_buffer_error 150), [Gas.RPC_ChainID]).
Proof.
  refine (proj2 (proj2 (proj2 gas_buffer_validation
    {| GasBufferPercent := 10; ContractAddress := 0 |}
    {| signer := Some 1; chainIDReply := Ok 314; bindReply := None |}
    NetworkMainnet {| GasBufferPercent := 150; ContractAddress := 0 |} _))
    1 314 314 _ _ _ _).
  - right. simpl. lia.
  - reflexivity.
  - vm_compute. reflexivity.
  - reflexivity.
  - vm_compute. reflexivity.
Defined.

(** C9, as it is stated, fails on the constructor: with a gas buffer of
    150 percent and an RPC node that cannot be reached, the constructor has
    already made its chain-ID query, and what it returns is the error of
    that query, not a validation error. Nor is a retry or wait option
    outside its range rejected: a negative [MaxConsecutiveErrors] is used
    as it is. *)
Lemma validation_after_network_call :
  NewManagerWithConfig {| GasBufferPercent := 10; ContractAddress := 0 |}
    {| signer := Some 1;
       chainIDReply := Err (errors_New "dial tcp: lookup invalid: no such host");
       bindReply := None |}
    NetworkCalibration (Some {| GasBufferPercent := 150; ContractAddress := 0 |})
  = (Err (fmt_Errorf "failed to get chain ID: "
            (errors_New "dial tcp: lookup invalid: no such host") ""),
     [Gas.RPC_ChainID]) /\
  Receipt.WaitForReceiptWithConfig
    {| Receipt.Timeout := 1; Receipt.PollInterval := 1;
       Receipt.MaxConsecutiveErrors := -1 |}
    [Receipt.Tick (Err (Sentinel ethereum_NotFound))]
  = Receipt.Continue
      {| Receipt.consecutiveErrors := 0; Receipt.pollCount := 1;
         Receipt.lastErr := None |}.
Proof. split; vm_compute; reflexivity. Qed.

End ManagerFacts.

(** ** The nonce manager: errors, reset, counting and order *)

Module NonceMore.

Import Nonce NonceFacts.

(** X1. [GetNonce] fails in one situation only: the pool is empty, the
    counter was never fetched and the pending-nonce query fails. It then
    leaves the manager as it was and returns the cause wrapped in "failed
    to get pending nonce: ". *)
Theorem GetNonce_fails_only_on_first_fetch (nm : NonceManager) (net : Result Z) :
  ((exists e, (GetNonce nm net).2 = Err e) <->
   reclaimable nm = [] /\ nonce nm = None /\ exists cause, net = Err cause) /\
  (forall e, (GetNonce nm net).2 = Err e ->
     (GetNonce nm net).1 = nm /\
     exists cause,
       net = Err cause /\ e = fmt_Errorf "failed to get pending nonce: " cause "" /\
       errors_Unwrap e = Some cause).
Proof.
  unfold GetNonce, mint.
  destruct (reclaimable nm) as [|r pool] eqn:Hpool; simpl.
  - destruct (nonce nm) as [c|] eqn:Hc; [|destruct net as [fetched|cause]]; simpl.
    + split; [split|]; [intros [e He]; discriminate | intros (_ & ? & _); discriminate
                       | intros e He; discriminate].
    + split; [split|]; [intros [e He]; discriminate
                       | intros (_ & _ & cause & Hn); discriminate
                       | intros e He; discriminate].
    + split; [split|].
      * intros _. repeat split. by exists cause.
      * intros _. by eexists.
      * intros e [= <-]. split; [done|]. by exists cause.
  - split; [split|]; [intros [e He]; discriminate | intros (? & _); discriminate
                     | intros e He; discriminate].
Qed.

(** X2. A successful [Reset] forgets every in-flight and every reclaimable
    nonce, and the next [GetNonce] hands out the fetched value without
    asking the network again. From then on the manager answers like a
    fresh one whose first query is answered with that value, whatever it
    held before. *)
Theorem Reset_then_GetNonce (nm : NonceManager) (fetched : Z) :
  (Reset nm (Ok fetched)).2 = None /\
  GetPendingCount (Reset nm (Ok fetched)).1 = 0%nat /\
  reclaimable (Reset nm (Ok fetched)).1 = [] /\
  (forall net,
     GetNonce (Reset nm (Ok fetched)).1 net =
       ({| nonce := Some (uint64_incr fetched);
           pendingTxs := {[ fetched := true ]};
           reclaimable := [] |}, Ok fetched)) /\
  (forall net cs,
     outputs (Reset nm (Ok fetched)).1 (CallGetNonce net :: cs)
     = outputs NewNonceManager (CallGetNonce (Ok fetched) :: cs)).
Proof.
  split; [done|]. split; [done|]. split; [done|]. split.
  - intros net. unfold GetNonce, mint. simpl. by rewrite insert_empty.
  - intros net cs. cbn [outputs]. unfold GetNonce, mint. simpl. done.
Qed.

(** X3. In a session that follows the documented discipline,
    [GetPendingCount] is the number of nonces the client holds. *)
Theorem GetPendingCount_counts_live (cs : list Call) :
  disciplined new_session cs = true ->
  Z.of_nat (allocations cs) <= uint64_modulus ->
  GetPendingCount (manager (calls new_session cs)) = length (live (calls new_session cs)).
Proof.
  intros Hd Hn.
  destruct (calls_coherent cs 0 0 new_session) as (start & minted & H & _);
    [apply new_session_coherent; by vm_compute | done | lia |].
  unfold GetPendingCount.
  rewrite <- (size_dom (D := gset Z)).
  rewrite <- (size_list_to_set (C := gset Z) (live (calls new_session cs))).
  - f_equal. apply set_eq. intros v.
    rewrite elem_of_dom, elem_of_list_to_set. symmetry. apply (coh_pending _ _ _ H).
  - by destruct (proj1 (NoDup_app _ _) (coh_nodup _ _ _ H)) as [? _].
Qed.

Lemma GetPendingCount_counts_live_witness :
  GetPendingCount (manager (calls new_session
    [CallGetNonce (Ok 10); CallGetNonce (Ok 0); CallGetNonce (Ok 0);
     CallMarkFailed 11; CallMarkConfirmed 10; CallGetNonce (Ok 0)]))
  = length (live (calls new_session
    [CallGetNonce (Ok 10); CallGetNonce (Ok 0); CallGetNonce (Ok 0);
     CallMarkFailed 11; CallMarkConfirmed 10; CallGetNonce (Ok 0)])).
Proof.
  apply GetPendingCount_counts_live; [by vm_compute | by vm_compute].
Defined.

(** X4. Failing a held nonce and asking again is a round trip: with an
    empty pool, [MarkFailed n] followed by [GetNonce] returns [n] and
    leaves the manager exactly as it was, whatever the network says. *)
Theorem MarkFailed_then_GetNonce (nm : NonceManager) (n : Z) (net : Result Z) :
  reclaimable nm = [] -> pendingTxs nm !! n = Some true ->
  GetNonce (MarkFailed nm n) net = (nm, Ok n).
Proof.
  intros Hpool Hpending. destruct nm as [c pending pool]; simpl in *. subst pool.
  unfold GetNonce, MarkFailed; simpl. f_equal. f_equal.
  rewrite insert_delete_eq. by apply insert_id.
Qed.

Lemma MarkFailed_then_GetNonce_witness :
  GetNonce
    (MarkFailed {| nonce := Some 13; pendingTxs := {[ 11 := true; 12 := true ]};
                   reclaimable := [] |} 12)
    (Err (Sentinel context_Canceled))
  = ({| nonce := Some 13; pendingTxs := {[ 11 := true; 12 := true ]};
        reclaimable := [] |}, Ok 12).
Proof.
  apply MarkFailed_then_GetNonce; [reflexivity | by vm_compute].
Defined.

Lemma count_up_shift (c : Z) (k : nat) :
  is_uint64 c ->
  Ok c :: map (fun i => Ok ((uint64_incr c + Z.of_nat i) mod uint64_modulus)) (seq 0 k)
  = map (fun i => Ok ((c + Z.of_nat i) mod uint64_modulus)) (seq 0 (S k)).
Proof.
  intros Hc. cbn [seq map]. f_equal.
  - f_equal. rewrite Z.add_0_r. symmetry. by apply Z.mod_small.
  - rewrite <- seq_shift, map_map. apply map_ext. intros i. f_equal.
    unfold uint64_incr. rewrite Zplus_mod_idemp_l. f_equal. lia.
Qed.

(** From a manager with an empty pool and a cached counter, calls other
    than [MarkFailed] hand out consecutive values. *)
Lemma outputs_count_up (cs : list Call) :
  forall (nm : NonceManager) (c : Z),
    reclaimable nm = [] -> nonce nm = Some c -> is_uint64 c ->
    (forall n, CallMarkFailed n ∉ cs) ->
    outputs nm cs
    = map (fun i => Ok ((c + Z.of_nat i) mod uint64_modulus)) (seq 0 (allocations cs)).
Proof.
  induction cs as [|[net|n|n] cs IH]; intros nm c Hpool Hc Hu Hnf; [done| | |].
  - cbn [outputs allocations]. rewrite GetNonce_counter, Hc by done. unfold mint.
    rewrite (IH _ (uint64_incr c)); simpl; try done.
    + by apply count_up_shift.
    + apply Z.mod_pos_bound. apply uint64_modulus_pos.
    + intros n Hin. apply (Hnf n). by apply list_elem_of_further.
  - exfalso. apply (Hnf n). apply list_elem_of_here.
  - cbn [outputs allocations]. apply IH; simpl; try done.
    intros k Hin. apply (Hnf k). by apply list_elem_of_further.
Qed.

(** X5. As long as no nonce is failed, a fresh manager hands out the
    fetched value and then its successors modulo [2^64], one per call,
    whether or not earlier ones were confirmed; the network is asked
    once, the answers given to later calls are not looked at. *)
Theorem nonces_count_up_without_failures (start : Z) (cs : list Call) :
  is_uint64 start ->
  (forall n, CallMarkFailed n ∉ cs) ->
  outputs NewNonceManager (CallGetNonce (Ok start) :: cs)
  = map (fun i => Ok ((start + Z.of_nat i) mod uint64_modulus))
      (seq 0 (S (allocations cs))).
Proof.
  intros Hs Hnf. cbn [outputs]. unfold GetNonce, mint; simpl.
  rewrite (outputs_count_up cs _ (uint64_incr start)); simpl; try done.
  - by apply count_up_shift.
  - apply Z.mod_pos_bound. apply uint64_modulus_pos.
Qed.

Lemma nonces_count_up_without_failures_witness :
  outputs NewNonceManager
    (CallGetNonce (Ok (2 ^ 64 - 1)) ::
     [CallGetNonce (Err (Sentinel context_Canceled)); CallMarkConfirmed 0;
      CallGetNonce (Ok 7)])
  = [Ok (2 ^ 64 - 1); Ok 0; Ok 1].
Proof.
  apply (nonces_count_up_without_failures (2 ^ 64 - 1)
           [CallGetNonce (Err (Sentinel context_Canceled)); CallMarkConfirmed 0;
            CallGetNonce (Ok 7)]).
  - by vm_compute.
  - intros n Hin.
    repeat (apply elem_of_cons in Hin as [Hin|Hin]; [discriminate|]).
    by apply elem_of_nil in Hin.
Defined.

Lemma sort_Slice_sorted (l : list Z) : Sorted Z.le l -> sort_Slice l = l.
Proof.
  intros Hl. apply (Sorted_unique Z.le); [|done|apply sort_Slice_Permutation].
  apply Sorted_merge_sort; apply _.
Qed.

(** X6. While the pool lasts, [GetNonce] hands out its values in ascending
    order, however they were put in: [k] calls return the [k] smallest. *)
Theorem pool_drains_in_ascending_order (nets : list (Result Z)) :
  forall nm : NonceManager,
    (length nets <= length (reclaimable nm))%nat ->
    outputs nm (map CallGetNonce nets)
    = map Ok (take (length nets) (sort_Slice (reclaimable nm))).
Proof.
  induction nets as [|net nets IH]; intros nm Hlen; [done|].
  simpl in Hlen.
  destruct (GetNonce_pool nm net) as (n & rest & Hsort & HG).
  { intros Hnil. rewrite Hnil in Hlen. simpl in Hlen. lia. }
  cbn [map outputs length]. rewrite HG, Hsort. cbn [take map]. f_equal.
  pose proof (sort_Slice_Permutation (reclaimable nm)) as HP.
  rewrite Hsort in HP. apply Permutation_length in HP. simpl in HP.
  rewrite IH; simpl; [|lia].
  rewrite sort_Slice_sorted; [done|].
  assert (HS : Sorted Z.le (n :: rest)).
  { rewrite <- Hsort. apply Sorted_merge_sort; apply _. }
  by apply Sorted_inv in HS as [? _].
Qed.

Lemma pool_drains_in_ascending_order_witness :
  outputs {| nonce := Some 40; pendingTxs := ∅; reclaimable := [32; 30; 34] |}
    (map CallGetNonce [Ok 0; Err (Sentinel context_Canceled)])
  = [Ok 30; Ok 32].
Proof.
  apply (pool_drains_in_ascending_order [Ok 0; Err (Sentinel context_Canceled)]
           {| nonce := Some 40; pendingTxs := ∅; reclaimable := [32; 30; 34] |}).
  simpl. lia.
Defined.

(** [Reset] ends every retirement: it starts the counter anew at what the
    node reports. After [GetNonce] returned 10 and [MarkConfirmed(10)], a
    [Reset] for which the node reports 10 again makes [GetNonce] return 10
    once more, and a [MarkFailed(10)], by the caller who holds it, puts
    the confirmed 10 into the pool. *)
Example Reset_reopens_confirmed_nonce :
  (GetNonce NewNonceManager (Ok 10)).2 = Ok 10 /\
  (Reset (MarkConfirmed (GetNonce NewNonceManager (Ok 10)).1 10) (Ok 10)).2 = None /\
  (GetNonce
     (Reset (MarkConfirmed (GetNonce NewNonceManager (Ok 10)).1 10) (Ok 10)).1
     (Ok 0)).2 = Ok 10 /\
  reclaimable
    (MarkFailed
       (GetNonce
          (Reset (MarkConfirmed (GetNonce NewNonceManager (Ok 10)).1 10) (Ok 10)).1
          (Ok 0)).1 10) = [10].
Proof. vm_compute. repeat split. Qed.

End NonceMore.

(** ** The retrier: success, the sleep schedule, classification *)

Module RetryMore.

Import Retry RetryFacts.

Section Retrier.

Variable indefinite : float -> Z.
Variable env : SendEnv.
Variable tx : Transaction.
Variable config : RetryConfig.

Local Arguments IsRetryableError : simpl never.

Local Abbreviation loop := (retry_loop indefinite env tx config).

Lemma next_backoff_capped (backoff : Z) :
  next_backoff indefinite config backoff <= MaxBackoff config.
Proof.
  unfold next_backoff. rewrite Z.gtb_ltb.
  destruct (_ <? _) eqn:E; [lia|]. by apply Z.ltb_ge in E.
Qed.

(** What the loop keeps true of its sleeps: on entry to iteration
    [attempt] it has sent [attempt] times and slept [attempt - 1] times,
    the first time for [InitialBackoff], later for at most [MaxBackoff]. *)
Lemma retry_loop_schedule (remaining : nat) :
  forall attempt backoff lastErr calls naps,
    calls = attempt ->
    length naps = pred attempt ->
    ((attempt <= 1)%nat -> backoff = InitialBackoff config) ->
    ((1 < attempt)%nat -> backoff <= MaxBackoff config) ->
    (forall i d, naps !! i = Some d ->
       match i with O => d = InitialBackoff config | S _ => d <= MaxBackoff config end) ->
    length (slept (loop remaining attempt backoff lastErr calls naps))
      = pred (sendCalls (loop remaining attempt backoff lastErr calls naps)) /\
    (forall i d,
       slept (loop remaining attempt backoff lastErr calls naps) !! i = Some d ->
       match i with O => d = InitialBackoff config | S _ => d <= MaxBackoff config end).
Proof.
  induction remaining as [|r IH];
    intros attempt backoff lastErr calls naps Hcalls Hlen Hfirst Hlater Hnaps.
  - simpl. by subst calls.
  - cbn [retry_loop].
    assert (Hsnoc : (0 < attempt)%nat ->
      forall i d, (naps ++ [backoff]) !! i = Some d ->
        match i with O => d = InitialBackoff config | S _ => d <= MaxBackoff config end).
    { intros Hpos i d Hi. apply lookup_app_Some in Hi as [Hi|[Hge Hi]]; [by apply Hnaps|].
      apply list_lookup_singleton_Some in Hi as [Hi <-].
      destruct i as [|i].
      - apply Hfirst. lia.
      - apply Hlater. lia. }
    destruct (0 <? attempt)%nat eqn:Hpos.
    + apply Nat.ltb_lt in Hpos.
      destruct (ctxDone env attempt) as [ctxErr|]; simpl.
      { by subst calls. }
      destruct (sendReply env attempt) as [err|]; simpl.
      2:{ subst calls. rewrite length_app. simpl. split; [lia|by apply Hsnoc]. }
      destruct (IsRetryableError (Some err)); simpl.
      2:{ subst calls. rewrite length_app. simpl. split; [lia|by apply Hsnoc]. }
      apply IH.
      * by subst calls.
      * rewrite length_app. simpl. lia.
      * lia.
      * intros _. apply next_backoff_capped.
      * by apply Hsnoc.
    + apply Nat.ltb_ge in Hpos. assert (attempt = 0%nat) as -> by lia.
      destruct (sendReply env 0%nat) as [err|]; simpl.
      2:{ subst calls. split; [by rewrite Hlen|done]. }
      destruct (IsRetryableError (Some err)); simpl.
      2:{ subst calls. split; [by rewrite Hlen|done]. }
      apply IH; try done.
      * by subst calls.
      * intros _. apply Hfirst. lia.
      * lia.
Qed.

(** X7. When the sends of the iterations before [k] fail with retryable
    errors, no wait is cancelled and the send of iteration [k] succeeds,
    the call returns the hash of the transaction after [k + 1] sends and
    [k] sleeps. *)
Theorem SendTransactionWithRetry_succeeds (k : nat) :
  Z.of_nat k <= MaxRetries config ->
  retried_until env k -> uninterrupted env k ->
  sendReply env k = None ->
  returned (SendTransactionWithRetry indefinite env tx config) = Ok (Hash tx) /\
  sendCalls (SendTransactionWithRetry indefinite env tx config) = S k /\
  length (slept (SendTransactionWithRetry indefinite env tx config)) = k.
Proof.
  intros Hk Hfail Hwait Hsend.
  assert (Hrun :
    returned (SendTransactionWithRetry indefinite env tx config) = Ok (Hash tx) /\
    sendCalls (SendTransactionWithRetry indefinite env tx config) = S k).
  { unfold SendTransactionWithRetry.
    replace (Z.to_nat (MaxRetries config + 1))
      with (k + S (Z.to_nat (MaxRetries config) - k))%nat by lia.
    destruct (retry_loop_reach indefinite env tx config k
                (S (Z.to_nat (MaxRetries config) - k)) 0%nat (InitialBackoff config)
                None 0%nat [])
      as (b & naps & ->).
    { intros j Hj. apply Hfail. lia. }
    { intros j Hj Hpos. apply Hwait. lia. }
    cbn [retry_loop Nat.add].
    destruct (0 <? k)%nat eqn:Hpos.
    - apply Nat.ltb_lt in Hpos. rewrite (Hwait k) by lia. by rewrite Hsend.
    - by rewrite Hsend. }
  destruct Hrun as [Hret Hcalls]. split; [done|]. split; [done|].
  destruct (retry_loop_schedule (Z.to_nat (MaxRetries config + 1)) 0%nat
              (InitialBackoff config) None 0%nat []) as [Hlen _]; try done; try lia.
  unfold SendTransactionWithRetry in *. rewrite Hlen, Hcalls. done.
Qed.

(** X8. The sleeps of a call: one fewer than the sends (none when nothing
    was sent); the first lasts [InitialBackoff], also when that exceeds
    [MaxBackoff], and every later one lasts at most [MaxBackoff]. *)
Theorem retry_sleep_schedule :
  length (slept (SendTransactionWithRetry indefinite env tx config))
    = pred (sendCalls (SendTransactionWithRetry indefinite env tx config)) /\
  (forall i d,
     slept (SendTransactionWithRetry indefinite env tx config) !! i = Some d ->
     match i with O => d = InitialBackoff config | S _ => d <= MaxBackoff config end).
Proof.
  unfold SendTransactionWithRetry. apply retry_loop_schedule; try done; lia.
Qed.

(** X9. With a negative [MaxRetries] nothing is sent and nothing is slept:
    the call fails at once, with an error that wraps nothing. *)
Theorem negative_MaxRetries_sends_nothing :
  MaxRetries config < 0 ->
  SendTransactionWithRetry indefinite env tx config =
    {| returned := Err (errors_New "max retries exceeded: %!w(<nil>)");
       sendCalls := 0; slept := [] |}.
Proof.
  intros Hneg. unfold SendTransactionWithRetry.
  replace (Z.to_nat (MaxRetries config + 1)) with 0%nat by lia. reflexivity.
Qed.

End Retrier.

Lemma SendTransactionWithRetry_succeeds_witness :
  returned
    (SendTransactionWithRetry (fun _ => - 2 ^ 63)
       {| sendReply := fun k =>
            if (k <? 2)%nat then Some (errors_New "read tcp: connection reset by peer")
            else None;
          ctxDone := fun _ => None |}
       {| Hash := 7 |} DefaultRetryConfig) = Ok 7 /\
  sendCalls
    (SendTransactionWithRetry (fun _ => - 2 ^ 63)
       {| sendReply := fun k =>
            if (k <? 2)%nat then Some (errors_New "read tcp: connection reset by peer")
            else None;
          ctxDone := fun _ => None |}
       {| Hash := 7 |} DefaultRetryConfig) = 3%nat /\
  length (slept
    (SendTransactionWithRetry (fun _ => - 2 ^ 63)
       {| sendReply := fun k =>
            if (k <? 2)%nat then Some (errors_New "read tcp: connection reset by peer")
            else None;
          ctxDone := fun _ => None |}
       {| Hash := 7 |} DefaultRetryConfig)) = 2%nat.
Proof.
  refine (SendTransactionWithRetry_succeeds (fun _ => - 2 ^ 63)
    {| sendReply := fun k =>
         if (k <? 2)%nat then Some (errors_New "read tcp: connection reset by peer")
         else None;
       ctxDone := fun _ => None |}
    {| Hash := 7 |} DefaultRetryConfig 2%nat _ _ _ _).
  - vm_compute. discriminate.
  - intros [|[|j]] Hj.
    + eexists. split; [reflexivity|]. vm_compute. reflexivity.
    + eexists. split; [reflexivity|]. vm_compute. reflexivity.
    + lia.
  - intros j Hj. reflexivity.
  - reflexivity.
Defined.

Lemma negative_MaxRetries_sends_nothing_witness :
  SendTransactionWithRetry (fun _ => - 2 ^ 63)
    {| sendReply := fun _ => None; ctxDone := fun _ => None |}
    {| Hash := 7 |}
    {| MaxRetries := -1; InitialBackoff := second; MaxBackoff := 30 * second;
       BackoffMultiple := 2%float |}
  = {| returned := Err (errors_New "max retries exceeded: %!w(<nil>)");
       sendCalls := 0; slept := [] |}.
Proof.
  apply negative_MaxRetries_sends_nothing. simpl. lia.
Defined.

(** *** Classification by message *)

Lemma append_cons (a : ascii) (s t : string) :
  (String a s +:+ t)%string = String a (s +:+ t).
Proof. reflexivity. Qed.

Lemma append_nil_l (t : string) : ("" +:+ t)%string = t.
Proof. reflexivity. Qed.

Lemma ToLower_append (s t : string) : ToLower (s +:+ t) = (ToLower s +:+ ToLower t)%string.
Proof.
  induction s as [|a s IH]; [done|].
  rewrite append_cons. cbn [ToLower]. by rewrite append_cons, IH.
Qed.

Lemma prefix_append (sub s t : string) :
  String.prefix sub s = true -> String.prefix sub (s +:+ t) = true.
Proof.
  revert s. induction sub as [|a sub IH]; intros s.
  { intros _. by destruct (s +:+ t)%string. }
  destruct s as [|b s]; [discriminate|].
  rewrite append_cons. simpl. destruct (ascii_dec a b); [apply IH|done].
Qed.

Lemma Contains_unfold (s sub : string) :
  Contains s sub =
    String.prefix sub s || match s with EmptyString => false | String _ rest => Contains rest sub end.
Proof. by destruct s. Qed.

Lemma Contains_append_r (s t sub : string) :
  Contains s sub = true -> Contains (s +:+ t) sub = true.
Proof.
  induction s as [|a s IH]; rewrite (Contains_unfold _ sub); intros H;
    apply orb_true_iff in H as [H|H]; try discriminate.
  - rewrite (Contains_unfold _ sub), (prefix_append _ _ t H). done.
  - rewrite (Contains_unfold _ sub), (prefix_append _ _ t H). done.
  - rewrite append_cons, (Contains_unfold _ sub), (IH H). apply orb_true_r.
Qed.

Lemma Contains_append_l (s t sub : string) :
  Contains t sub = true -> Contains (s +:+ t) sub = true.
Proof.
  intros H. induction s as [|a s IH]; [done|].
  rewrite append_cons, (Contains_unfold _ sub), IH. apply orb_true_r.
Qed.

(** A message found in an error is found in every error that wraps it. *)
Lemma Contains_wrapped (e : error) (before after sub : string) :
  Contains (ToLower (Error e)) sub = true ->
  Contains (ToLower (Error (fmt_Errorf before e after))) sub = true.
Proof.
  intros H. cbn [Error]. rewrite !ToLower_append.
  apply Contains_append_l. by apply Contains_append_r.
Qed.

(** X10. On messages of ASCII bytes, where [strings.ToLower] works byte
    by byte, the three classifiers keep what they found under wrapping:
    an error that is retryable, a nonce error or a gas error stays one
    under [fmt.Errorf] with [%w] (ASCII text before and after) and under
    [WrapError] (for an ASCII operation name), which maps [nil] to [nil]
    and otherwise keeps the cause in the chain. *)
Theorem classification_survives_wrapping (e : error) :
  ascii_only (Error e) = true ->
  (forall before after,
     ascii_only before = true -> ascii_only after = true ->
     (IsRetryableError (Some e) = true ->
      IsRetryableError (Some (fmt_Errorf before e after)) = true) /\
     (IsNonceError (Some e) = true ->
      IsNonceError (Some (fmt_Errorf before e after)) = true) /\
     (IsGasError (Some e) = true ->
      IsGasError (Some (fmt_Errorf before e after)) = true)) /\
  (forall operation,
     ascii_only operation = true ->
     WrapError operation None = None /\
     WrapError operation (Some e) = Some (fmt_Errorf (operation +:+ ": ") e "") /\
     (IsRetryableError (Some e) = true ->
      IsRetryableError (WrapError operation (Some e)) = true) /\
     (IsNonceError (Some e) = true ->
      IsNonceError (WrapError operation (Some e)) = true) /\
     (IsGasError (Some e) = true ->
      IsGasError (WrapError operation (Some e)) = true)).
Proof.
  intros _.
  assert (Hwrap : forall before after,
     (IsRetryableError (Some e) = true ->
      IsRetryableError (Some (fmt_Errorf before e after)) = true) /\
     (IsNonceError (Some e) = true ->
      IsNonceError (Some (fmt_Errorf before e after)) = true) /\
     (IsGasError (Some e) = true ->
      IsGasError (Some (fmt_Errorf before e after)) = true)).
  { intros before after. split; [|split].
    - unfold IsRetryableError. rewrite !existsb_exists.
      intros (sub & Hin & H). exists sub. split; [done|]. by apply Contains_wrapped.
    - unfold IsNonceError. rewrite !orb_true_iff.
      intros [[H|H]|H]; [left; left|left; right|right]; by apply Contains_wrapped.
    - unfold IsGasError. rewrite !orb_true_iff.
      intros [H|H]; [left|right]; by apply Contains_wrapped. }
  split; [intros before after _ _; apply Hwrap|].
  intros operation _. split; [done|]. split; [done|]. apply Hwrap.
Qed.

Lemma classification_survives_wrapping_witness :
  IsRetryableError
    (WrapError "send createDataSet" (Some (errors_New "read tcp: Connection Reset by peer")))
  = true.
Proof.
  refine (proj1 (proj2 (proj2 (proj2
    (classification_survives_wrapping (errors_New "read tcp: Connection Reset by peer") _)
    "send createDataSet"%string _))) _).
  - vm_compute. reflexivity.
  - vm_compute. reflexivity.
  - vm_compute. reflexivity.
Defined.

Section Backoff.

Variable indefinite : float -> Z.
Variable math_Pow : float -> float -> float.

(** X11. Whatever the floating-point computation yields (an overflow
    included), [CalculateBackoff] never returns more than a non-negative
    [maxBackoff]. *)
Theorem CalculateBackoff_never_exceeds_cap (attempt initialBackoff maxBackoff : Z)
    (multiplier : float) (entropy : option (list Z)) :
  0 <= maxBackoff ->
  CalculateBackoff indefinite math_Pow attempt initialBackoff maxBackoff multiplier entropy
    <= maxBackoff.
Proof.
  intros Hmax.
  pose proof (capped_backoff_min indefinite math_Pow attempt initialBackoff maxBackoff
                multiplier) as Hcap.
  destruct (Z_le_gt_dec 0
              (capped_backoff indefinite math_Pow attempt initialBackoff maxBackoff
                 multiplier)) as [Hpos|Hneg].
  - destruct (CalculateBackoff_half_plus_jitter indefinite math_Pow attempt initialBackoff
                maxBackoff multiplier entropy Hpos) as (jitter & -> & Hj).
    set (base := capped_backoff indefinite math_Pow attempt initialBackoff maxBackoff
                   multiplier) in *.
    pose proof (Z.mul_div_le base 2 ltac:(lia)). lia.
  - unfold CalculateBackoff.
    set (base := capped_backoff indefinite math_Pow attempt initialBackoff maxBackoff
                   multiplier) in *.
    assert (Hq : Z.quot base 2 <= 0).
    { apply Z.quot_le_upper_bound; lia. }
    destruct (secureRandomInt64n_range (Z.quot base 2 + 1) entropy) as (H0 & Hlt & Hz).
    destruct (Z_le_gt_dec (Z.quot base 2 + 1) 0) as [Hn|Hn].
    + rewrite (Hz Hn). lia.
    + specialize (Hlt ltac:(lia)). lia.
Qed.

End Backoff.

Lemma CalculateBackoff_never_exceeds_cap_witness :
  CalculateBackoff (fun _ => - 2 ^ 63) Pow_whole 100 second (30 * second) 2
    (Some [222; 173; 190; 239; 1; 35; 69; 103])
  <= 30 * second.
Proof.
  apply CalculateBackoff_never_exceeds_cap. by vm_compute.
Defined.

End RetryMore.

(** ** The receipt waiter: what it returns *)

Module ReceiptMore.

Import Receipt ReceiptFacts.

(** While the loop goes on, [pollCount] counts the turns. *)
Lemma pollCount_counts_turns (maxErrors : Z) (evs : list PollEvent) :
  forall st0 st,
    poll_loop maxErrors st0 evs = Continue st ->
    - 2 ^ 63 <= pollCount st0 ->
    pollCount st0 + Z.of_nat (length evs) < 2 ^ 63 ->
    pollCount st = pollCount st0 + Z.of_nat (length evs).
Proof.
  induction evs as [|ev evs IH]; intros st0 st Hrun Hlo Hhi; simpl in Hrun.
  - injection Hrun as <-. simpl. lia.
  - destruct (poll maxErrors st0 ev) as [st1|r1 e1] eqn:Hp; [|discriminate].
    assert (Hcount : pollCount st1 = pollCount st0 + 1).
    { simpl in Hhi. destruct ev as [ctxErr|[r|e]]; simpl in Hp; [discriminate| |].
      - destruct (negb _); discriminate.
      - destruct (errors_Is e ethereum_NotFound);
          [|destruct (_ >=? _); [discriminate|]];
          injection Hp as <-; simpl; apply int_incr_small; lia. }
    rewrite (IH st1 st Hrun); simpl in *; lia.
Qed.

(** X12. What [WaitForReceiptWithConfig] returns is one of four things: a
    receipt of status 1 and no error; a receipt of another status with
    the error naming that status; no receipt and the timeout error, when
    [ctx.Done()] fired; no receipt and the RPC-failure error. It never
    returns neither, and the context's own error is only printed into the
    timeout error, not wrapped: [errors.Is(err, context.DeadlineExceeded)]
    is false. *)
Theorem WaitForReceiptWithConfig_outcomes (config : ReceiptWaitConfig)
    (evs : list PollEvent) (receipt : option Receipt) (err : option error) :
  WaitForReceiptWithConfig config evs = Return receipt err ->
  match receipt, err with
  | Some r, None => Status r = ReceiptStatusSuccessful
  | Some r, Some e =>
      Status r <> ReceiptStatusSuccessful /\ e = status_error (Status r)
  | None, Some e =>
      errors_Is e context_DeadlineExceeded = false /\
      errors_Is e context_Canceled = false /\
      ((errors_Is e ErrReceiptTimeout = true /\
        errors_Is e ErrReceiptRPCFailure = false /\
        exists ctxErr, Done ctxErr ∈ evs) \/
       (errors_Is e ErrReceiptTimeout = false /\
        errors_Is e ErrReceiptRPCFailure = true))
  | None, None => False
  end.
Proof.
  unfold WaitForReceiptWithConfig. intros Hrun.
  destruct (poll_loop_returned _ _ _ _ _ Hrun) as (before & ev & after & st' & -> & _ & Hp).
  destruct ev as [ctxErr|[r|e]]; simpl in Hp.
  - injection Hp as <- <-. repeat split. left. repeat split.
    exists ctxErr. apply elem_of_app. right. apply list_elem_of_here.
  - destruct (Status r =? ReceiptStatusSuccessful) eqn:Hs; simpl in Hp;
      injection Hp as <- <-.
    + by apply Z.eqb_eq in Hs.
    + by apply Z.eqb_neq in Hs.
  - destruct (errors_Is e ethereum_NotFound); [discriminate|].
    destruct (_ >=? _); [|discriminate].
    injection Hp as <- <-. repeat split. right. by split.
Qed.

Lemma WaitForReceiptWithConfig_outcomes_witness :
  Status {| Status := 0; BlockNumber := 120 |} <> ReceiptStatusSuccessful /\
  status_error 0 = status_error (Status {| Status := 0; BlockNumber := 120 |}).
Proof.
  exact (WaitForReceiptWithConfig_outcomes DefaultReceiptWaitConfig
    [Tick (Err (Sentinel ethereum_NotFound));
     Tick (Ok {| Status := 0; BlockNumber := 120 |})]
    (Some {| Status := 0; BlockNumber := 120 |}) (Some (status_error 0)) eq_refl).
Defined.

(** X13. When [ctx.Done()] fires while the loop is still waiting, the
    timeout error reports the number of polls made, which is the number
    of ticks so far. *)
Theorem timeout_reports_the_polls (config : ReceiptWaitConfig) (evs : list PollEvent)
    (st : Polling) (ctxErr : error) :
  Z.of_nat (length evs) < 2 ^ 63 ->
  WaitForReceiptWithConfig config evs = Continue st ->
  WaitForReceiptWithConfig config (evs ++ [Done ctxErr])
  = Return None (Some (timeout_error (Z.of_nat (length evs)) ctxErr)) /\
  Error (timeout_error (Z.of_nat (length evs)) ctxErr)
  = ("timeout waiting for transaction receipt after " +:+ pretty (Z.of_nat (length evs))
     +:+ " polls: " +:+ Error ctxErr)%string.
Proof.
  unfold WaitForReceiptWithConfig. intros Hlen Hrun. split; [|reflexivity].
  rewrite poll_loop_snoc, Hrun. simpl.
  rewrite (pollCount_counts_turns _ _ _ _ Hrun); simpl; [done|lia|lia].
Qed.

Lemma timeout_reports_the_polls_witness :
  WaitForReceiptWithConfig DefaultReceiptWaitConfig
    ([Tick (Err (Sentinel ethereum_NotFound));
      Tick (Err (errors_New "bad gateway"));
      Tick (Err (Sentinel ethereum_NotFound))]
     ++ [Done (Sentinel context_DeadlineExceeded)])
  = Return None (Some (timeout_error 3 (Sentinel context_DeadlineExceeded))).
Proof.
  refine (proj1 (timeout_reports_the_polls DefaultReceiptWaitConfig
    [Tick (Err (Sentinel ethereum_NotFound));
     Tick (Err (errors_New "bad gateway"));
     Tick (Err (Sentinel ethereum_NotFound))]
    {| consecutiveErrors := 0; pollCount := 3;
       lastErr := Some (errors_New "bad gateway") |}
    (Sentinel context_DeadlineExceeded) _ _)).
  - by vm_compute.
  - vm_compute. reflexivity.
Defined.

End ReceiptMore.

(** ** The confirmation waiter and the send-and-wait composition *)

Module ConfirmFacts.

Import Receipt Confirm.

Lemma confirm_loop_app (confirmations : Z) (st : Polling) (l1 l2 : list Turn) :
  confirm_loop confirmations st (l1 ++ l2) =
    match confirm_loop confirmations st l1 with
    | Continue st' => confirm_loop confirmations st' l2
    | Return receipt err => Return receipt err
    end.
Proof.
  revert st. induction l1 as [|t l1 IH]; intros st; simpl; [done|].
  destruct (confirm_turn confirmations st t); [apply IH|done].
Qed.

Lemma confirm_loop_returned (confirmations : Z) (turns : list Turn) :
  forall st receipt err,
    confirm_loop confirmations st turns = Return receipt err ->
    exists before t after st',
      turns = before ++ t :: after /\
      confirm_loop confirmations st before = Continue st' /\
      confirm_turn confirmations st' t = Return receipt err.
Proof.
  induction turns as [|t turns IH]; intros st receipt err Hrun; simpl in Hrun;
    [discriminate|].
  destruct (confirm_turn confirmations st t) as [st1|r1 e1] eqn:Ht.
  - destruct (IH _ _ _ Hrun) as (before & t' & after & st' & -> & Hb & Ht').
    exists (t :: before), t', after, st'. simpl. by rewrite Ht.
  - injection Hrun as -> ->. by exists [], t, turns, st.
Qed.

(** One turn returns a receipt without an error exactly when it confirms
    that receipt. *)
Lemma confirm_turn_success (confirmations : Z) (st : Polling) (t : Turn)
    (receipt : Receipt) :
  confirm_turn confirmations st t = Return (Some receipt) None <->
  confirms confirmations receipt t.
Proof.
  unfold confirms. split.
  - destruct t as [ctxErr|[r|e] head]; simpl; [discriminate| |].
    + destruct (Status r =? ReceiptStatusSuccessful) eqn:Hs; simpl; [|discriminate].
      apply Z.eqb_eq in Hs.
      destruct (confirmations =? 0) eqn:Hc.
      * intros [= <-]. exists head. apply Z.eqb_eq in Hc. by auto.
      * destruct head as [currentBlock|e]; [|unfold count_error; simpl; discriminate].
        destruct (_ <=? currentBlock) eqn:Hd; [|discriminate].
        intros [= <-]. exists (Ok currentBlock). apply Z.leb_le in Hd.
        split; [done|]. split; [done|]. right. by exists currentBlock.
    + destruct (errors_Is e ethereum_NotFound); [discriminate|].
      unfold count_error. destruct (_ >=? 5); discriminate.
  - intros (head & -> & Hs & Hdeep). simpl.
    apply Z.eqb_eq in Hs. rewrite Hs. simpl.
    destruct (confirmations =? 0) eqn:Hc; [done|].
    destruct Hdeep as [->|(currentBlock & -> & Hd)]; [discriminate|].
    apply Z.leb_le in Hd. by rewrite Hd.
Qed.

(** What a turn can return. *)
Lemma confirm_turn_returns (confirmations : Z) (st : Polling) (t : Turn)
    (receipt : option Receipt) (err : option error) :
  confirm_turn confirmations st t = Return receipt err ->
  match receipt, err with
  | Some r, None => confirms confirmations r t
  | Some r, Some e =>
      Status r <> ReceiptStatusSuccessful /\ e = status_error (Status r)
  | None, Some e => True
  | None, None => False
  end.
Proof.
  intros Ht. destruct receipt as [r|], err as [e|]; try done.
  - destruct t as [ctxErr|[r'|e'] head]; simpl in Ht; [discriminate| |].
    + destruct (Status r' =? ReceiptStatusSuccessful) eqn:Hs; simpl in Ht.
      * destruct (confirmations =? 0); [discriminate|].
        destruct head as [currentBlock|e'']; [destruct (_ <=? _); discriminate|].
        unfold count_error in Ht. destruct (_ >=? 5); discriminate.
      * injection Ht as <- <-. by apply Z.eqb_neq in Hs.
    + destruct (errors_Is e' ethereum_NotFound); [discriminate|].
      unfold count_error in Ht. destruct (_ >=? 5); discriminate.
  - by apply confirm_turn_success in Ht.
  - destruct t as [ctxErr|[r'|e'] head]; simpl in Ht; [discriminate| |].
    + destruct (negb _); [discriminate|].
      destruct (confirmations =? 0); [discriminate|].
      destruct head as [currentBlock|e'']; [destruct (_ <=? _); discriminate|].
      unfold count_error in Ht. destruct (_ >=? 5); discriminate.
    + destruct (errors_Is e' ethereum_NotFound); [discriminate|].
      unfold count_error in Ht. destruct (_ >=? 5); discriminate.
Qed.

(** X14. [WaitForConfirmation] returns a receipt without an error exactly
    when, after turns that did not end the wait, a turn brings a receipt
    of status 1 that is deep enough: no confirmations are asked for, or
    [receipt.BlockNumber + confirmations], computed in [uint64], is at
    most the current block. *)
Theorem WaitForConfirmation_success (confirmations : Z) (turns : list Turn)
    (receipt : Receipt) :
  WaitForConfirmation confirmations turns = Return (Some receipt) None <->
  exists before t after st,
    turns = before ++ t :: after /\
    WaitForConfirmation confirmations before = Continue st /\
    confirms confirmations receipt t.
Proof.
  unfold WaitForConfirmation. split.
  - intros Hrun.
    destruct (confirm_loop_returned _ _ _ _ _ Hrun)
      as (before & t & after & st & -> & Hb & Ht).
    exists before, t, after, st. split; [done|]. split; [done|].
    by apply confirm_turn_success in Ht.
  - intros (before & t & after & st & -> & Hb & Ht).
    rewrite confirm_loop_app, Hb. simpl.
    by rewrite (proj2 (confirm_turn_success confirmations st t receipt) Ht).
Qed.

(** Turns in which the receipt is found and the block-number query fails
    leave the loop running, with the error counter at one. *)
Lemma head_failures_continue (confirmations : Z) (turns : list Turn) :
  confirmations <> 0 ->
  forall st0,
    0 <= consecutiveErrors st0 <= 1 ->
    forallb head_failure turns = true ->
    exists st,
      confirm_loop confirmations st0 turns = Continue st /\
      0 <= consecutiveErrors st <= 1.
Proof.
  intros Hc. apply Z.eqb_neq in Hc.
  induction turns as [|t turns IH]; intros st0 Hst0 Hall.
  - by exists st0.
  - cbn [forallb] in Hall. apply andb_true_iff in Hall as [Ht Hall].
    destruct t as [ctxErr|[r|e] [currentBlock|herr]]; cbn [head_failure] in Ht;
      try discriminate.
    cbn [confirm_loop confirm_turn]. rewrite Ht, Hc. cbn [negb].
    unfold count_error. cbn [consecutiveErrors].
    change (int_incr 0 >=? 5) with false. cbv iota.
    apply IH; [|done]. cbn [consecutiveErrors]. change (int_incr 0) with 1. lia.
Qed.

(** X15. An error of the block-number query never ends the wait: the
    error counter was reset just before, so it cannot reach the
    threshold there. However many turns find the (successful) receipt
    and fail to get the block number, the wait goes on. *)
Theorem block_number_errors_never_end_the_wait (confirmations : Z) (turns : list Turn) :
  confirmations <> 0 ->
  forallb head_failure turns = true ->
  exists st,
    WaitForConfirmation confirmations turns = Continue st /\
    0 <= consecutiveErrors st <= 1.
Proof.
  intros Hc Hall. unfold WaitForConfirmation.
  apply head_failures_continue; [done| |done]. simpl. lia.
Qed.

Lemma block_number_errors_never_end_the_wait_witness :
  exists st,
    WaitForConfirmation 3
      (repeat (Ticked (Ok {| Status := 1; BlockNumber := 120 |})
                 (Err (errors_New "bad gateway"))) 8)
    = Continue st /\
    0 <= consecutiveErrors st <= 1.
Proof.
  apply block_number_errors_never_end_the_wait; [discriminate|reflexivity].
Defined.

(** A successful send returns the hash of the transaction given. *)
Lemma retry_loop_hash (indefinite : float -> Z) (env : Retry.SendEnv)
    (tx : Retry.Transaction) (config : Retry.RetryConfig) (remaining : nat) :
  forall attempt backoff lastErr calls naps h,
    Retry.returned
      (Retry.retry_loop indefinite env tx config remaining attempt backoff lastErr calls naps)
      = Ok h ->
    h = Retry.Hash tx.
Proof.
  induction remaining as [|r IH]; intros attempt backoff lastErr calls naps h;
    [discriminate|].
  cbn [Retry.retry_loop].
  destruct (0 <? attempt)%nat; [destruct (Retry.ctxDone env attempt)|];
    try discriminate;
    (destruct (Retry.sendReply env attempt) as [err|]; [|by intros [= <-]];
     destruct (negb _); [discriminate|apply IH]).
Qed.

(** X16. [WaitForTransactionWithRetry] returns when the send failed or
    the confirmation wait returned. It returns a receipt only for a
    transaction that was sent and whose receipt of status 1 was confirmed
    in some turn. Every failure carries its cause under the prefix of its
    stage; when the transaction failed on chain, the receipt that
    [WaitForConfirmation] returned with the error is dropped. *)
Theorem WaitForTransactionWithRetry_outcomes (indefinite : float -> Z)
    (env : Retry.SendEnv) (tx : Retry.Transaction) (confirmations : Z)
    (config : Retry.RetryConfig) (turns : list Turn) :
  (WaitForTransactionWithRetry indefinite env tx confirmations config turns = None <->
   exists st,
     Retry.returned (Retry.SendTransactionWithRetry indefinite env tx config)
       = Ok (Retry.Hash tx) /\
     WaitForConfirmation confirmations turns = Continue st) /\
  (forall receipt,
     WaitForTransactionWithRetry indefinite env tx confirmations config turns
       = Some (Ok receipt) ->
     Retry.returned (Retry.SendTransactionWithRetry indefinite env tx config)
       = Ok (Retry.Hash tx) /\
     Status receipt = ReceiptStatusSuccessful /\
     exists before t after,
       turns = before ++ t :: after /\ confirms confirmations receipt t) /\
  (forall e,
     WaitForTransactionWithRetry indefinite env tx confirmations config turns
       = Some (Err e) ->
     (exists cause,
        Retry.returned (Retry.SendTransactionWithRetry indefinite env tx config)
          = Err cause /\
        e = fmt_Errorf "failed to send transaction: " cause "") \/
     (exists dropped cause,
        Retry.returned (Retry.SendTransactionWithRetry indefinite env tx config)
          = Ok (Retry.Hash tx) /\
        WaitForConfirmation confirmations turns = Return dropped (Some cause) /\
        e = fmt_Errorf "failed to wait for confirmation: " cause "" /\
        forall r, dropped = Some r ->
          Status r <> ReceiptStatusSuccessful /\ cause = status_error (Status r))).
Proof.
  unfold WaitForTransactionWithRetry.
  destruct (Retry.returned (Retry.SendTransactionWithRetry indefinite env tx config))
    as [h|cause] eqn:Hsend.
  2:{ split; [|split].
      - split; [discriminate|]. intros (st & Hh & _). discriminate.
      - discriminate.
      - intros e [= <-]. left. by exists cause. }
  assert (h = Retry.Hash tx) as ->.
  { unfold Retry.SendTransactionWithRetry in Hsend. by eapply retry_loop_hash. }
  destruct (WaitForConfirmation confirmations turns) as [st|receipt err] eqn:Hwait.
  { split; [|split]; [|discriminate..]. split; [|done]. intros _. by exists st. }
  unfold WaitForConfirmation in Hwait.
  destruct (confirm_loop_returned _ _ _ _ _ Hwait)
    as (before & t & after & st & -> & Hb & Ht).
  pose proof (confirm_turn_returns _ _ _ _ _ Ht) as Hcases.
  destruct receipt as [r|], err as [cause|]; try done.
  - split; [|split].
    + split; [discriminate|]. intros (st' & _ & Hc). discriminate.
    + discriminate.
    + intros e [= <-]. right. exists (Some r), cause.
      split; [done|]. split; [done|]. split; [done|]. by intros r' [= <-].
  - split; [|split].
    + split; [discriminate|]. intros (st' & _ & Hc). discriminate.
    + intros receipt [= <-]. split; [done|].
      split; [by destruct Hcases as (head & _ & Hs & _)|].
      by exists before, t, after.
    + discriminate.
  - split; [|split].
    + split; [discriminate|]. intros (st' & _ & Hc). discriminate.
    + discriminate.
    + intros e [= <-]. right. exists None, cause.
      split; [done|]. split; [done|]. split; [done|]. discriminate.
Qed.

End ConfirmFacts.

(** ** Gas estimation with a buffer *)

Module GasFacts.

Import Gas.

(** X17. For a buffer percentage in [[0, 100]] and an estimate below
    [2^63], [EstimateGasWithBuffer] makes one RPC call and returns the
    estimate plus that percentage of it, rounded down: at least the
    estimate and at most twice the estimate. A failed estimate comes back
    wrapped. *)
Theorem EstimateGasWithBuffer_in_range (bufferPercent gas : Z) :
  0 <= bufferPercent <= 100 -> 0 <= gas < 2 ^ 63 ->
  EstimateGasWithBuffer bufferPercent (Ok gas)
    = (Ok (gas + gas * bufferPercent / 100), [RPC_EstimateGas]) /\
  gas <= gas + gas * bufferPercent / 100 <= 2 * gas /\
  (forall err,
     EstimateGasWithBuffer bufferPercent (Err err)
       = (Err (fmt_Errorf "failed to estimate gas: " err ""), [RPC_EstimateGas])).
Proof.
  intros Hp Hg.
  assert (Hbuf : 0 <= gas * bufferPercent / 100 <= gas).
  { split; [apply Z.div_pos; nia|].
    apply Z.div_le_upper_bound; nia. }
  unfold EstimateGasWithBuffer.
  assert (Htest : (bufferPercent <? 0) || (bufferPercent >? 100) = false).
  { apply orb_false_iff. split; [apply Z.ltb_ge; lia|].
    rewrite Z.gtb_ltb. apply Z.ltb_ge. lia. }
  rewrite Htest. split; [|split; [lia|done]].
  rewrite Z.gtb_ltb. destruct (0 <? bufferPercent) eqn:Hpos.
  - unfold int64_of_uint64, big_Uint64.
    assert ((gas <? 2 ^ 63) = true) as -> by (apply Z.ltb_lt; lia).
    rewrite Z.abs_eq by lia.
    rewrite (Z.mod_small (gas * bufferPercent / 100)) by lia.
    rewrite Z.mod_small by lia. done.
  - apply Z.ltb_ge in Hpos. assert (bufferPercent = 0) as -> by lia.
    rewrite Z.mul_0_r. simpl. by rewrite Z.add_0_r.
Qed.

Lemma EstimateGasWithBuffer_in_range_witness :
  EstimateGasWithBuffer 15 (Ok 21001) = (Ok (21001 + 21001 * 15 / 100), [RPC_EstimateGas]).
Proof.
  refine (proj1 (EstimateGasWithBuffer_in_range 15 21001 _ _)); lia.
Defined.

End GasFacts.

(** ** The manager: construction, confirmation, reuse of a released nonce *)

Module ManagerMore.

Import Nonce Manager ManagerFacts.

(** X18. A manager that [NewManagerWithConfig] returns was built after
    exactly one RPC call, for a signer that is present, on a known network
    whose expected chain ID is the one the node reported; its gas buffer
    lies in [[0, 100]], its contract address is not the zero address (the
    configured one, or the network's default), and its nonce manager is
    fresh. *)
Theorem NewManagerWithConfig_returns_valid_manager (default : ManagerConfig)
    (env : NewManagerEnv) (network : string) (cfg : option ManagerConfig)
    (m : Manager) (calls : list Gas.RPC) :
  NewManagerWithConfig default env network cfg = (Ok m, calls) ->
  calls = [Gas.RPC_ChainID] /\
  signer env = Some (address m) /\
  chainIDReply env = Ok (chainID m) /\
  ExpectedChainID network = Some (big_Int64 (chainID m)) /\
  bindReply env = None /\
  config m = match cfg with Some c => c | None => default end /\
  0 <= GasBufferPercent (config m) <= 100 /\
  contractAddr m <> 0 /\
  contractAddr m =
    (if ContractAddress (config m) =? 0 then GetPDPVerifierAddress network
     else ContractAddress (config m)) /\
  nonceManager m = NewNonceManager.
Proof.
  unfold NewManagerWithConfig.
  destruct (signer env) as [signerAddress|]; [|discriminate].
  destruct (ExpectedChainID network) as [expected|]; [|discriminate].
  destruct (chainIDReply env) as [id|e]; [|discriminate].
  destruct (big_Int64 id =? expected) eqn:Hid; simpl; [|discriminate].
  apply Z.eqb_eq in Hid.
  set (c := match cfg with Some c => c | None => default end).
  destruct ((GasBufferPercent c <? 0) || (GasBufferPercent c >? 100)) eqn:Hbuf;
    [discriminate|].
  apply orb_false_iff in Hbuf as [Hlo Hhi].
  apply Z.ltb_ge in Hlo. rewrite Z.gtb_ltb in Hhi. apply Z.ltb_ge in Hhi.
  destruct ((if ContractAddress c =? 0 then GetPDPVerifierAddress network
             else ContractAddress c) =? 0) eqn:Haddr; [discriminate|].
  apply Z.eqb_neq in Haddr.
  destruct (bindReply env) as [e|]; [discriminate|].
  intros [= <- <-]. simpl. subst expected. repeat split; try done; lia.
Qed.

Lemma NewManagerWithConfig_returns_valid_manager_witness :
  [Gas.RPC_ChainID] = [Gas.RPC_ChainID] /\
  signer {| signer := Some 1; chainIDReply := Ok 314159; bindReply := None |}
    = Some (address {| address := 1; contractAddr := PDPVerifierCalibration;
                       chainID := 314159; nonceManager := NewNonceManager;
                       config := {| GasBufferPercent := 10; ContractAddress := 0 |} |}).
Proof.
  pose proof (NewManagerWithConfig_returns_valid_manager
    {| GasBufferPercent := 10; ContractAddress := 0 |}
    {| signer := Some 1; chainIDReply := Ok 314159; bindReply := None |}
    NetworkCalibration None
    {| address := 1; contractAddr := PDPVerifierCalibration;
       chainID := 314159; nonceManager := NewNonceManager;
       config := {| GasBufferPercent := 10; ContractAddress := 0 |} |}
    [Gas.RPC_ChainID] eq_refl) as (H1 & H2 & _).
  split; [exact H1|exact H2].
Defined.

(** *** Confirmation *)

Lemma count_MarkConfirmed_app (n : Z) (l1 l2 : list Event) :
  count_MarkConfirmed n (l1 ++ l2)
  = (count_MarkConfirmed n l1 + count_MarkConfirmed n l2)%nat.
Proof. unfold count_MarkConfirmed. by rewrite List.filter_app, length_app. Qed.

(** A return before the transmission succeeded. *)
Lemma confirmation_unsent {A : Type} (nm0 nm1 : NonceManager) (net : Result Z) (n : Z)
    (events : list Event) (ret : A) (x : Exit A) :
  deferred_return nm1 events n false ret = Some x ->
  existsb is_wait_success events = false ->
  existsb is_any_MarkConfirmed events = false ->
  nonce_confirmation nm0 net x.
Proof.
  unfold deferred_return. simpl. intros [= <-] Hwait Hconf.
  unfold nonce_confirmation. simpl. split.
  - rewrite existsb_snoc, Hwait. discriminate.
  - intros _. by rewrite existsb_snoc, Hconf.
Qed.

(** A return after the transmission succeeded. *)
Lemma confirmation_sent {A : Type} (env : OpEnv) (nm0 nm1 : NonceManager)
    (net : Result Z) (n : Z) (events : list Event) (fail : error -> A)
    (finish : Receipt.Receipt -> A) (x : Exit A) :
  GetNonce nm0 net = (nm1, Ok n) ->
  await_receipt env nm1 events n fail finish = Some x ->
  existsb is_wait_success events = false ->
  existsb is_any_MarkConfirmed events = false ->
  existsb is_any_MarkFailed events = false ->
  count_MarkConfirmed n events = 0%nat ->
  nonce_confirmation nm0 net x.
Proof.
  intros HG Hret Hwait Hconf Hfail Hcount.
  destruct (await_receipt_returns _ _ _ _ _ _ _ Hret)
    as [(receipt & err & Htr & Hafter)|(receipt & Htr & Hafter)];
    unfold nonce_confirmation; rewrite Htr, Hafter.
  - split.
    + rewrite existsb_snoc, Hwait. by destruct receipt.
    + intros _. by rewrite existsb_snoc, Hconf.
  - split.
    + intros _. exists nm1, n. split; [done|].
      rewrite !count_MarkConfirmed_app, Hcount. unfold count_MarkConfirmed. simpl.
      rewrite bool_decide_eq_true_2 by done. split; [done|].
      rewrite !existsb_app, Hfail. split; [done|]. split; [done|].
      simpl. apply lookup_delete_eq.
    + rewrite !existsb_app, Hwait. discriminate.
Qed.

(** A return without a receipt wait. *)
Lemma confirmation_early {A : Type} (nm0 : NonceManager) (net : Result Z) (x : Exit A) :
  existsb is_wait_success (trace x) = false ->
  existsb is_any_MarkConfirmed (trace x) = false ->
  nonce_confirmation nm0 net x.
Proof. intros Hwait Hconf. split; [rewrite Hwait; discriminate|done]. Qed.

(** X19. In each of the three nonce-consuming operations, the nonce is
    confirmed exactly when the receipt wait returned a receipt and no
    error: then [MarkConfirmed(n)] was called once, [MarkFailed] never,
    and [n] has left the in-flight map, also when the operation goes on
    to fail because the receipt lacks the expected event. On any other
    return [MarkConfirmed] was not called. *)
Theorem nonce_confirmed_on_receipt (indefinite : float -> Z) (m : Manager) (env : OpEnv) :
  (forall extract x,
     CreateProofSet indefinite m env extract = Some x ->
     nonce_confirmation (nonceManager m) (pendingNonceAt env) x) /\
  (forall roots getProofSet extract x,
     AddRoots indefinite m env roots getProofSet extract = Some x ->
     nonce_confirmation (nonceManager m) (pendingNonceAt env) x) /\
  (forall x,
     DeleteProofSet m env = Some x ->
     nonce_confirmation (nonceManager m) (pendingNonceAt env) x).
Proof.
  split; [|split].
  - intros extract x. unfold CreateProofSet, newTransactor.
    destruct (GetNonce (nonceManager m) (pendingNonceAt env)) as [nm1 [n|e]] eqn:HG.
    2:{ intros [= <-]. by apply confirmation_early. }
    destruct (signerFunc env) as [serr|].
    { intros H. by eapply confirmation_unsent. }
    destruct (estimate env) as [gas|eerr].
    2:{ intros H. by eapply confirmation_unsent. }
    destruct (send env _) as [txHash|serr].
    2:{ intros H. by eapply confirmation_unsent. }
    intros H. eapply confirmation_sent; [exact HG|exact H|reflexivity..].
  - intros roots getProofSet extract x. unfold AddRoots, newTransactor.
    destruct (roots =? 0)%nat.
    { intros [= <-]. by apply confirmation_early. }
    destruct getProofSet as [listenerAddr|gerr].
    2:{ intros [= <-]. by apply confirmation_early. }
    destruct (GetNonce (nonceManager m) (pendingNonceAt env)) as [nm1 [n|e]] eqn:HG.
    2:{ intros [= <-]. by apply confirmation_early. }
    destruct (signerFunc env) as [serr|].
    { intros H. by eapply confirmation_unsent. }
    destruct (estimate env) as [gas|eerr].
    2:{ intros H. by eapply confirmation_unsent. }
    destruct (send env _) as [txHash|serr].
    2:{ intros H. by eapply confirmation_unsent. }
    intros H. eapply confirmation_sent; [exact HG|exact H|reflexivity..].
  - intros x. unfold DeleteProofSet, newTransactor.
    destruct (GetNonce (nonceManager m) (pendingNonceAt env)) as [nm1 [n|e]] eqn:HG.
    2:{ intros [= <-]. by apply confirmation_early. }
    destruct (signerFunc env) as [serr|].
    { intros H. by eapply confirmation_unsent. }
    destruct (send env None) as [txHash|serr].
    2:{ intros H. by eapply confirmation_unsent. }
    intros H. eapply confirmation_sent; [exact HG|exact H|reflexivity..].
Qed.

(** *** Reuse of a released nonce *)

(** The nonce [GetNonce] handed out is the one it hands out next when it
    was failed meanwhile: it was the smallest reclaimable one, or the pool
    was empty. *)
Lemma GetNonce_after_MarkFailed (nm0 nm1 : NonceManager) (net net' : Result Z) (n : Z) :
  GetNonce nm0 net = (nm1, Ok n) ->
  (GetNonce (MarkFailed nm1 n) net').2 = Ok n.
Proof.
  intros HG.
  destruct (NonceFacts.GetNonce_pool (MarkFailed nm1 n) net') as (k & rest & Hs & ->).
  { simpl. by destruct (reclaimable nm1). }
  simpl. f_equal.
  destruct (NonceFacts.sort_Slice_cons _ _ _ Hs) as (Hin & Hmin & _).
  simpl in Hin, Hmin.
  assert (Hkn : k <= n).
  { apply Hmin. apply elem_of_app. right. apply list_elem_of_here. }
  apply elem_of_app in Hin as [Hin|Hin].
  2:{ by apply list_elem_of_singleton in Hin. }
  destruct (decide (reclaimable nm0 = [])) as [Hpool|Hpool].
  - rewrite (NonceFacts.GetNonce_counter _ _ Hpool) in HG. unfold mint in HG.
    destruct (nonce nm0) as [c|]; [|destruct net as [fetched|e]; [|discriminate]];
      injection HG as <- <-; simpl in Hin; rewrite Hpool in Hin;
      by apply elem_of_nil in Hin.
  - destruct (NonceFacts.GetNonce_pool _ net Hpool) as (k0 & rest0 & Hs0 & HG0).
    rewrite HG0 in HG. injection HG as <- <-. simpl in Hin.
    pose proof (NonceFacts.sort_Slice_Sorted (reclaimable nm0)) as HS.
    rewrite Hs0 in HS. apply StronglySorted_inv in HS as [_ Hall].
    rewrite Forall_forall in Hall. specialize (Hall k Hin). lia.
Qed.

(** X20. An operation that got a nonce and returned before the
    transmission succeeded leaves the manager so that the next [GetNonce]
    hands out that same nonce again, without asking the network: no nonce
    is skipped by a local failure. *)
Theorem failed_operation_nonce_is_reused (indefinite : float -> Z) (m : Manager)
    (env : OpEnv) (nm1 : NonceManager) (n : Z) (net' : Result Z) :
  GetNonce (nonceManager m) (pendingNonceAt env) = (nm1, Ok n) ->
  (forall extract x,
     CreateProofSet indefinite m env extract = Some x ->
     existsb is_allocation (trace x) = true ->
     existsb is_sent (trace x) = false ->
     (GetNonce (after x) net').2 = Ok n) /\
  (forall roots getProofSet extract x,
     AddRoots indefinite m env roots getProofSet extract = Some x ->
     existsb is_allocation (trace x) = true ->
     existsb is_sent (trace x) = false ->
     (GetNonce (after x) net').2 = Ok n) /\
  (forall x,
     DeleteProofSet m env = Some x ->
     existsb is_allocation (trace x) = true ->
     existsb is_sent (trace x) = false ->
     (GetNonce (after x) net').2 = Ok n).
Proof.
  intros HG. split; [|split].
  - intros extract x Hop Halloc Hunsent.
    destruct (CreateProofSet_lifecycle indefinite m env extract x Hop nm1 n HG Halloc)
      as [Hfail _].
    destruct (Hfail Hunsent) as [_ ->]. by eapply GetNonce_after_MarkFailed.
  - intros roots getProofSet extract x Hop Halloc Hunsent.
    destruct (AddRoots_lifecycle indefinite m env roots getProofSet extract x Hop
                nm1 n HG Halloc) as [Hfail _].
    destruct (Hfail Hunsent) as [_ ->]. by eapply GetNonce_after_MarkFailed.
  - intros x Hop Halloc Hunsent.
    destruct (DeleteProofSet_lifecycle m env x Hop nm1 n HG Halloc) as [Hfail _].
    destruct (Hfail Hunsent) as [_ ->]. by eapply GetNonce_after_MarkFailed.
Qed.

Lemma failed_operation_nonce_is_reused_witness :
  exists x,
    DeleteProofSet
      {| address := 1; contractAddr := PDPVerifierCalibration;
         chainID := ChainIDCalibration;
         nonceManager := {| nonce := Some 40; pendingTxs := ∅; reclaimable := [32; 30] |};
         config := {| GasBufferPercent := 10; ContractAddress := 0 |} |}
      {| pendingNonceAt := Ok 0; signerFunc := None; estimate := Ok 100000;
         send := fun _ => Err (errors_New "insufficient funds");
         polls := [] |} = Some x /\
    (GetNonce (after x) (Err (Sentinel context_Canceled))).2 = Ok 30.
Proof.
  eexists. split; [reflexivity|].
  refine (proj2 (proj2 (failed_operation_nonce_is_reused (fun _ => 0)
    {| address := 1; contractAddr := PDPVerifierCalibration;
       chainID := ChainIDCalibration;
       nonceManager := {| nonce := Some 40; pendingTxs := ∅; reclaimable := [32; 30] |};
       config := {| GasBufferPercent := 10; ContractAddress := 0 |} |}
    {| pendingNonceAt := Ok 0; signerFunc := None; estimate := Ok 100000;
       send := fun _ => Err (errors_New "insufficient funds");
       polls := [] |}
    _ 30 (Err (Sentinel context_Canceled)) eq_refl)) _ eq_refl eq_refl eq_refl).
Defined.

End ManagerMore.

(** ** Reading the roots of a proof set *)

Module ReadsFacts.

Import Reads.

Section GetRoots.

Variable Cid : Type.
Variable cid_Cast : list Z -> Result Cid.

Lemma convert_pieces_Ok (ids : list Z) (pieces : list (list Z)) :
  forall (i : nat) (roots : list (Root Cid)),
    convert_pieces Cid cid_Cast ids i pieces = Ok roots ->
    length roots = length pieces /\
    (forall j piece,
       pieces !! j = Some piece ->
       exists c,
         cid_Cast piece = Ok c /\
         roots !! j =
           Some {| PieceCID := c;
                   PieceID := match ids !! (i + j)%nat with
                              | Some id => Gas.big_Uint64 id
                              | None => 0
                              end |}).
Proof.
  induction pieces as [|piece rest IH]; intros i roots; cbn [convert_pieces].
  - intros [= <-]. split; [done|]. intros j piece Hj. by rewrite lookup_nil in Hj.
  - destruct (cid_Cast piece) as [c|err] eqn:Hc; [|discriminate].
    destruct (convert_pieces Cid cid_Cast ids (S i) rest) as [roots'|err] eqn:Hrest;
      [|discriminate].
    intros [= <-]. destruct (IH _ _ Hrest) as [Hlen Hall]. split; [simpl; lia|].
    intros [|j] p Hj; simpl in Hj.
    + injection Hj as <-. exists c. split; [done|]. simpl. by rewrite Nat.add_0_r.
    + destruct (Hall j p Hj) as (c' & Hc' & Hr). exists c'. split; [done|].
      simpl. by rewrite Nat.add_succ_r.
Qed.

Lemma convert_pieces_Err (ids : list Z) (pieces : list (list Z)) :
  forall (i j : nat) (piece : list Z) (err : error),
    pieces !! j = Some piece ->
    cid_Cast piece = Err err ->
    (forall k p, (k < j)%nat -> pieces !! k = Some p -> exists c, cid_Cast p = Ok c) ->
    convert_pieces Cid cid_Cast ids i pieces = Err (parse_error (i + j) err).
Proof.
  induction pieces as [|first rest IH]; intros i j piece err Hj Herr Hbefore.
  - by rewrite lookup_nil in Hj.
  - cbn [convert_pieces]. destruct j as [|j]; simpl in Hj.
    + injection Hj as ->. by rewrite Herr, Nat.add_0_r.
    + destruct (Hbefore 0%nat first) as [c ->]; [lia|done|].
      rewrite (IH (S i) j piece err Hj Herr).
      * by rewrite Nat.add_succ_r.
      * intros k p Hk Hp. apply (Hbefore (S k) p); [lia|done].
Qed.

(** X21. [GetRoots] is all or nothing. When it succeeds, the contract call
    succeeded, every piece parsed, and root [j] carries the CID of piece
    [j] with the low 64 bits of piece id [j], or 0 when the contract
    returned fewer ids than pieces; [HasMore] is passed on. When a piece
    does not parse, nothing is returned but the error of the first such
    piece, with its index. *)
Theorem GetRoots_all_or_nothing (getActivePieces : Z -> Z -> Result ActivePieces)
    (offset limit : Z) :
  (forall roots more,
     GetRoots Cid cid_Cast getActivePieces offset limit = Ok (roots, more) ->
     exists result,
       getActivePieces (Gas.int64_of_uint64 offset) (Gas.int64_of_uint64 limit)
         = Ok result /\
       more = HasMore result /\
       length roots = length (Pieces result) /\
       forall j piece,
         Pieces result !! j = Some piece ->
         exists c,
           cid_Cast piece = Ok c /\
           roots !! j =
             Some {| PieceCID := c;
                     PieceID := match PieceIds result !! j with
                                | Some id => Gas.big_Uint64 id
                                | None => 0
                                end |}) /\
  (forall result j piece err,
     getActivePieces (Gas.int64_of_uint64 offset) (Gas.int64_of_uint64 limit)
       = Ok result ->
     Pieces result !! j = Some piece ->
     cid_Cast piece = Err err ->
     (forall k p, (k < j)%nat -> Pieces result !! k = Some p ->
                  exists c, cid_Cast p = Ok c) ->
     GetRoots Cid cid_Cast getActivePieces offset limit = Err (parse_error j err)).
Proof.
  unfold GetRoots. split.
  - intros roots more.
    destruct (getActivePieces _ _) as [result|err]; [|discriminate].
    destruct (convert_pieces Cid cid_Cast (PieceIds result) 0 (Pieces result))
      as [roots'|err] eqn:Hconv; [|discriminate].
    intros [= <- <-]. exists result.
    destruct (convert_pieces_Ok _ _ _ _ Hconv) as [Hlen Hall]. by repeat split.
  - intros result j piece err -> Hj Herr Hbefore.
    by rewrite (convert_pieces_Err _ _ 0 j piece err Hj Herr Hbefore).
Qed.

End GetRoots.

End ReadsFacts.

(** ** The generic retry helpers *)

Module GenericRetryFacts.

Import GenericRetry.

Section Do.

Variable indefinite : float -> Z.
Variable env : DoEnv.
Variable cfg : Config.

Local Abbreviation loop := (do_loop indefinite env cfg).

Lemma next_interval_capped (interval : Z) :
  next_interval indefinite cfg interval <= MaxInterval cfg.
Proof.
  unfold next_interval. rewrite Z.gtb_ltb.
  destruct (_ <? _) eqn:E; [lia|]. by apply Z.ltb_ge in E.
Qed.

(** What the loop of [Do] keeps true: on entry to iteration [attempt] it
    has called [fn] and slept [attempt] times each. *)
Lemma do_loop_invariant (remaining : nat) :
  forall attempt interval lastErr calls naps,
    calls = attempt ->
    length naps = attempt ->
    (attempt = 0%nat -> interval = InitialInterval cfg) ->
    ((0 < attempt)%nat -> interval <= MaxInterval cfg) ->
    (forall i d, naps !! i = Some d ->
       match i with O => d = InitialInterval cfg | S _ => d <= MaxInterval cfg end) ->
    (fnCalls (loop remaining attempt interval lastErr calls naps)
       <= attempt + remaining)%nat /\
    (length (slept (loop remaining attempt interval lastErr calls naps))
       <= fnCalls (loop remaining attempt interval lastErr calls naps))%nat /\
    ((0 < remaining)%nat ->
     (length (slept (loop remaining attempt interval lastErr calls naps))
        < attempt + remaining)%nat /\
     (returned (loop remaining attempt interval lastErr calls naps) = None ->
      exists k,
        fnCalls (loop remaining attempt interval lastErr calls naps) = S k /\
        fnReply env k = None)) /\
    (forall i d,
       slept (loop remaining attempt interval lastErr calls naps) !! i = Some d ->
       match i with O => d = InitialInterval cfg | S _ => d <= MaxInterval cfg end).
Proof.
  induction remaining as [|r IH];
    intros attempt interval lastErr calls naps Hcalls Hlen Hfirst Hlater Hnaps.
  - simpl. subst calls. repeat split; try lia; done.
  - cbn [do_loop]. subst calls.
    destruct (ctxErr env attempt) as [cerr|]; simpl.
    { repeat split; try lia; try done. }
    destruct (fnReply env attempt) as [err|] eqn:Hfn; simpl.
    2:{ repeat split; try lia; try done. intros _. by exists attempt. }
    destruct r as [|r'].
    { simpl. repeat split; try lia; try done. }
    destruct (ctxDone env attempt) as [cerr|]; cbn [fnCalls slept returned].
    { repeat split; try lia; try done. }
    destruct (IH (S attempt) (next_interval indefinite cfg interval) (Some err)
                (S attempt) (naps ++ [interval])) as (H1 & H2 & H3 & H4).
    + done.
    + rewrite length_app. simpl. lia.
    + lia.
    + intros _. apply next_interval_capped.
    + intros i d Hi. apply lookup_app_Some in Hi as [Hi|[Hge Hi]]; [by apply Hnaps|].
      apply list_lookup_singleton_Some in Hi as [Hi <-].
      destruct i as [|i]; [apply Hfirst; lia|apply Hlater; lia].
    + destruct (H3 ltac:(lia)) as [H3a H3b].
      split; [lia|]. split; [done|]. split; [|done]. intros _. split; [lia|done].
Qed.

(** X22. [Do] with a non-negative [MaxRetries] calls [fn] at most
    [MaxRetries + 1] times and sleeps at most [MaxRetries] times, never
    after the last attempt; it returns [nil] only when the last call of
    [fn] returned [nil]. The first sleep lasts [InitialInterval], every
    later one at most [MaxInterval]. With a negative [MaxRetries] it
    returns [nil] without calling [fn] at all. *)
Theorem Do_outcomes :
  (MaxRetries cfg < 0 ->
   Do indefinite env cfg = {| returned := None; fnCalls := 0; slept := [] |}) /\
  (0 <= MaxRetries cfg ->
   Z.of_nat (fnCalls (Do indefinite env cfg)) <= MaxRetries cfg + 1 /\
   Z.of_nat (length (slept (Do indefinite env cfg))) <= MaxRetries cfg /\
   (length (slept (Do indefinite env cfg)) <= fnCalls (Do indefinite env cfg))%nat /\
   (returned (Do indefinite env cfg) = None ->
    exists k, fnCalls (Do indefinite env cfg) = S k /\ fnReply env k = None)) /\
  (forall i d,
     slept (Do indefinite env cfg) !! i = Some d ->
     match i with O => d = InitialInterval cfg | S _ => d <= MaxInterval cfg end).
Proof.
  unfold Do.
  destruct (do_loop_invariant (Z.to_nat (MaxRetries cfg + 1)) 0%nat (InitialInterval cfg)
              None 0%nat []) as (H1 & H2 & H3 & H4); try done; try lia.
  split; [|split; [|done]].
  - intros Hneg. replace (Z.to_nat (MaxRetries cfg + 1)) with 0%nat by lia. done.
  - intros Hpos. destruct (H3 ltac:(lia)) as [H3a H3b].
    split; [lia|]. split; [lia|]. by split.
Qed.

End Do.

Section Poll.

Variable fn : nat -> bool * option error.

Lemma poll_turns_outcomes (turns : list PollTurn) :
  forall calls,
    (0 < calls)%nat ->
    (forall k, (k < calls)%nat -> fn k = (false, None)) ->
    match poll_turns fn calls turns with
    | Polling calls' =>
        calls' = (calls + length turns)%nat /\
        (forall k, (k < calls')%nat -> fn k = (false, None))
    | Returned err calls' =>
        (calls <= calls' <= calls + length turns)%nat /\
        (forall k, (k < pred calls')%nat -> fn k = (false, None)) /\
        match err with
        | None => fn (pred calls') = (true, None)
        | Some e =>
            (fn (pred calls')).2 = Some e \/
            (fn (pred calls') = (false, None) /\ PollCancelled e ∈ turns)
        end
    end.
Proof.
  induction turns as [|t turns IH]; intros calls Hpos Hnot; cbn [poll_turns].
  - split; [simpl; lia|done].
  - destruct t as [ctxErr|].
    + split; [simpl; lia|]. split; [intros k Hk; apply Hnot; lia|].
      right. split; [apply Hnot; lia|apply list_elem_of_here].
    + unfold ask. destruct (fn calls) as [done' [e|]] eqn:Hfn.
      * destruct done'; simpl; (split; [lia|]; split; [done|]; left; by rewrite Hfn).
      * destruct done'.
        -- simpl. split; [lia|]. by split.
        -- specialize (IH (S calls) ltac:(lia)).
           assert (Hnot' : forall k, (k < S calls)%nat -> fn k = (false, None)).
           { intros k Hk. destruct (decide (k = calls)) as [->|]; [done|].
             apply Hnot. lia. }
           specialize (IH Hnot').
           destruct (poll_turns fn (S calls) turns) as [calls'|err calls'].
           ++ destruct IH as [-> IH]. split; [simpl; lia|done].
           ++ destruct IH as (Hle & Hbefore & Herr). split; [simpl; lia|].
              split; [done|]. destruct err as [e|]; [|done].
              destruct Herr as [Herr|[Hlast Hin]]; [by left|].
              right. split; [done|]. by apply list_elem_of_further.
Qed.

(** X23. [Poll] with a positive interval calls [fn] once before it waits
    and once per tick. It returns [nil] only when the last call of [fn]
    reported [done] without an error; it returns an error that is the one
    [fn] returned last (unwrapped, and taking precedence over [done]), or
    [ctx.Err()] when the context ended first. Every call before the last
    one reported "not done" without an error. With an interval that is
    not positive it panics in [time.NewTicker], before [fn] is called. *)
Theorem Poll_outcomes (interval : Z) (turns : list PollTurn) :
  (interval <= 0 -> Poll fn interval turns = PollPanics) /\
  (0 < interval ->
   exists p,
     Poll fn interval turns = PollRuns p /\
     match p with
     | Polling calls =>
         calls = S (length turns) /\
         (forall k, (k < calls)%nat -> fn k = (false, None))
     | Returned err calls =>
         (1 <= calls <= S (length turns))%nat /\
         (forall k, (k < pred calls)%nat -> fn k = (false, None)) /\
         match err with
         | None => fn (pred calls) = (true, None)
         | Some e =>
             (fn (pred calls)).2 = Some e \/
             (fn (pred calls) = (false, None) /\ PollCancelled e ∈ turns)
         end
     end).
Proof.
  unfold Poll. split.
  - intros Hneg. by rewrite (proj2 (Z.leb_le interval 0) Hneg).
  - intros Hpos. rewrite (proj2 (Z.leb_gt interval 0) Hpos).
    eexists. split; [reflexivity|].
    unfold ask. destruct (fn 0%nat) as [done' [e|]] eqn:Hfn.
    + destruct done'; simpl;
        (split; [lia|]; split; [intros k Hk; lia|]; left; by rewrite Hfn).
    + destruct done'.
      * simpl. split; [lia|]. split; [intros k Hk; lia|done].
      * pose proof (poll_turns_outcomes turns 1 ltac:(lia)) as H.
        assert (Hnot : forall k, (k < 1)%nat -> fn k = (false, None)).
        { intros k Hk. by assert (k = 0%nat) as -> by lia. }
        specialize (H Hnot).
        destruct (poll_turns fn 1 turns) as [calls|err calls]; [done|].
        destruct H as (Hle & Hbefore & Herr). split; [lia|]. by split.
Qed.

End Poll.

End GenericRetryFacts.

(** ** Networks and epochs *)

Module NetworkFacts.

Import Manager Network.

Lemma ExpectedChainID_known (network : string) (id : Z) :
  ExpectedChainID network = Some id <->
  (network = NetworkMainnet /\ id = ChainIDMainnet) \/
  (network = NetworkCalibration /\ id = ChainIDCalibration).
Proof.
  unfold ExpectedChainID, NetworkChainIDs. split.
  - intros H. apply lookup_insert_Some in H as [[<- <-]|[Hne H]]; [by left|].
    apply lookup_singleton_Some in H as [<- <-]. by right.
  - intros [[-> ->]|[-> ->]]; reflexivity.
Qed.

Lemma NetworkFromChainID_Ok (chainID : Z) (network : string)
    (id : Z) :
  NetworkFromChainID chainID = Ok (network, id) ->
  ExpectedChainID network = Some id /\ big_Int64 chainID = id.
Proof.
  rewrite ExpectedChainID_known. unfold NetworkFromChainID.
  destruct (big_Int64 chainID =? ChainIDMainnet) eqn:Hm.
  { apply Z.eqb_eq in Hm. intros [= <- <-]. split; [by left|done]. }
  destruct (big_Int64 chainID =? ChainIDCalibration) eqn:Hc; [|discriminate].
  apply Z.eqb_eq in Hc. intros [= <- <-]. split; [by right|done].
Qed.

(** X24. Detection and expectation agree: [NetworkFromChainID] reports a
    network and an id for a chain ID exactly when that id, the chain ID
    reduced to an [int64], is the one [ExpectedChainID] gives for that
    network. *)
Theorem NetworkFromChainID_matches_ExpectedChainID (chainID : Z) (network : string)
    (id : Z) :
  NetworkFromChainID chainID = Ok (network, id) <->
  ExpectedChainID network = Some id /\ big_Int64 chainID = id.
Proof.
  split; [apply NetworkFromChainID_Ok|].
  rewrite ExpectedChainID_known. unfold NetworkFromChainID.
  intros [[[-> ->]|[-> ->]] Hid]; rewrite Hid; reflexivity.
Qed.

(** X25. The network that [DetectNetwork] reports is one
    [NewManagerWithConfig] accepts: with a signer, a gas buffer in
    [[0, 100]], the same answer of the node and a contract that binds, the
    constructor returns a manager for it, on the configured contract
    address or else the network's default, which exists. *)
Theorem detected_network_is_accepted (default : ManagerConfig) (env : NewManagerEnv)
    (network : string) (id : Z) (cfg : ManagerConfig) (signerAddress : Z) :
  DetectNetwork (chainIDReply env) = Ok (network, id) ->
  signer env = Some signerAddress ->
  bindReply env = None ->
  0 <= GasBufferPercent cfg <= 100 ->
  exists m,
    NewManagerWithConfig default env network (Some cfg) = (Ok m, [Gas.RPC_ChainID]) /\
    address m = signerAddress /\
    big_Int64 (chainID m) = id /\
    config m = cfg /\
    contractAddr m =
      (if ContractAddress cfg =? 0 then GetPDPVerifierAddress network
       else ContractAddress cfg).
Proof.
  unfold DetectNetwork. intros Hdetect Hsigner Hbind Hbuf.
  destruct (chainIDReply env) as [reply|err] eqn:Hreply; [|discriminate].
  apply NetworkFromChainID_Ok in Hdetect as [Hexp Hid].
  unfold NewManagerWithConfig. rewrite Hsigner, Hexp, Hreply, Hid, Z.eqb_refl, Hbind.
  cbn [negb].
  assert (Htest : (GasBufferPercent cfg <? 0) || (GasBufferPercent cfg >? 100) = false).
  { apply orb_false_iff. split; [apply Z.ltb_ge; lia|].
    rewrite Z.gtb_ltb. apply Z.ltb_ge. lia. }
  rewrite Htest.
  assert (Haddr : ((if ContractAddress cfg =? 0 then GetPDPVerifierAddress network
                    else ContractAddress cfg) =? 0) = false).
  { apply Z.eqb_neq. destruct (ContractAddress cfg =? 0) eqn:Hc.
    - apply ExpectedChainID_known in Hexp as [[-> _]|[-> _]]; by vm_compute.
    - by apply Z.eqb_neq in Hc. }
  rewrite Haddr. eexists. split; [reflexivity|]. by simpl.
Qed.

Lemma detected_network_is_accepted_witness :
  exists m,
    NewManagerWithConfig {| GasBufferPercent := 10; ContractAddress := 0 |}
      {| signer := Some 1; chainIDReply := Ok 314159; bindReply := None |}
      NetworkCalibration (Some {| GasBufferPercent := 25; ContractAddress := 0 |})
      = (Ok m, [Gas.RPC_ChainID]) /\
    address m = 1 /\
    big_Int64 (chainID m) = 314159 /\
    config m = {| GasBufferPercent := 25; ContractAddress := 0 |} /\
    contractAddr m = PDPVerifierCalibration.
Proof.
  apply (detected_network_is_accepted {| GasBufferPercent := 10; ContractAddress := 0 |}
           {| signer := Some 1; chainIDReply := Ok 314159; bindReply := None |}
           NetworkCalibration 314159 {| GasBufferPercent := 25; ContractAddress := 0 |} 1).
  - reflexivity.
  - reflexivity.
  - reflexivity.
  - simpl. lia.
Defined.

(** *** Epochs *)

Lemma big_Int64_small (z : Z) : - 2 ^ 63 <= z < 2 ^ 63 -> big_Int64 z = z.
Proof.
  intros Hz. unfold big_Int64, Gas.int64_of_uint64.
  destruct (z <? 0) eqn:Hneg.
  - apply Z.ltb_lt in Hneg. rewrite Z.abs_neq by lia.
    rewrite (Z.mod_small (- z)) by lia.
    destruct (- z <? 2 ^ 63) eqn:Hlt.
    + apply Z.ltb_lt in Hlt. rewrite Z.opp_involutive.
      replace (z mod 2 ^ 64) with (z + 2 ^ 64).
      2:{ apply (Z.mod_unique_pos z (2 ^ 64) (-1) (z + 2 ^ 64)); lia. }
      assert ((z + 2 ^ 64 <? 2 ^ 63) = false) as -> by (apply Z.ltb_ge; lia). lia.
    + apply Z.ltb_ge in Hlt. assert (z = - 2 ^ 63) as -> by lia. reflexivity.
  - apply Z.ltb_ge in Hneg. rewrite Z.abs_eq by lia.
    rewrite Z.mod_small by lia.
    assert ((z <? 2 ^ 63) = true) as -> by (apply Z.ltb_lt; lia). done.
Qed.

Lemma int64_wrap_small (z : Z) : - 2 ^ 63 <= z < 2 ^ 63 -> int64_wrap z = z.
Proof. intros Hz. unfold int64_wrap. rewrite Z.mod_small; lia. Qed.

Lemma genesis_known (chainID genesis : Z) :
  GenesisTimestampsByChainID !! chainID = Some genesis ->
  0 <= genesis < 2 ^ 31.
Proof.
  unfold GenesisTimestampsByChainID. intros H.
  apply lookup_insert_Some in H as [[_ <-]|[_ H]]; [by vm_compute|].
  apply lookup_singleton_Some in H as [_ <-]. by vm_compute.
Qed.

Lemma EpochToTime_small (chainID genesis epoch : Z) :
  GenesisTimestampsByChainID !! chainID = Some genesis ->
  - 2 ^ 63 <= epoch * 30 -> genesis + epoch * 30 < 2 ^ 63 ->
  EpochToTime chainID epoch = genesis + epoch * 30.
Proof.
  intros Hg Hlo Hhi. pose proof (genesis_known _ _ Hg) as Hgen.
  unfold EpochToTime, EpochDurationSeconds. rewrite Hg.
  rewrite big_Int64_small by lia.
  rewrite (int64_wrap_small (epoch * 30)) by lia.
  apply int64_wrap_small. lia.
Qed.

(** X26. Epochs and times convert back and forth: on a known chain, and
    as long as the arithmetic stays within [int64], the time of epoch [e]
    is the genesis time plus [30 e] seconds, and the epoch of that time is
    [e] again. *)
Theorem epoch_round_trip (chainID genesis epoch : Z) :
  GenesisTimestampsByChainID !! chainID = Some genesis ->
  - 2 ^ 63 <= epoch * 30 -> genesis + epoch * 30 < 2 ^ 63 ->
  EpochToTime chainID epoch = genesis + epoch * 30 /\
  TimeToEpoch chainID (EpochToTime chainID epoch) = epoch.
Proof.
  intros Hg Hlo Hhi. pose proof (genesis_known _ _ Hg) as Hgen.
  rewrite (EpochToTime_small _ _ _ Hg Hlo Hhi). split; [done|].
  unfold TimeToEpoch, EpochDurationSeconds. rewrite Hg.
  replace (genesis + epoch * 30 - genesis) with (epoch * 30) by lia.
  rewrite int64_wrap_small by lia. apply Z.quot_mul. lia.
Qed.

Lemma epoch_round_trip_witness :
  EpochToTime ChainIDMainnet 2880 = 1598306400 + 2880 * 30 /\
  TimeToEpoch ChainIDMainnet (EpochToTime ChainIDMainnet 2880) = 2880.
Proof.
  apply (epoch_round_trip ChainIDMainnet 1598306400 2880); [reflexivity|lia|lia].
Defined.

(** X27. [TimeToEpoch] rounds toward the genesis: a time at or after the
    genesis of a known chain lies in the 30 seconds that start at the time
    of its epoch, and a time less than 30 seconds before the genesis is
    in epoch 0 as well. [CurrentEpoch] is [TimeToEpoch] of the current
    time. For an unknown chain the epoch is 0 and the time is the zero
    [time.Time]. *)
Theorem TimeToEpoch_brackets (chainID : Z) :
  (forall genesis t,
     GenesisTimestampsByChainID !! chainID = Some genesis ->
     (genesis <= t < 2 ^ 63 ->
      0 <= TimeToEpoch chainID t /\
      EpochToTime chainID (TimeToEpoch chainID t) <= t
        < EpochToTime chainID (TimeToEpoch chainID t) + 30) /\
     (genesis - 30 < t <= genesis -> TimeToEpoch chainID t = 0)) /\
  (forall now, CurrentEpoch now chainID = TimeToEpoch chainID now) /\
  (GenesisTimestampsByChainID !! chainID = None ->
   forall t epoch,
     TimeToEpoch chainID t = 0 /\ EpochToTime chainID epoch = zero_Time).
Proof.
  split; [|split].
  - intros genesis t Hg. pose proof (genesis_known _ _ Hg) as Hgen. split.
    + intros Ht.
      assert (He : TimeToEpoch chainID t = (t - genesis) / 30).
      { unfold TimeToEpoch, EpochDurationSeconds. rewrite Hg.
        rewrite int64_wrap_small by lia. apply Z.quot_div_nonneg; lia. }
      rewrite He.
      pose proof (Z.div_pos (t - genesis) 30 ltac:(lia) ltac:(lia)) as Hpos.
      pose proof (Z.mul_div_le (t - genesis) 30 ltac:(lia)) as Hle.
      pose proof (Z.mul_succ_div_gt (t - genesis) 30 ltac:(lia)) as Hgt.
      rewrite (EpochToTime_small _ _ _ Hg) by lia. lia.
    + intros Ht. unfold TimeToEpoch, EpochDurationSeconds. rewrite Hg.
      rewrite int64_wrap_small by lia.
      rewrite <- (Z.opp_involutive (t - genesis)), Z.quot_opp_l by lia.
      rewrite Z.quot_small by lia. done.
  - done.
  - intros Hg t epoch. unfold TimeToEpoch, EpochToTime. by rewrite Hg.
Qed.

End NetworkFacts.

(** ** Proof-set queries and what the operations read from a receipt *)

Module ProofSetsFacts.

Import Nonce Manager ManagerFacts ProofSets.

(** A receipt that the waiter returns without an error has status 1. *)
Lemma WaitForReceipt_success_status (timeout : Z) (evs : list Receipt.PollEvent)
    (receipt : Receipt.Receipt) :
  Receipt.WaitForReceipt timeout evs = Receipt.Return (Some receipt) None ->
  Receipt.Status receipt = Receipt.ReceiptStatusSuccessful.
Proof.
  unfold Receipt.WaitForReceipt, Receipt.WaitForReceiptWithConfig. intros Hrun.
  destruct (ReceiptFacts.poll_loop_returned _ _ _ _ _ Hrun)
    as (before & ev & after & st' & _ & _ & Hp).
  destruct ev as [ctxErr|[r|e]]; simpl in Hp; [discriminate| |].
  - destruct (Receipt.Status r =? Receipt.ReceiptStatusSuccessful) eqn:Hs; simpl in Hp;
      [|discriminate].
    injection Hp as <-. by apply Z.eqb_eq in Hs.
  - destruct (errors_Is e ethereum_NotFound); [discriminate|].
    destruct (_ >=? _); discriminate.
Qed.

(** How the common tail of the operations makes its result. *)
Lemma await_receipt_result {A : Type} (env : OpEnv) (nm : NonceManager)
    (events : list Event) (n : Z) (fail : error -> A)
    (finish : Receipt.Receipt -> A) (x : Exit A) :
  await_receipt env nm events n fail finish = Some x ->
  (exists receipt err,
     Receipt.WaitForReceipt receipt_timeout (polls env)
       = Receipt.Return receipt (Some err) /\
     result x = fail (fmt_Errorf "failed to wait for receipt: " err "")) \/
  (exists receipt,
     Receipt.WaitForReceipt receipt_timeout (polls env)
       = Receipt.Return (Some receipt) None /\
     result x = finish receipt).
Proof.
  unfold await_receipt, deferred_return.
  destruct (Receipt.WaitForReceipt receipt_timeout (polls env))
    as [st|[receipt|] [err|]]; simpl; intros H; try discriminate;
    injection H as <-; simpl; eauto.
Qed.

Section Logs.

Variable Log : Type.
Variable ParseDataSetCreated : Log -> Result (option Z).
Variable ParsePiecesAdded : Log -> Result (option (list Z)).
Variable Logs : Receipt.Receipt -> list Log.

Lemma extractProofSetIDFromReceipt_Ok (logs : list Log) (id : Z) :
  extractProofSetIDFromReceipt Log ParseDataSetCreated logs = Ok id ->
  exists before log after,
    logs = before ++ log :: after /\
    ParseDataSetCreated log = Ok (Some id) /\
    forall l, l ∈ before -> forall i, ParseDataSetCreated l <> Ok (Some i).
Proof.
  induction logs as [|log rest IH]; cbn [extractProofSetIDFromReceipt]; [discriminate|].
  destruct (ParseDataSetCreated log) as [[setId|]|err] eqn:Hlog.
  - intros [= <-]. exists [], log, rest. split; [done|]. split; [done|].
    intros l Hl. by apply elem_of_nil in Hl.
  - intros H. destruct (IH H) as (before & l0 & after & -> & Hl0 & Hnone).
    exists (log :: before), l0, after. split; [done|]. split; [done|].
    intros l Hl i. apply elem_of_cons in Hl as [->|Hl]; [by rewrite Hlog|by apply Hnone].
  - intros H. destruct (IH H) as (before & l0 & after & -> & Hl0 & Hnone).
    exists (log :: before), l0, after. split; [done|]. split; [done|].
    intros l Hl i. apply elem_of_cons in Hl as [->|Hl]; [by rewrite Hlog|by apply Hnone].
Qed.

Lemma extractProofSetIDFromReceipt_Err (logs : list Log) (err : error) :
  extractProofSetIDFromReceipt Log ParseDataSetCreated logs = Err err ->
  err = errors_New "DataSetCreated event not found in receipt" /\
  forall l, l ∈ logs -> forall i, ParseDataSetCreated l <> Ok (Some i).
Proof.
  induction logs as [|log rest IH]; cbn [extractProofSetIDFromReceipt].
  - intros [= <-]. split; [done|]. intros l Hl. by apply elem_of_nil in Hl.
  - destruct (ParseDataSetCreated log) as [[setId|]|e] eqn:Hlog; [discriminate| |];
      intros H; destruct (IH H) as [-> Hnone]; (split; [done|]);
      intros l Hl i; apply elem_of_cons in Hl as [->|Hl];
      try (by rewrite Hlog); by apply Hnone.
Qed.

Lemma extractPieceIDsFromReceipt_Ok (logs : list Log) (ids : list Z) :
  extractPieceIDsFromReceipt Log ParsePiecesAdded logs = Ok ids ->
  exists before log after pieceIds,
    logs = before ++ log :: after /\
    ParsePiecesAdded log = Ok (Some pieceIds) /\
    ids = map Gas.big_Uint64 pieceIds /\
    forall l, l ∈ before -> forall i, ParsePiecesAdded l <> Ok (Some i).
Proof.
  induction logs as [|log rest IH]; cbn [extractPieceIDsFromReceipt]; [discriminate|].
  destruct (ParsePiecesAdded log) as [[pieceIds|]|err] eqn:Hlog.
  - intros [= <-]. exists [], log, rest, pieceIds. split; [done|]. split; [done|].
    split; [done|]. intros l Hl. by apply elem_of_nil in Hl.
  - intros H. destruct (IH H) as (before & l0 & after & p & -> & Hl0 & Hids & Hnone).
    exists (log :: before), l0, after, p. split; [done|]. split; [done|].
    split; [done|].
    intros l Hl i. apply elem_of_cons in Hl as [->|Hl]; [by rewrite Hlog|by apply Hnone].
  - intros H. destruct (IH H) as (before & l0 & after & p & -> & Hl0 & Hids & Hnone).
    exists (log :: before), l0, after, p. split; [done|]. split; [done|].
    split; [done|].
    intros l Hl i. apply elem_of_cons in Hl as [->|Hl]; [by rewrite Hlog|by apply Hnone].
Qed.

Lemma extractPieceIDsFromReceipt_Err (logs : list Log) (err : error) :
  extractPieceIDsFromReceipt Log ParsePiecesAdded logs = Err err ->
  err = errors_New "PiecesAdded event not found in receipt" /\
  forall l, l ∈ logs -> forall i, ParsePiecesAdded l <> Ok (Some i).
Proof.
  induction logs as [|log rest IH]; cbn [extractPieceIDsFromReceipt].
  - intros [= <-]. split; [done|]. intros l Hl. by apply elem_of_nil in Hl.
  - destruct (ParsePiecesAdded log) as [[pieceIds|]|e] eqn:Hlog; [discriminate| |];
      intros H; destruct (IH H) as [-> Hnone]; (split; [done|]);
      intros l Hl i; apply elem_of_cons in Hl as [->|Hl];
      try (by rewrite Hlog); by apply Hnone.
Qed.

(** X28. What [CreateProofSet] returns on success: the receipt the waiter
    returned, of status 1, and as proof-set id the [SetId] of the first
    log of that receipt that parses as a [DataSetCreated] event. When the
    receipt arrived but none of its logs parses, the operation fails with
    "failed to extract proof set ID: DataSetCreated event not found in
    receipt", although the transaction was mined. *)
Theorem CreateProofSet_reads_first_DataSetCreated (indefinite : float -> Z)
    (m : Manager) (env : OpEnv) (x : Exit (Result ProofSetResult)) :
  CreateProofSet indefinite m env (extract_proof_set_id Log ParseDataSetCreated Logs)
    = Some x ->
  (forall res,
     result x = Ok res ->
     Receipt.WaitForReceipt receipt_timeout (polls env)
       = Receipt.Return (Some (ProofSetReceipt res)) None /\
     Receipt.Status (ProofSetReceipt res) = Receipt.ReceiptStatusSuccessful /\
     exists before log after,
       Logs (ProofSetReceipt res) = before ++ log :: after /\
       ParseDataSetCreated log = Ok (Some (ProofSetID res)) /\
       forall l, l ∈ before -> forall i, ParseDataSetCreated l <> Ok (Some i)) /\
  (forall receipt,
     existsb is_sent (trace x) = true ->
     Receipt.WaitForReceipt receipt_timeout (polls env)
       = Receipt.Return (Some receipt) None ->
     (forall l, l ∈ Logs receipt -> forall i, ParseDataSetCreated l <> Ok (Some i)) ->
     result x =
       Err (fmt_Errorf "failed to extract proof set ID: "
              (errors_New "DataSetCreated event not found in receipt") "")).
Proof.
  unfold CreateProofSet, newTransactor, deferred_return.
  destruct (GetNonce (nonceManager m) (pendingNonceAt env)) as [nm1 [n|e]].
  2:{ intros [= <-]. simpl. split; [discriminate|]. intros receipt Hs. discriminate. }
  destruct (signerFunc env) as [serr|]; simpl.
  { intros [= <-]. simpl. split; [discriminate|]. intros receipt Hs. discriminate. }
  destruct (estimate env) as [gas|eerr]; simpl.
  2:{ intros [= <-]. simpl. split; [discriminate|]. intros receipt Hs. discriminate. }
  destruct (send env _) as [txHash|serr]; simpl.
  2:{ intros [= <-]. simpl. split; [discriminate|]. intros receipt Hs. discriminate. }
  intros Hret.
  destruct (await_receipt_result _ _ _ _ _ _ _ Hret)
    as [(receipt & err & Hwait & ->)|(receipt & Hwait & ->)].
  - split; [discriminate|]. intros r _ Hr. rewrite Hwait in Hr. discriminate.
  - unfold extract_proof_set_id, found.
    destruct (extractProofSetIDFromReceipt Log ParseDataSetCreated (Logs receipt))
      as [id|err] eqn:Hex.
    + split.
      * intros res [= <-]. simpl. split; [done|].
        split; [by eapply WaitForReceipt_success_status|].
        by apply extractProofSetIDFromReceipt_Ok.
      * intros r _ Hr Hnone. rewrite Hwait in Hr. injection Hr as <-.
        destruct (extractProofSetIDFromReceipt_Ok _ _ Hex)
          as (before & log & after & Hlogs & Hlog & _).
        exfalso. apply (Hnone log) with id; [|exact Hlog].
        rewrite Hlogs. apply elem_of_app. right. apply list_elem_of_here.
    + split; [discriminate|]. by intros.
Qed.

(** X29. What [AddRoots] returns on success: the receipt the waiter
    returned, of status 1, the number of roots given as [RootsAdded], and
    as piece ids the low 64 bits of the [PieceIds] of the first log of
    that receipt that parses as a [PiecesAdded] event. Without roots it
    fails before anything else, and when the proof set cannot be read it
    fails before taking a nonce; in both cases the nonce manager is left
    untouched. *)
Theorem AddRoots_reads_first_PiecesAdded (indefinite : float -> Z) (m : Manager)
    (env : OpEnv) (roots : nat) (cenv : ContractEnv) (proofSetID : Z) :
  (forall x res,
     AddRoots indefinite m env roots (listener_of (GetProofSet cenv proofSetID).1)
       (extract_piece_ids Log ParsePiecesAdded Logs) = Some x ->
     result x = Ok res ->
     Receipt.WaitForReceipt receipt_timeout (polls env)
       = Receipt.Return (Some (AddRootsReceipt res)) None /\
     Receipt.Status (AddRootsReceipt res) = Receipt.ReceiptStatusSuccessful /\
     RootsAdded res = roots /\ (0 < roots)%nat /\
     exists before log after pieceIds,
       Logs (AddRootsReceipt res) = before ++ log :: after /\
       ParsePiecesAdded log = Ok (Some pieceIds) /\
       PieceIDs res = map Gas.big_Uint64 pieceIds /\
       forall l, l ∈ before -> forall i, ParsePiecesAdded l <> Ok (Some i)) /\
  (roots = 0%nat ->
   AddRoots indefinite m env roots (listener_of (GetProofSet cenv proofSetID).1)
     (extract_piece_ids Log ParsePiecesAdded Logs)
   = Some (mkExit (nonceManager m) [] (Err (errors_New "no roots provided")))) /\
  (forall err,
     roots <> 0%nat ->
     (GetProofSet cenv proofSetID).1 = Err err ->
     AddRoots indefinite m env roots (listener_of (GetProofSet cenv proofSetID).1)
       (extract_piece_ids Log ParsePiecesAdded Logs)
     = Some (mkExit (nonceManager m) [EGetProofSet (Err err)]
               (Err (fmt_Errorf "failed to get proof set: " err "")))).
Proof.
  split; [|split].
  - intros x res. unfold AddRoots, newTransactor, deferred_return.
    destruct (roots =? 0)%nat eqn:Hroots.
    { intros [= <-]. discriminate. }
    apply Nat.eqb_neq in Hroots.
    destruct (listener_of (GetProofSet cenv proofSetID).1) as [listenerAddr|gerr].
    2:{ intros [= <-]. discriminate. }
    destruct (GetNonce (nonceManager m) (pendingNonceAt env)) as [nm1 [n|e]].
    2:{ intros [= <-]. discriminate. }
    destruct (signerFunc env) as [serr|]; simpl.
    { intros [= <-]. discriminate. }
    destruct (estimate env) as [gas|eerr]; simpl.
    2:{ intros [= <-]. discriminate. }
    destruct (send env _) as [txHash|serr]; simpl.
    2:{ intros [= <-]. discriminate. }
    intros Hret.
    destruct (await_receipt_result _ _ _ _ _ _ _ Hret)
      as [(receipt & err & Hwait & ->)|(receipt & Hwait & ->)]; [discriminate|].
    unfold extract_piece_ids, found.
    destruct (extractPieceIDsFromReceipt Log ParsePiecesAdded (Logs receipt))
      as [ids|err] eqn:Hex; [|discriminate].
    intros [= <-]. simpl. split; [done|].
    split; [by eapply WaitForReceipt_success_status|].
    split; [done|]. split; [lia|].
    by apply extractPieceIDsFromReceipt_Ok.
  - intros ->. reflexivity.
  - intros err Hroots Hget. unfold AddRoots. rewrite Hget. simpl.
    apply Nat.eqb_neq in Hroots. by rewrite Hroots.
Qed.

End Logs.

Lemma CreateProofSet_reads_first_DataSetCreated_witness :
  Receipt.WaitForReceipt receipt_timeout
    [Receipt.Tick (Err (Sentinel ethereum_NotFound));
     Receipt.Tick (Ok {| Receipt.Status := 1; Receipt.BlockNumber := 120 |})]
  = Receipt.Return (Some {| Receipt.Status := 1; Receipt.BlockNumber := 120 |}) None /\
  Receipt.Status {| Receipt.Status := 1; Receipt.BlockNumber := 120 |}
  = Receipt.ReceiptStatusSuccessful /\
  exists before log after,
    [1; 7; 8] = before ++ log :: after /\
    (if log =? 7 then Ok (Some 99) else Err (errors_New "no event signature"))
    = Ok (Some 99) /\
    forall l, l ∈ before -> forall i,
      (if l =? 7 then Ok (Some 99) else Err (errors_New "no event signature"))
      <> Ok (Some i).
Proof.
  exact (proj1 (CreateProofSet_reads_first_DataSetCreated Z
    (fun l => if l =? 7 then Ok (Some 99) else Err (errors_New "no event signature"))
    (fun _ => [1; 7; 8]) (fun _ => 0)
    {| address := 1; contractAddr := PDPVerifierCalibration;
       chainID := ChainIDCalibration; nonceManager := NewNonceManager;
       config := {| GasBufferPercent := 10; ContractAddress := 0 |} |}
    {| pendingNonceAt := Ok 10; signerFunc := None; estimate := Ok 100000;
       send := fun _ => Ok 77;
       polls := [Receipt.Tick (Err (Sentinel ethereum_NotFound));
                 Receipt.Tick (Ok {| Receipt.Status := 1; Receipt.BlockNumber := 120 |})] |}
    _ eq_refl)
    {| ProofSetID := 99; TransactionHash := 77;
       ProofSetReceipt := {| Receipt.Status := 1; Receipt.BlockNumber := 120 |} |}
    eq_refl).
Defined.

(** X30. [GetProofSet] asks the contract six things in a fixed order and
    stops at the first that fails, returning that failure wrapped; it
    succeeds exactly when all six do, and then reports the three counts
    reduced to 64 bits. *)
Theorem GetProofSet_stops_at_first_failure (env : ContractEnv) (proofSetID : Z) :
  (forall proofSet,
     (GetProofSet env proofSetID).1 = Ok proofSet <->
     exists live listener sp other leafCount activePieces nextPieceID,
       dataSetLive env = Ok live /\
       getDataSetListener env = Ok listener /\
       getDataSetStorageProvider env = Ok (sp, other) /\
       getDataSetLeafCount env = Ok leafCount /\
       getActivePieceCount env = Ok activePieces /\
       getNextPieceId env = Ok nextPieceID /\
       proofSet = {| ID := proofSetID;
                     Listener := listener;
                     StorageProvider := sp;
                     LeafCount := Z.abs leafCount mod 2 ^ 64;
                     ActivePieces := Z.abs activePieces mod 2 ^ 64;
                     NextPieceID := Z.abs nextPieceID mod 2 ^ 64;
                     Live := live |}) /\
  (GetProofSet env proofSetID).2
    `prefix_of` [QDataSetLive; QGetDataSetListener; QGetDataSetStorageProvider;
                 QGetDataSetLeafCount; QGetActivePieceCount; QGetNextPieceId] /\
  (GetProofSet env proofSetID).2 <> [] /\
  (forall err,
     (GetProofSet env proofSetID).1 = Err err ->
     exists cause,
       errors_Unwrap err = Some cause /\
       match last (GetProofSet env proofSetID).2 with
       | Some QDataSetLive => dataSetLive env = Err cause
       | Some QGetDataSetListener => getDataSetListener env = Err cause
       | Some QGetDataSetStorageProvider => getDataSetStorageProvider env = Err cause
       | Some QGetDataSetLeafCount => getDataSetLeafCount env = Err cause
       | Some QGetActivePieceCount => getActivePieceCount env = Err cause
       | Some QGetNextPieceId => getNextPieceId env = Err cause
       | None => False
       end).
Proof.
  unfold GetProofSet.
  destruct (dataSetLive env) as [live|e1];
    [destruct (getDataSetListener env) as [listener|e2];
     [destruct (getDataSetStorageProvider env) as [[sp other]|e3];
      [destruct (getDataSetLeafCount env) as [leafCount|e4];
       [destruct (getActivePieceCount env) as [activePieces|e5];
        [destruct (getNextPieceId env) as [nextPieceID|e6]|]|]|]|]|]; simpl;
    (split; [intros proofSet; split;
               [intros H; try discriminate; injection H as <-; by repeat eexists
               |intros (? & ? & ? & ? & ? & ? & ? & H1 & H2 & H3 & H4 & H5 & H6 & ->);
                try discriminate;
                injection H1 as <-; injection H2 as <-; injection H3 as <- <-;
                injection H4 as <-; injection H5 as <-; injection H6 as <-; done]
            |]);
    (split; [by eexists|]); (split; [done|]);
    intros err H; try discriminate; injection H as <-; by eexists.
Qed.

End ProofSetsFacts.
